(** * The MCTS search tree of Chinese Chess Zero (src/mcts/node.cc)

    A shallow embedding of the node operations of [node.cc]: the score-update
    protocol (virtual loss), terminal marking, depth summaries, subtree
    release, training-data extraction and [NodeTree::MakeMove].

    Nodes live in a store indexed by addresses: [Node*] and
    [std::unique_ptr<Node>] are both [option addr] ([None] is [nullptr]), so
    that the back-reference [parent_] and the owning links [child_] and
    [sibling_] alias the way they do in the program.  Methods are written in
    a state-and-error monad over the store and the garbage collector's queue;
    a failed [assert] and undefined behaviour (dereferencing a dangling or
    null pointer, indexing out of range) are errors, and so is a walk along
    sibling links that does not end.

    The second part of the development covers more of the sources: the
    remaining methods of [Node] and [NodeTree] in [node.cc], the collector's
    [GarbageCollect], [ReverseBitsInBytes] bit by bit, and the hash functions
    of utils/hashcat.h. *)

From Stdlib Require Import ZArith QArith Qcanon Lia Sorted.
From stdpp Require Import base numbers option list gmap.

Close Scope Q_scope.
Close Scope Qc_scope.

Open Scope Z_scope.

(** ** Numbers *)

(** The C++ [float].  Arithmetic is exact: a finite value is a rational,
    rounding and overflow are left out.  The one event of IEEE arithmetic
    that is kept is a quotient by zero, whose result (an infinity or NaN) is
    [NonFinite]; every operation on [NonFinite] is [NonFinite] again. *)
Inductive Float : Type :=
  | Finite (x : Qc)
  | NonFinite.

#[global] Instance Float_eq_dec : EqDecision Float.
Proof. solve_decision. Defined.

Definition fadd (a b : Float) : Float :=
  match a, b with
  | Finite x, Finite y => Finite (x + y)%Qc
  | _, _ => NonFinite
  end.

Definition fsub (a b : Float) : Float :=
  match a, b with
  | Finite x, Finite y => Finite (x - y)%Qc
  | _, _ => NonFinite
  end.

Definition fdiv (a b : Float) : Float :=
  match a, b with
  | Finite x, Finite y =>
      if decide (y = 0%Qc) then NonFinite else Finite (x / y)%Qc
  | _, _ => NonFinite
  end.

(** Conversion of an integer to [float] ([static_cast<float>] and the
    implicit conversion of an integer operand). *)
Definition of_Z (z : Z) : Float := Finite (Qc_of_Z z).

Definition fzero : Float := of_Z 0.
Definition fone : Float := of_Z 1.

(** [uint16_t] arithmetic: the value is kept in [0, 2^16). *)
Definition wrap16 (z : Z) : Z := z mod 65536.

(** [uint64_t] arithmetic, for the bit twiddling of the training record. *)
Definition wrap64 (z : Z) : Z := z mod 2 ^ 64.

(** ** Moves and edges *)

(** Modelled from the spec: [Move] (chess/bitboard.h) is not among the
    sources; the spec calls it an opaque integer identity with the two
    operations [Mirror] and [as_nn_index], which the sections below take as
    variables. *)
Record Move : Type := mkMove { move_data : Z }.

#[global] Instance Move_eq_dec : EqDecision Move.
Proof. solve_decision. Defined.

Definition MoveList : Type := list Move.

(** [Edge]: a move and its prior.  A default-constructed edge has [p_ = 0]. *)
Record Edge : Type := mkEdge { move_ : Move; p_ : Float }.

#[global] Instance Edge_eq_dec : EqDecision Edge.
Proof. solve_decision. Defined.

Definition GetP (e : Edge) : Float := p_ e.

(** Modelled from the spec: the class [EdgeList] is declared in mcts/node.h,
    which is not among the sources.  It is the dense array of its edges, and
    the test [!edges_] of the assertions is, in the spec's words,
    [edges.empty()]. *)
Definition EdgeList : Type := list Edge.

(** [EdgeList::EdgeList(MoveList moves)]: one edge per move, in order. *)
Definition EdgeList_of (moves : MoveList) : EdgeList :=
  (λ m, mkEdge m fzero) <$> moves.

(** Modelled from the spec: the collaborators of the tree that are not among
    the sources (chess/bitboard.h, chess/position.h, neural/encoder.h,
    neural/writer.h).  [Position_play p m] is the position that
    [PositionHistory::Append] adds after [p]; [kNumProbabilities] and
    [kNumPlanes] are the lengths of the arrays [probabilities] and [planes]
    of [V3TrainingData]. *)
Inductive Castling : Type := WE_CAN_OOO | WE_CAN_OO | THEY_CAN_OOO | THEY_CAN_OO.

Class External : Type := {
  Mirror : Move → Move;
  as_nn_index : Move → Z;
  Position : Type;
  IsBlackToMove : Position → bool;
  CanCastle : Position → Castling → bool;
  GetNoCapturePly : Position → Z;
  Position_play : Position → Move → Position;
  EncodePositionForNN : list Position → Z → list Z;
  kNumProbabilities : nat;
  kNumPlanes : nat
}.

(** [Edge::GetMove(bool as_opponent)]. *)
Definition Edge_GetMove `{External} (e : Edge) (as_opponent : bool) : Move :=
  if negb as_opponent then move_ e else Mirror (move_ e).

(** ** Nodes *)

(** Addresses of nodes. *)
Abbreviation addr := positive (only parsing).

(** Modelled from the spec: the fields of [Node] are declared in mcts/node.h,
    which is not among the sources.  The counters [n_], [n_in_flight_] and
    [index_] are the spec's integers; [max_depth_] and [full_depth_] have the
    type of the [uint16_t] that [UpdateFullDepth] assigns to them. *)
Record Node : Type := mkNode {
  parent_ : option addr;
  index_ : Z;
  edges_ : EdgeList;
  child_ : option addr;
  sibling_ : option addr;
  q_ : Float;
  visited_policy_ : Float;
  n_ : Z;
  n_in_flight_ : Z;
  max_depth_ : Z;
  full_depth_ : Z;
  is_terminal_ : bool
}.

#[global] Instance Node_eq_dec : EqDecision Node.
Proof. solve_decision. Defined.

(** [Node(Node* parent, uint16_t index)]; initial state as in the spec. *)
Definition Node_new (parent : option addr) (index : Z) : Node :=
  {| parent_ := parent; index_ := index; edges_ := []; child_ := None;
     sibling_ := None; q_ := fzero; visited_policy_ := fzero; n_ := 0;
     n_in_flight_ := 0; max_depth_ := 0; full_depth_ := 0;
     is_terminal_ := false |}.

Definition set_edges (x : EdgeList) (nd : Node) : Node :=
  mkNode (parent_ nd) (index_ nd) x (child_ nd) (sibling_ nd) (q_ nd)
    (visited_policy_ nd) (n_ nd) (n_in_flight_ nd) (max_depth_ nd)
    (full_depth_ nd) (is_terminal_ nd).
Definition set_child (x : option addr) (nd : Node) : Node :=
  mkNode (parent_ nd) (index_ nd) (edges_ nd) x (sibling_ nd) (q_ nd)
    (visited_policy_ nd) (n_ nd) (n_in_flight_ nd) (max_depth_ nd)
    (full_depth_ nd) (is_terminal_ nd).
Definition set_sibling (x : option addr) (nd : Node) : Node :=
  mkNode (parent_ nd) (index_ nd) (edges_ nd) (child_ nd) x (q_ nd)
    (visited_policy_ nd) (n_ nd) (n_in_flight_ nd) (max_depth_ nd)
    (full_depth_ nd) (is_terminal_ nd).
Definition set_q (x : Float) (nd : Node) : Node :=
  mkNode (parent_ nd) (index_ nd) (edges_ nd) (child_ nd) (sibling_ nd) x
    (visited_policy_ nd) (n_ nd) (n_in_flight_ nd) (max_depth_ nd)
    (full_depth_ nd) (is_terminal_ nd).
Definition set_visited_policy (x : Float) (nd : Node) : Node :=
  mkNode (parent_ nd) (index_ nd) (edges_ nd) (child_ nd) (sibling_ nd)
    (q_ nd) x (n_ nd) (n_in_flight_ nd) (max_depth_ nd) (full_depth_ nd)
    (is_terminal_ nd).
Definition set_n (x : Z) (nd : Node) : Node :=
  mkNode (parent_ nd) (index_ nd) (edges_ nd) (child_ nd) (sibling_ nd)
    (q_ nd) (visited_policy_ nd) x (n_in_flight_ nd) (max_depth_ nd)
    (full_depth_ nd) (is_terminal_ nd).
Definition set_n_in_flight (x : Z) (nd : Node) : Node :=
  mkNode (parent_ nd) (index_ nd) (edges_ nd) (child_ nd) (sibling_ nd)
    (q_ nd) (visited_policy_ nd) (n_ nd) x (max_depth_ nd) (full_depth_ nd)
    (is_terminal_ nd).
Definition set_max_depth (x : Z) (nd : Node) : Node :=
  mkNode (parent_ nd) (index_ nd) (edges_ nd) (child_ nd) (sibling_ nd)
    (q_ nd) (visited_policy_ nd) (n_ nd) (n_in_flight_ nd) x (full_depth_ nd)
    (is_terminal_ nd).
Definition set_full_depth (x : Z) (nd : Node) : Node :=
  mkNode (parent_ nd) (index_ nd) (edges_ nd) (child_ nd) (sibling_ nd)
    (q_ nd) (visited_policy_ nd) (n_ nd) (n_in_flight_ nd) (max_depth_ nd) x
    (is_terminal_ nd).
Definition set_is_terminal (x : bool) (nd : Node) : Node :=
  mkNode (parent_ nd) (index_ nd) (edges_ nd) (child_ nd) (sibling_ nd)
    (q_ nd) (visited_policy_ nd) (n_ nd) (n_in_flight_ nd) (max_depth_ nd)
    (full_depth_ nd) x.

(** ** The store and the monad of methods *)

(** The nodes allocated so far, and the queue [subtrees_to_gc_] of the
    garbage collector [gNodeGc] (each entry owns the subtree below it). *)
Record State : Type := mkState {
  heap : gmap addr Node;
  subtrees_to_gc_ : list addr
}.

Inductive Error : Type :=
  | AssertionFailed
  | Undefined
  | OutOfFuel.

Inductive Result (A : Type) : Type :=
  | Ok (a : A)
  | Err (e : Error).
Arguments Ok {A} a.
Arguments Err {A} e.

Definition M (A : Type) : Type := State → Result (A * State).

#[global] Instance M_ret : MRet M := λ A a s, Ok (a, s).
#[global] Instance M_bind : MBind M := λ A B f m s,
  match m s with
  | Ok (a, s') => f a s'
  | Err e => Err e
  end.

Definition fail {A} (e : Error) : M A := λ _, Err e.

(** [assert(b)]. *)
Definition assert (b : bool) : M unit :=
  if b then mret () else fail AssertionFailed.

(** [*p] for a [Node* p]. *)
Definition deref (p : addr) : M Node := λ s,
  match heap s !! p with
  | Some nd => Ok (nd, s)
  | None => Err Undefined
  end.

(** Writing fields of [*p]: the node at [p] is replaced by [f] of it. *)
Definition modify (p : addr) (f : Node → Node) : M unit := λ s,
  match heap s !! p with
  | Some nd => Ok ((), mkState (<[p := f nd]> (heap s)) (subtrees_to_gc_ s))
  | None => Err Undefined
  end.

(** [std::make_unique<Node>(parent, index)]: a node at a fresh address. *)
Definition make_unique (parent : option addr) (index : Z) : M addr := λ s,
  let a := fresh (dom (heap s)) in
  Ok (a, mkState (<[a := Node_new parent index]> (heap s)) (subtrees_to_gc_ s)).

(** [NodeGarbageCollector::AddToGcQueue]: a null pointer is dropped, any
    other is put at the back of the queue. *)
Definition AddToGcQueue (node : option addr) : M unit := λ s,
  match node with
  | None => Ok ((), s)
  | Some a => Ok ((), mkState (heap s) (subtrees_to_gc_ s ++ [a]))
  end.

(** ** Node methods *)

(** A pointer that is dereferenced must not be null. *)
Definition nonnull (p : option addr) : M addr :=
  match p with
  | Some a => mret a
  | None => fail Undefined
  end.

(** [edges[i]]. *)
Definition edge_at (edges : EdgeList) (i : Z) : M Edge :=
  if bool_decide (0 ≤ i) then
    match edges !! Z.to_nat i with
    | Some e => mret e
    | None => fail Undefined
    end
  else fail Undefined.

(** A [std::unique_ptr<Node>*]: the place of an owning pointer, which is
    the [child_] or the [sibling_] field of some node. *)
Inductive uptr_loc : Type :=
  | child_of (a : addr)
  | sibling_of (a : addr).

Definition load (l : uptr_loc) : M (option addr) :=
  match l with
  | child_of a => nd ← deref a; mret (child_ nd)
  | sibling_of a => nd ← deref a; mret (sibling_ nd)
  end.

(** Assignment to an owning pointer.  Every assignment of the code below
    overwrites a pointer that is null, so no node is destroyed by it. *)
Definition store (l : uptr_loc) (p : option addr) : M unit :=
  match l with
  | child_of a => modify a (set_child p)
  | sibling_of a => modify a (set_sibling p)
  end.

(** [std::move] out of the pointer at [l]: yields it and leaves null behind. *)
Definition move_from (l : uptr_loc) : M (option addr) :=
  p ← load l;
  store l None;;
  mret p.

(** Loops along sibling links are given as many steps as there are nodes
    in the store, and one more. *)
Definition with_fuel {A} (f : nat → M A) : M A :=
  λ s, f (S (size (heap s))) s.

Fixpoint foldlM {A B} (f : A → B → M A) (a : A) (l : list B) : M A :=
  match l with
  | [] => mret a
  | b :: l => a' ← f a b; foldlM f a' l
  end.

(** [Node::CreateEdges]. *)
Definition CreateEdges (this : addr) (moves : MoveList) : M unit :=
  nd ← deref this;
  assert (bool_decide (edges_ nd = []));;
  assert (bool_decide (child_ nd = None));;
  modify this (set_edges (EdgeList_of moves)).

(** [Node::CreateSingleChildNode]. *)
Definition CreateSingleChildNode (this : addr) (move : Move) : M addr :=
  nd ← deref this;
  assert (bool_decide (edges_ nd = []));;
  assert (bool_decide (child_ nd = None));;
  modify this (set_edges (EdgeList_of [move]));;
  c ← make_unique (Some this) 0;
  modify this (set_child (Some c));;
  mret c.

(** Modelled from the spec: the enumeration [GameResult] is declared in
    chess/position.h, which is not among the sources; these are the results
    that [node.cc] names, the spec's win, draw and loss. *)
Inductive GameResult : Type := WHITE_WON | DRAW | BLACK_WON.

#[global] Instance GameResult_eq_dec : EqDecision GameResult.
Proof. solve_decision. Defined.

(** [Node::MakeTerminal]. *)
Definition MakeTerminal (this : addr) (result : GameResult) : M unit :=
  modify this (set_is_terminal true);;
  modify this (set_q (if decide (result = DRAW) then fzero else fone)).

(** [Node::TryStartScoreUpdate]. *)
Definition TryStartScoreUpdate (this : addr) : M bool :=
  nd ← deref this;
  if bool_decide (n_ nd = 0) && bool_decide (0 < n_in_flight_ nd)
  then mret false
  else modify this (λ nd, set_n_in_flight (n_in_flight_ nd + 1) nd);;
       mret true.

(** [Node::CancelScoreUpdate]. *)
Definition CancelScoreUpdate (this : addr) : M unit :=
  modify this (λ nd, set_n_in_flight (n_in_flight_ nd - 1) nd).

(** [Node::FinalizeScoreUpdate]. *)
Definition FinalizeScoreUpdate (this : addr) (v : Float) : M unit :=
  (* Recompute Q. *)
  modify this (λ nd,
    set_q (fadd (q_ nd) (fdiv (fsub v (q_ nd)) (of_Z (n_ nd + 1)))) nd);;
  (* If first visit, update parent's sum of policies visited at least once. *)
  nd ← deref this;
  (if bool_decide (n_ nd = 0) && bool_decide (parent_ nd ≠ None) then
     pa ← nonnull (parent_ nd);
     p ← deref pa;
     e ← edge_at (edges_ p) (index_ nd);
     modify pa (λ p, set_visited_policy (fadd (visited_policy_ p) (GetP e)) p)
   else mret ());;
  (* Increment N. *)
  modify this (λ nd, set_n (n_ nd + 1) nd);;
  (* Decrement virtual loss. *)
  modify this (λ nd, set_n_in_flight (n_in_flight_ nd - 1) nd).

(** [Node::UpdateMaxDepth]. *)
Definition UpdateMaxDepth (this : addr) (depth : Z) : M unit :=
  nd ← deref this;
  if bool_decide (depth > max_depth_ nd) then modify this (set_max_depth depth)
  else mret ().

(** The nodes reached from [p] along [sibling_] links, in order. *)
Fixpoint chain_from (fuel : nat) (h : gmap addr Node) (p : option addr)
    : Result (list addr) :=
  match p with
  | None => Ok []
  | Some a =>
      match fuel with
      | O => Err OutOfFuel
      | S fuel =>
          match h !! a with
          | None => Err Undefined
          | Some nd =>
              match chain_from fuel h (sibling_ nd) with
              | Ok l => Ok (a :: l)
              | Err e => Err e
              end
          end
      end
  end.

(** [Node::ChildNodes]: the range over the materialized children. *)
Definition ChildNodes (this : addr) : M (list addr) :=
  nd ← deref this;
  with_fuel (λ fuel s,
    match chain_from fuel (heap s) (child_ nd) with
    | Ok l => Ok (l, s)
    | Err e => Err e
    end).

(** [Node::UpdateFullDepth(uint16_t* depth)]: the value left in [*depth] is
    returned with the result. *)
Definition UpdateFullDepth (this : addr) (depth : Z) : M (bool * Z) :=
  nd ← deref this;
  if bool_decide (full_depth_ nd > depth) then mret (false, depth)
  else
    children ← ChildNodes this;
    depth ← foldlM (λ depth child,
               c ← deref child;
               mret (if bool_decide (depth > full_depth_ c)
                     then full_depth_ c else depth))
             depth children;
    nd ← deref this;
    if bool_decide (depth >= full_depth_ nd) then
      let depth := wrap16 (depth + 1) in
      modify this (set_full_depth depth);;
      mret (true, depth)
    else mret (false, depth).

(** [Node::ReleaseChildren]. *)
Definition ReleaseChildren (this : addr) : M unit :=
  c ← move_from (child_of this);
  AddToGcQueue c.

(** The loop of [Node::ReleaseChildrenExceptOne]; its result is
    [saved_node]. *)
Fixpoint release_loop (fuel : nat) (node : uptr_loc)
    (node_to_save : option addr) : M (option addr) :=
  p ← load node;
  match p with
  | None => mret None
  | Some a =>
      (* If current node is the one that we have to save. *)
      if bool_decide (p = node_to_save) then
        (* Kill all remaining siblings. *)
        s ← move_from (sibling_of a);
        AddToGcQueue s;;
        (* Save the node, and take the ownership from the unique_ptr. *)
        move_from node
      else
        match fuel with
        | O => fail OutOfFuel
        | S fuel => release_loop fuel (sibling_of a) node_to_save
        end
  end.

(** [Node::ReleaseChildrenExceptOne]. *)
Definition ReleaseChildrenExceptOne (this : addr)
    (node_to_save : option addr) : M unit :=
  saved_node ← with_fuel (λ fuel,
                  release_loop fuel (child_of this) node_to_save);
  (* Make saved node the only child. (kills previous siblings). *)
  c ← move_from (child_of this);
  AddToGcQueue c;;
  store (child_of this) saved_node.

(** [ReverseBitsInBytes]. *)
Definition ReverseBitsInBytes (v : Z) : Z :=
  let v := Z.lor (Z.land (Z.shiftr v 1) 0x5555555555555555)
                 (wrap64 (Z.shiftl (Z.land v 0x5555555555555555) 1)) in
  let v := Z.lor (Z.land (Z.shiftr v 2) 0x3333333333333333)
                 (wrap64 (Z.shiftl (Z.land v 0x3333333333333333) 2)) in
  let v := Z.lor (Z.land (Z.shiftr v 4) 0x0F0F0F0F0F0F0F0F)
                 (wrap64 (Z.shiftl (Z.land v 0x0F0F0F0F0F0F0F0F) 4)) in
  v.

(** ** The joint view of edges and children *)

(** Modelled from the spec: the iterators behind [Edges()] and
    [GetOrSpawnNode] are declared in mcts/node.h, which is not among the
    sources.  The view pairs the edge at position [idx] with the child whose
    [index_] is [idx], if any.  It advances a pointer along the child chain,
    which is kept in ascending order of [index_]: [find_slot] stops at the
    first owning pointer whose node does not have a smaller index. *)
Fixpoint find_slot (fuel : nat) (node_ptr : uptr_loc) (idx : Z) : M uptr_loc :=
  p ← load node_ptr;
  match p with
  | None => mret node_ptr
  | Some a =>
      nd ← deref a;
      if bool_decide (index_ nd < idx) then
        match fuel with
        | O => fail OutOfFuel
        | S fuel => find_slot fuel (sibling_of a) idx
        end
      else mret node_ptr
  end.

Definition node_at_slot (slot : uptr_loc) (idx : Z) : M (option addr) :=
  p ← load slot;
  match p with
  | None => mret None
  | Some a =>
      nd ← deref a;
      mret (if bool_decide (index_ nd = idx) then Some a else None)
  end.

(** The node of the [EdgeAndNode] that [Edges()] yields at position [idx]. *)
Definition node_on_edge (parent : addr) (idx : Z) : M (option addr) :=
  slot ← with_fuel (λ fuel, find_slot fuel (child_of parent) idx);
  node_at_slot slot idx.

(** Modelled from the spec: [GetOrSpawnNode(parent)] at edge [idx] returns
    the node of that edge if there is one; otherwise a new [Node(parent, idx)]
    is spliced into the child chain at its place. *)
Definition GetOrSpawnNode (parent : addr) (idx : Z) : M addr :=
  slot ← with_fuel (λ fuel, find_slot fuel (child_of parent) idx);
  node ← node_at_slot slot idx;
  match node with
  | Some a => mret a
  | None =>
      tmp ← move_from slot;
      c ← make_unique (Some parent) idx;
      store slot (Some c);;
      store (sibling_of c) tmp;;
      mret c
  end.

(** [EdgeAndNode::GetN]: the visits of the node, 0 without a node. *)
Definition EdgeAndNode_GetN (node : option addr) : M Z :=
  match node with
  | Some a => nd ← deref a; mret (n_ nd)
  | None => mret 0
  end.

(** ** Training data *)

Record V3TrainingData : Type := mkV3TrainingData {
  version : Z;
  probabilities : list Float;
  planes : list Z;
  castling_us_ooo : Z;
  castling_us_oo : Z;
  castling_them_ooo : Z;
  castling_them_oo : Z;
  side_to_move : Z;
  move_count : Z;
  rule50_count : Z;
  result : Z
}.

(** [a[idx] = x] on a C array. *)
Definition array_write {A} (a : list A) (idx : Z) (x : A) : M (list A) :=
  if bool_decide (0 ≤ idx < Z.of_nat (length a))
  then mret (<[Z.to_nat idx := x]> a)
  else fail Undefined.

(** [PositionHistory::Last]. *)
Definition Last {A} (history : list A) : M A :=
  match last history with
  | Some p => mret p
  | None => fail Undefined
  end.

Section training.
Context `{External}.

(** The loop [for (const auto& child : Edges())] of [GetV3TrainingData],
    from the edge at position [i] on. *)
Fixpoint fill_probabilities (this : addr) (total_n : Float)
    (edges : list Edge) (i : Z) (probs : list Float) : M (list Float) :=
  match edges with
  | [] => mret probs
  | e :: edges =>
      node ← node_on_edge this i;
      n ← EdgeAndNode_GetN node;
      probs ← array_write probs (as_nn_index (Edge_GetMove e false))
                (fdiv (of_Z n) total_n);
      fill_probabilities this total_n edges (i + 1) probs
  end.

Definition bool_to_Z (b : bool) : Z := if b then 1 else 0.

(** [Node::GetV3TrainingData]. *)
Definition GetV3TrainingData (this : addr) (game_result : GameResult)
    (history : list Position) : M V3TrainingData :=
  nd ← deref this;
  (* Populate probabilities. *)
  let total_n := of_Z (n_ nd - 1) in
  probs ← fill_probabilities this total_n (edges_ nd) 0
            (replicate kNumProbabilities fzero);
  (* Populate planes. *)
  let input := EncodePositionForNN history 8 in
  pls ← mapM (λ plane_idx,
           match input !! plane_idx with
           | Some mask => mret (ReverseBitsInBytes mask)
           | None => fail Undefined
           end) (seq 0 kNumPlanes);
  position ← Last history;
  mret {|
    version := 3;
    probabilities := probs;
    planes := pls;
    castling_us_ooo := bool_to_Z (CanCastle position WE_CAN_OOO);
    castling_us_oo := bool_to_Z (CanCastle position WE_CAN_OO);
    castling_them_ooo := bool_to_Z (CanCastle position THEY_CAN_OOO);
    castling_them_oo := bool_to_Z (CanCastle position THEY_CAN_OO);
    side_to_move := bool_to_Z (IsBlackToMove position);
    move_count := 0;
    rule50_count := GetNoCapturePly position;
    result :=
      if decide (game_result = WHITE_WON) then
        if IsBlackToMove position then -1 else 1
      else if decide (game_result = BLACK_WON) then
        if IsBlackToMove position then 1 else -1
      else 0
  |}.

(** ** NodeTree *)

Record NodeTree : Type := mkNodeTree {
  gamebegin_node_ : option addr;
  current_head_ : option addr;
  history_ : list Position
}.

(** [PositionHistory::Append]. *)
Definition Append (history : list Position) (m : Move) : M (list Position) :=
  p ← Last history;
  mret (history ++ [Position_play p m]).

(** The loop [for (auto& n : current_head_->Edges())] of [MakeMove], from
    the edge at position [i] on; its result is [new_head]. *)
Fixpoint find_new_head (head : addr) (edges : list Edge) (i : Z)
    (move : Move) : M (option addr) :=
  match edges with
  | [] => mret None
  | e :: edges =>
      if bool_decide (Edge_GetMove e false = move) then
        c ← GetOrSpawnNode head i;
        mret (Some c)
      else find_new_head head edges (i + 1) move
  end.

(** [NodeTree::MakeMove]. *)
Definition MakeMove (t : NodeTree) (move : Move) : M NodeTree :=
  position ← Last (history_ t);
  let move := if IsBlackToMove position then Mirror move else move in
  head ← nonnull (current_head_ t);
  hd ← deref head;
  new_head ← find_new_head head (edges_ hd) 0 move;
  ReleaseChildrenExceptOne head new_head;;
  new_head ← match new_head with
             | Some c => mret c
             | None => CreateSingleChildNode head move
             end;
  history ← Append (history_ t) move;
  mret (mkNodeTree (gamebegin_node_ t) (Some new_head) history).
End training.

(** ** Well-formed child chains *)

(** [chain h p l]: following [sibling_] links from the owning pointer [p]
    visits exactly the nodes [l] and then reaches null. *)
Inductive chain (h : gmap addr Node) : option addr → list addr → Prop :=
  | chain_nil : chain h None []
  | chain_cons a nd l :
      h !! a = Some nd → chain h (sibling_ nd) l → chain h (Some a) (a :: l).

(** A node is handed to the garbage collector when it lies on the sibling
    chain of an entry of the collector's queue. *)
Definition in_gc (s : State) (c : addr) : Prop :=
  ∃ r l, r ∈ subtrees_to_gc_ s ∧ chain (heap s) (Some r) l ∧ c ∈ l.

(** The fields of a node that the score-update protocol does not touch. *)
Definition same_structure (nd nd' : Node) : Prop :=
  parent_ nd' = parent_ nd ∧ index_ nd' = index_ nd ∧
  edges_ nd' = edges_ nd ∧ child_ nd' = child_ nd ∧
  sibling_ nd' = sibling_ nd ∧ max_depth_ nd' = max_depth_ nd ∧
  full_depth_ nd' = full_depth_ nd ∧ is_terminal_ nd' = is_terminal_ nd.

(** ** Vocabulary of the statements *)

(** The node that [FinalizeScoreUpdate(v)] leaves in place of [nd]. *)
Definition finalized (v : Float) (nd : Node) : Node :=
  set_n_in_flight (n_in_flight_ nd - 1)
    (set_n (n_ nd + 1)
       (set_q (fadd (q_ nd) (fdiv (fsub v (q_ nd)) (of_Z (n_ nd + 1)))) nd)).

(** The backups [FinalizeScoreUpdate(v1)], ..., [FinalizeScoreUpdate(vk)]
    on one node, one after the other. *)
Definition backups (this : addr) (vs : list Qc) : M unit :=
  foldlM (λ _ v, FinalizeScoreUpdate this (Finite v)) () vs.

Definition Qc_sum (vs : list Qc) : Qc := foldr Qcplus 0%Qc vs.

(** The signed result of a game for the side to move, in the encoding of
    [GetV3TrainingData]: +1 won, -1 lost, 0 drawn. *)
Definition score_for_side_to_move (black_to_move : bool) (r : GameResult) : Z :=
  match r with
  | WHITE_WON => if black_to_move then -1 else 1
  | BLACK_WON => if black_to_move then 1 else -1
  | DRAW => 0
  end.

(** The [full_depth_] of the nodes [l], in order. *)
Definition full_depths (h : gmap addr Node) (l : list addr) : list Z :=
  omap (λ c, full_depth_ <$> h !! c) l.

(** The owning pointer that the loop of [ReleaseChildrenExceptOne] (and the
    walk of the edge view) has reached after stepping over the nodes [l],
    starting at [node]. *)
Fixpoint slot_before (node : uptr_loc) (l : list addr) : uptr_loc :=
  match l with
  | [] => node
  | a :: l => slot_before (sibling_of a) l
  end.

(** All fields of a node but its two owning pointers. *)
Definition same_payload (nd nd' : Node) : Prop :=
  parent_ nd' = parent_ nd ∧ index_ nd' = index_ nd ∧
  edges_ nd' = edges_ nd ∧ q_ nd' = q_ nd ∧
  visited_policy_ nd' = visited_policy_ nd ∧ n_ nd' = n_ nd ∧
  n_in_flight_ nd' = n_in_flight_ nd ∧ max_depth_ nd' = max_depth_ nd ∧
  full_depth_ nd' = full_depth_ nd ∧ is_terminal_ nd' = is_terminal_ nd.

(** The store after [ReleaseChildrenExceptOne] has saved the child [k] of
    [this] that follows the children [l1] in the chain: [k] and the last node
    of [l1] have lost their sibling link, and [k] is the child of [this]. *)
Definition released_heap (h : gmap addr Node) (this : addr) (nd : Node)
    (l1 : list addr) (k : addr) (ndk : Node) : gmap addr Node :=
  <[this := set_child (Some k) nd]>
    (alter (set_sibling None) (default k (last l1))
       (<[k := set_sibling None ndk]> h)).

(** The [index_] of the node at [c]. *)
Definition index_of (h : gmap addr Node) (c : addr) : option Z :=
  index_ <$> h !! c.

(** The spec's invariant on child chains: strictly ascending [index_]. *)
Definition index_lt (h : gmap addr Node) (a b : addr) : Prop :=
  ∃ x y, index_of h a = Some x ∧ index_of h b = Some y ∧ x < y.

Definition ascending (h : gmap addr Node) (l : list addr) : Prop :=
  StronglySorted (index_lt h) l.

(** The child among [l] that sits on the edge at position [i], if any. *)
Fixpoint child_at (h : gmap addr Node) (l : list addr) (i : Z) : option addr :=
  match l with
  | [] => None
  | c :: l => if decide (index_of h c = Some i) then Some c else child_at h l i
  end.

(** The visits that [Edges()] reports for the edge at position [i]. *)
Definition edge_visits (h : gmap addr Node) (l : list addr) (i : Z) : Z :=
  match child_at h l i with
  | Some c => default 0 (n_ <$> h !! c)
  | None => 0
  end.

(** The assignments [probabilities[index] = value] that the loop of
    [GetV3TrainingData] makes for the edges from position [i] on. *)
Fixpoint prob_writes `{External} (h : gmap addr Node) (l : list addr)
    (total_n : Float) (edges : list Edge) (i : Z) : list (Z * Float) :=
  match edges with
  | [] => []
  | e :: edges =>
      (as_nn_index (move_ e), fdiv (of_Z (edge_visits h l i)) total_n)
        :: prob_writes h l total_n edges (i + 1)
  end.

Definition apply_writes (probs : list Float) (ws : list (Z * Float)) : list Float :=
  foldl (λ pr w, <[Z.to_nat w.1 := w.2]> pr) probs ws.

(** The node that holds an owning pointer, and reading and writing the
    pointer in that node. *)
Definition loc_addr (l : uptr_loc) : addr :=
  match l with child_of a | sibling_of a => a end.

Definition loc_get (l : uptr_loc) (nd : Node) : option addr :=
  match l with child_of _ => child_ nd | sibling_of _ => sibling_ nd end.

Definition loc_set (l : uptr_loc) (p : option addr) (nd : Node) : Node :=
  match l with child_of _ => set_child p nd | sibling_of _ => set_sibling p nd end.

(** The store after [GetOrSpawnNode] has spliced the new node [c], for the
    edge at position [i], into the chain of [parent] behind the children
    [l1]; [rest] is the pointer to the children that follow. *)
Definition spawned_heap (h : gmap addr Node) (parent : addr) (l1 : list addr)
    (c : addr) (i : Z) (rest : option addr) : gmap addr Node :=
  <[c := set_sibling rest (Node_new (Some parent) i)]>
    (alter (loc_set (slot_before (child_of parent) l1) (Some c))
       (loc_addr (slot_before (child_of parent) l1)) h).

(** Children on edges before position [i], and on edges from [i] on. *)
Definition index_below (h : gmap addr Node) (i : Z) (c : addr) : Prop :=
  ∃ x, index_of h c = Some x ∧ x < i.

Definition index_from (h : gmap addr Node) (i : Z) (c : addr) : Prop :=
  ∃ x, index_of h c = Some x ∧ i ≤ x.

(** ** Example stores *)

(** A root that has just been created. *)
Definition ex_fresh : State := mkState {[ 1%positive := Node_new None 0 ]} [].

(** An expanded parent with two edges, and below it a node that is being
    visited for the first time. *)
Definition ex_parent : Node :=
  set_child (Some 2%positive)
    (set_edges [mkEdge (mkMove 10) (Finite (Qc_of_Z 1 / Qc_of_Z 4)%Qc);
                mkEdge (mkMove 20) (Finite (Qc_of_Z 3 / Qc_of_Z 4)%Qc)]
       (set_n 1 (Node_new None 0))).

Definition ex_visit : State :=
  mkState {[ 1%positive := ex_parent;
             2%positive := set_n_in_flight 1 (Node_new (Some 1%positive) 1) ]} [].

(** A node with one child, whose full depth is 5. *)
Definition ex_depth : State :=
  mkState {[ 1%positive := set_child (Some 2%positive) (Node_new None 0);
             2%positive := set_full_depth 5 (Node_new (Some 1%positive) 0) ]} [].

(** A node with the three children 2, 3 and 4, at the edges 0, 2 and 5. *)
Definition ex_family : State :=
  mkState
    {[ 1%positive :=
         set_child (Some 2%positive)
           (set_edges (EdgeList_of (mkMove <$> [100; 101; 102; 103; 104; 105]))
              (set_n 7 (Node_new None 0)));
       2%positive := set_n 1 (set_sibling (Some 3%positive) (Node_new (Some 1%positive) 0));
       3%positive := set_n 2 (set_sibling (Some 4%positive) (Node_new (Some 1%positive) 2));
       4%positive := set_n 3 (Node_new (Some 1%positive) 5) ]} [].

(** A stand-in for the collaborators, for the examples: a position is just
    the side to move, the policy index of a move is its number less 100. *)
Definition ex_external : External :=
  {| Mirror := λ m, mkMove (- move_data m);
     as_nn_index := λ m, move_data m - 100;
     Position := bool;
     IsBlackToMove := λ p, p;
     CanCastle := λ _ _, false;
     GetNoCapturePly := λ _, 0;
     Position_play := λ p _, negb p;
     EncodePositionForNN := λ _ _, [1; 2];
     kNumProbabilities := 8;
     kNumPlanes := 2 |}.

(** The head of [ex_family]. *)
Definition ex_head : Node :=
  set_child (Some 2%positive)
    (set_edges (EdgeList_of (mkMove <$> [100; 101; 102; 103; 104; 105]))
       (set_n 7 (Node_new None 0))).

(** A head after its expansion visit only: [n = 1], no child. *)
Definition ex_expanded : State :=
  mkState
    {[ 1%positive :=
         set_edges (EdgeList_of (mkMove <$> [100; 101])) (set_n 1 (Node_new None 0)) ]}
    [].

(** A tree over the stand-in collaborators, rooted at node 1. *)
Definition ex_tree (head : addr) (history : list bool) : @NodeTree ex_external :=
  @mkNodeTree ex_external (Some 1%positive) (Some head) history.

(** [ex_family] after [ReleaseChildren] on node 1: the chain of the children
    2, 3 and 4 waits in the collector's queue. *)
Definition ex_released : State :=
  mkState (<[1%positive := set_child None ex_head]> (heap ex_family))
    [2%positive].

(** ** Further functions of the sources *)

(** [Node::GetVisitedPolicy]. *)
Definition GetVisitedPolicy (this : addr) : M Float :=
  nd ← deref this;
  mret (visited_policy_ nd).

(** [Node::GetEdgeToNode]: the edge is returned with its position in the
    array, which stands for the pointer [&edges_[node->index_]]. *)
Definition GetEdgeToNode (this node : addr) : M (Z * Edge) :=
  nd ← deref this;
  c ← deref node;
  assert (bool_decide (parent_ c = Some this));;
  assert (bool_decide (index_ c < Z.of_nat (length (edges_ nd))));;
  e ← edge_at (edges_ nd) (index_ c);
  mret (index_ c, e).

(** utils/hashcat.h: [Hash], on [uint64_t]. *)
Definition Hash (val : Z) : Z :=
  wrap64
    (wrap64 (0xfad0d7f2fbb059f1 * wrap64 (val + 0xbaad41cdcb839961)) +
     wrap64 (0x7acec0050bf82f43 *
             wrap64 (Z.shiftr val 31 + 0xd571b3a92b1b2755))).

(** [HashCat(uint64_t hash, uint64_t x)]. *)
Definition HashCat (hash x : Z) : Z :=
  Z.lxor hash
    (wrap64
       (wrap64 (wrap64 (0x299799adf0d95def + Hash x) + wrap64 (Z.shiftl hash 6))
        + Z.shiftr hash 2)).

(** [HashCat(std::initializer_list<uint64_t> args)]. *)
Definition HashCat_list (args : list Z) : Z :=
  foldl HashCat 0 args.

Section node_tree_more.
Context `{External}.

(** [NodeTree::TrimTreeAtHead]. *)
Definition TrimTreeAtHead (t : NodeTree) : M unit :=
  head ← nonnull (current_head_ t);
  tmp ← move_from (sibling_of head);
  (* Send dependent nodes for GC instead of destroying them immediately. *)
  c ← move_from (child_of head);
  AddToGcQueue c;;
  hd ← deref head;
  modify head (λ _, Node_new (parent_ hd) (index_ hd));;
  store (sibling_of head) tmp.

(** [NodeTree::DeallocateTree]. *)
Definition DeallocateTree (t : NodeTree) : M NodeTree :=
  AddToGcQueue (gamebegin_node_ t);;
  mret (mkNodeTree None None (history_ t)).
End node_tree_more.


(** One round of [ReverseBitsInBytes]: the bits selected by [mask] come from
    [k] places up, the others from [k] places down. *)
Definition swap_round (k mask v : Z) : Z :=
  Z.lor (Z.land (Z.shiftr v k) mask) (wrap64 (Z.shiftl (Z.land v mask) k)).

(** What a round needs of its mask at bit [i]: the mask selects [i] exactly
    when bit [k] of [i] is clear, and then it does not select [i - k]. *)
Definition round_ok (k mask i : Z) : bool :=
  if Z.testbit mask i
  then bool_decide (Z.lxor i k = i + k) &&
       (bool_decide (i - k < 0) || negb (Z.testbit mask (i - k)))
  else bool_decide (Z.lxor i k = i - k) && bool_decide (0 ≤ i - k) &&
       Z.testbit mask (i - k).


(** The sum of an array of numbers, and the visits of the children [l]
    added up. *)
Definition fsum (l : list Float) : Float := foldr fadd fzero l.

Definition visits (h : gmap addr Node) (l : list addr) : Z :=
  foldr (λ c acc, default 0 (n_ <$> h !! c) + acc) 0 l.

(** ** The garbage collector *)

(** Giving the storage of a node back; for an address that holds no node
    this is undefined. *)
Definition free (a : addr) : M unit := λ s,
  match heap s !! a with
  | Some _ => Ok ((), mkState (delete a (heap s)) (subtrees_to_gc_ s))
  | None => Err Undefined
  end.

(** What happens when a [std::unique_ptr<Node>] that holds [p] goes out of
    scope: the node is destroyed, and with it the subtrees that its owning
    pointers [sibling_] and [child_] hold. *)
Fixpoint destroy (fuel : nat) (p : option addr) : M unit :=
  match p with
  | None => mret ()
  | Some a =>
      match fuel with
      | O => fail OutOfFuel
      | S fuel =>
          nd ← deref a;
          destroy fuel (sibling_ nd);;
          destroy fuel (child_ nd);;
          free a
      end
  end.

(** The loop of [NodeGarbageCollector::GarbageCollect], for a call during
    which [stop_] is not set and no other thread adds to the queue: the last
    subtree of the queue is moved into [node_to_gc], which goes out of scope
    at the end of the round. *)
Fixpoint GarbageCollect_loop (fuel : nat) : M unit := λ s,
  match last (subtrees_to_gc_ s) with
  | None => Ok ((), s)
  | Some node_to_gc =>
      match fuel with
      | O => Err OutOfFuel
      | S fuel =>
          (with_fuel (λ f, destroy f (Some node_to_gc));;
           GarbageCollect_loop fuel)
            (mkState (heap s) (removelast (subtrees_to_gc_ s)))
      end
  end.

Definition GarbageCollect : M unit := λ s,
  GarbageCollect_loop (length (subtrees_to_gc_ s)) s.

(** The nodes that the owning pointer [p] holds, directly or through the
    owning pointers of those nodes: a tree, each node met once. *)
Inductive owns (h : gmap addr Node) : option addr → list addr → Prop :=
  | owns_null : owns h None []
  | owns_node a nd ls lc :
      h !! a = Some nd →
      owns h (sibling_ nd) ls →
      owns h (child_ nd) lc →
      NoDup (a :: ls ++ lc) →
      owns h (Some a) (a :: ls ++ lc).


(** * Properties *)

(** ** Running the monad *)

Lemma bind_Ok {A B} (m : M A) (f : A → M B) s a s' :
  m s = Ok (a, s') → (m ≫= f) s = f a s'.
Proof. unfold mbind, M_bind. by intros ->. Qed.

Lemma bind_Err {A B} (m : M A) (f : A → M B) s e :
  m s = Err e → (m ≫= f) s = Err e.
Proof. unfold mbind, M_bind. by intros ->. Qed.

Lemma bind_assoc {A B C} (m : M A) (f : A → M B) (g : B → M C) s :
  ((m ≫= f) ≫= g) s = (m ≫= λ a, f a ≫= g) s.
Proof. unfold mbind, M_bind. by destruct (m s) as [[a s']|e]. Qed.

Lemma bind_congr {A B} (m m' : M A) (f : A → M B) s :
  m s = m' s → (m ≫= f) s = (m' ≫= f) s.
Proof. unfold mbind, M_bind. by intros ->. Qed.

Lemma bind_with_fuel {A B} (m : nat → M A) (f : A → M B) s :
  (with_fuel m ≫= f) s = (m (S (size (heap s))) ≫= f) s.
Proof. done. Qed.

Lemma deref_Ok s p nd : heap s !! p = Some nd → deref p s = Ok (nd, s).
Proof. unfold deref. by intros ->. Qed.

Lemma modify_Ok s p nd f :
  heap s !! p = Some nd →
  modify p f s = Ok ((), mkState (<[p := f nd]> (heap s)) (subtrees_to_gc_ s)).
Proof. unfold modify. by intros ->. Qed.

Lemma State_eta s : mkState (heap s) (subtrees_to_gc_ s) = s.
Proof. by destruct s. Qed.

(** ** The definitions compute *)

(** The spec's scenario of virtual-loss exclusion on a fresh root: the first
    worker is admitted, the second is turned away, and after the first has
    backed up its value a worker is admitted again. *)
Example virtual_loss_exclusion :
  ∃ s1 s2 s3,
    TryStartScoreUpdate 1 ex_fresh = Ok (true, s1) ∧
    TryStartScoreUpdate 1 s1 = Ok (false, s1) ∧
    FinalizeScoreUpdate 1 (of_Z 1) s1 = Ok ((), s2) ∧
    TryStartScoreUpdate 1 s2 = Ok (true, s3) ∧
    n_ <$> heap s3 !! 1%positive = Some 1 ∧
    n_in_flight_ <$> heap s3 !! 1%positive = Some 1.
Proof. do 3 eexists. repeat split; reflexivity. Qed.

Example ReverseBitsInBytes_low_bit : ReverseBitsInBytes 1 = 128.
Proof. reflexivity. Qed.

Example ReverseBitsInBytes_bytes :
  ReverseBitsInBytes 0x0102030405060708 = 0x8040C020A060E010.
Proof. reflexivity. Qed.

(** ** The virtual-loss gate *)

(** C1. [TryStartScoreUpdate] answers false exactly when [n == 0] and
    [n_in_flight > 0], and then changes nothing; in every other state it
    answers true and adds exactly 1 to [n_in_flight], leaving all other
    fields of the node, all other nodes and the collector's queue alone. *)
Theorem TryStartScoreUpdate_spec (s : State) (this : addr) (nd : Node) :
  heap s !! this = Some nd →
  ∃ b s',
    TryStartScoreUpdate this s = Ok (b, s') ∧
    (b = false ↔ n_ nd = 0 ∧ 0 < n_in_flight_ nd) ∧
    (b = false → s' = s) ∧
    (b = true →
     ∃ nd',
       s' = mkState (<[this := nd']> (heap s)) (subtrees_to_gc_ s) ∧
       n_in_flight_ nd' = n_in_flight_ nd + 1 ∧
       n_ nd' = n_ nd ∧ q_ nd' = q_ nd ∧
       visited_policy_ nd' = visited_policy_ nd ∧
       same_structure nd nd').
Proof.
  intros Hnd. unfold TryStartScoreUpdate.
  rewrite (bind_Ok _ _ _ _ _ (deref_Ok _ _ _ Hnd)).
  destruct (bool_decide (n_ nd = 0)) eqn:Hn;
    destruct (bool_decide (0 < n_in_flight_ nd)) eqn:Hf; simpl;
    try apply bool_decide_eq_true in Hn; try apply bool_decide_eq_false in Hn;
    try apply bool_decide_eq_true in Hf; try apply bool_decide_eq_false in Hf.
  - exists false, s. repeat split; auto; discriminate.
  - rewrite (bind_Ok _ _ _ _ _ (modify_Ok _ _ _ _ Hnd)).
    eexists true, _. split; [reflexivity|].
    split; [split; [discriminate | tauto]|].
    split; [discriminate|]. intros _. eexists. split; [reflexivity|].
    by repeat split.
  - rewrite (bind_Ok _ _ _ _ _ (modify_Ok _ _ _ _ Hnd)).
    eexists true, _. split; [reflexivity|].
    split; [split; [discriminate | tauto]|].
    split; [discriminate|]. intros _. eexists. split; [reflexivity|].
    by repeat split.
  - rewrite (bind_Ok _ _ _ _ _ (modify_Ok _ _ _ _ Hnd)).
    eexists true, _. split; [reflexivity|].
    split; [split; [discriminate | tauto]|].
    split; [discriminate|]. intros _. eexists. split; [reflexivity|].
    by repeat split.
Qed.

Lemma TryStartScoreUpdate_spec_witness :
  ∃ b s', TryStartScoreUpdate 1 ex_fresh = Ok (b, s') ∧
          (b = false ↔ n_ (Node_new None 0) = 0 ∧ 0 < n_in_flight_ (Node_new None 0)).
Proof.
  destruct (TryStartScoreUpdate_spec ex_fresh 1 (Node_new None 0))
    as (b & s' & Hrun & Hiff & _); [reflexivity|].
  exists b, s'. by split.
Defined.

(** ** Assertions *)

(** C9 (as amended). Expanding a node twice fails the assertions of
    [CreateEdges]: on a node whose edges are not empty or that has a child the
    call ends in a failed assertion.  [CancelScoreUpdate] has no assertion:
    it always subtracts 1 from [n_in_flight], also from 0. *)
Theorem precondition_violations (s : State) (this : addr) (nd : Node)
    (moves : MoveList) :
  heap s !! this = Some nd →
  (edges_ nd ≠ [] ∨ child_ nd ≠ None →
   CreateEdges this moves s = Err AssertionFailed) ∧
  CancelScoreUpdate this s =
    Ok ((), mkState (<[this := set_n_in_flight (n_in_flight_ nd - 1) nd]> (heap s))
              (subtrees_to_gc_ s)).
Proof.
  intros Hnd. split.
  - intros Hviol. unfold CreateEdges.
    rewrite (bind_Ok _ _ _ _ _ (deref_Ok _ _ _ Hnd)).
    destruct (decide (edges_ nd = [])) as [He|He].
    + destruct Hviol as [?|Hc]; [done|].
      unfold assert at 1. rewrite (bool_decide_eq_true_2 _ He).
      erewrite bind_Ok by reflexivity.
      apply bind_Err. unfold assert. by rewrite bool_decide_eq_false_2.
    + apply bind_Err. unfold assert. by rewrite bool_decide_eq_false_2.
  - unfold CancelScoreUpdate. by rewrite (modify_Ok _ _ _ _ Hnd).
Qed.

Lemma precondition_violations_witness :
  CreateEdges 1 [mkMove 30] ex_visit = Err AssertionFailed.
Proof.
  apply (precondition_violations ex_visit 1 ex_parent [mkMove 30]);
    [reflexivity | left; discriminate].
Defined.

(** C9, the claim as stated fails: on a fresh node, whose [n_in_flight] is 0,
    [CancelScoreUpdate] returns normally and leaves [n_in_flight] at -1. *)
Lemma CancelScoreUpdate_no_assertion :
  n_in_flight_ <$> heap ex_fresh !! 1%positive = Some 0 ∧
  ∃ s', CancelScoreUpdate 1 ex_fresh = Ok ((), s') ∧
        n_in_flight_ <$> heap s' !! 1%positive = Some (-1) ∧
        CancelScoreUpdate 1 ex_fresh ≠ Err AssertionFailed.
Proof.
  split; [reflexivity|]. eexists. split; [reflexivity|].
  split; [reflexivity | discriminate].
Qed.

(** ** Terminal nodes *)

Lemma of_Z_inj a b : of_Z a = of_Z b → a = b.
Proof.
  intros Heq. apply Z2Qc_inj.
  exact (f_equal (λ f, match f with Finite x => x | NonFinite => 0%Qc end) Heq).
Qed.

(** C4 (as amended). [MakeTerminal(result)] sets [is_terminal] and sets [q]
    to 0 for a draw and to +1 for every other result: it never stores -1.
    No other field, node or queue entry changes. *)
Theorem MakeTerminal_spec (s : State) (this : addr) (nd : Node)
    (result : GameResult) :
  heap s !! this = Some nd →
  ∃ nd',
    MakeTerminal this result s =
      Ok ((), mkState (<[this := nd']> (heap s)) (subtrees_to_gc_ s)) ∧
    is_terminal_ nd' = true ∧
    q_ nd' = (if decide (result = DRAW) then of_Z 0 else of_Z 1) ∧
    q_ nd' ≠ of_Z (-1) ∧
    nd' = set_q (q_ nd') (set_is_terminal true nd).
Proof.
  intros Hnd. eexists. split.
  - unfold MakeTerminal.
    rewrite (bind_Ok _ _ _ _ _ (modify_Ok _ _ _ _ Hnd)).
    erewrite modify_Ok by (cbn [heap]; apply lookup_insert_eq).
    cbn [heap subtrees_to_gc_]. by rewrite insert_insert_eq.
  - cbn. repeat split.
    destruct (decide (result = DRAW)); intros Heq%of_Z_inj; lia.
Qed.

Lemma MakeTerminal_spec_witness :
  ∃ nd', MakeTerminal 1 DRAW ex_fresh =
           Ok ((), mkState (<[1%positive := nd']> (heap ex_fresh)) []) ∧
         is_terminal_ nd' = true ∧ q_ nd' = of_Z 0.
Proof.
  destruct (MakeTerminal_spec ex_fresh 1 (Node_new None 0) DRAW)
    as (nd' & Hrun & Ht & Hq & _); [reflexivity|].
  exists nd'. by repeat split.
Defined.

(** C4, the claim as stated fails: with black to move a game that white won
    is lost for the side to move, and with white to move so is a game that
    black won; [MakeTerminal] stores +1 for both results, not -1. *)
Lemma MakeTerminal_loss_counterexample :
  score_for_side_to_move true WHITE_WON = -1 ∧
  score_for_side_to_move false BLACK_WON = -1 ∧
  ∀ r, r = WHITE_WON ∨ r = BLACK_WON →
    ∃ s', MakeTerminal 1 r ex_fresh = Ok ((), s') ∧
          q_ <$> heap s' !! 1%positive = Some (of_Z 1) ∧
          q_ <$> heap s' !! 1%positive ≠ Some (of_Z (-1)).
Proof.
  split; [reflexivity|]. split; [reflexivity|].
  intros r [-> | ->]; (eexists; split; [reflexivity|]);
    (split; [reflexivity|]); intros [= Heq%of_Z_inj]; lia.
Qed.

(** ** Backing up a value *)

Ltac lookup_solve :=
  cbn [heap subtrees_to_gc_];
  repeat first [ rewrite lookup_insert_eq
               | rewrite lookup_insert_ne by congruence ];
  first [ reflexivity | eassumption ].

Ltac mstep :=
  rewrite ?bind_assoc;
  first
    [ erewrite (bind_Ok (deref _)) by (apply deref_Ok; lookup_solve)
    | erewrite (bind_Ok (modify _ _)) by (apply modify_Ok; lookup_solve)
    | erewrite (bind_Ok (mret _)) by reflexivity
    | erewrite modify_Ok by lookup_solve ];
  cbv beta; cbn [heap subtrees_to_gc_].

Lemma FinalizeScoreUpdate_later (s : State) (this : addr) (nd : Node) (v : Float) :
  heap s !! this = Some nd →
  n_ nd ≠ 0 ∨ parent_ nd = None →
  FinalizeScoreUpdate this v s =
    Ok ((), mkState (<[this := finalized v nd]> (heap s)) (subtrees_to_gc_ s)).
Proof.
  intros Hnd Hcase. unfold FinalizeScoreUpdate.
  do 2 mstep. cbn [n_ parent_ set_q].
  replace (bool_decide (n_ nd = 0) && bool_decide (parent_ nd ≠ None))
    with false.
  2:{ symmetry. apply andb_false_iff. destruct Hcase as [Hn|Hp].
      - left. by apply bool_decide_eq_false_2.
      - right. apply bool_decide_eq_false_2. by rewrite Hp; intros []. }
  do 3 mstep. by rewrite !insert_insert_eq.
Qed.

Lemma FinalizeScoreUpdate_first (s : State) (this pa : addr) (nd p : Node)
    (e : Edge) (v : Float) :
  heap s !! this = Some nd →
  n_ nd = 0 →
  parent_ nd = Some pa →
  pa ≠ this →
  heap s !! pa = Some p →
  0 ≤ index_ nd →
  edges_ p !! Z.to_nat (index_ nd) = Some e →
  FinalizeScoreUpdate this v s =
    Ok ((), mkState
              (<[this := finalized v nd]>
                 (<[pa := set_visited_policy (fadd (visited_policy_ p) (GetP e)) p]>
                    (heap s)))
              (subtrees_to_gc_ s)).
Proof.
  intros Hnd Hn Hpa Hne Hp Hidx He. unfold FinalizeScoreUpdate.
  do 2 mstep. cbn [n_ parent_ set_q index_].
  rewrite (bool_decide_eq_true_2 _ Hn), Hpa. cbn [andb bool_decide].
  rewrite bool_decide_eq_true_2 by done.
  unfold nonnull. do 2 mstep. rewrite bind_assoc.
  unfold edge_at. rewrite (bool_decide_eq_true_2 _ Hidx), He.
  do 4 mstep.
  rewrite insert_insert_eq, (insert_insert_ne _ pa this) by done.
  by rewrite insert_insert_eq.
Qed.

Lemma Qc_of_Z_nonzero z : z ≠ 0 → Qc_of_Z z ≠ 0%Qc.
Proof. rewrite <-Z2Qc_inj_0. intros Hz Heq. by apply Hz, Z2Qc_inj. Qed.

Lemma finalized_q (nd : Node) (q x : Qc) :
  q_ nd = Finite q →
  n_ nd + 1 ≠ 0 →
  q_ (finalized (Finite x) nd) = Finite (q + (x - q) / Qc_of_Z (n_ nd + 1))%Qc.
Proof.
  intros Hq Hn. cbn. rewrite Hq. cbn.
  destruct (decide (Qc_of_Z (n_ nd + 1) = 0%Qc)) as [Hz|_]; [|done].
  by apply Qc_of_Z_nonzero in Hz.
Qed.

(** C2. [FinalizeScoreUpdate(v)] ends with [q' = q + (v - q) / (n + 1)],
    [n' = n + 1] and [n_in_flight' = n_in_flight - 1] on the node; when
    [n == 0] and the node has a parent, the parent's [visited_policy] has
    grown by [parent.edges[index].p]; otherwise the parent is unchanged; and
    nothing else in the store changes. *)
Theorem FinalizeScoreUpdate_spec (s : State) (this : addr) (nd : Node)
    (v : Float) :
  heap s !! this = Some nd →
  parent_ nd ≠ Some this →
  (n_ nd = 0 → ∀ pa, parent_ nd = Some pa →
     ∃ p e, heap s !! pa = Some p ∧ 0 ≤ index_ nd ∧
            edges_ p !! Z.to_nat (index_ nd) = Some e) →
  ∃ s' nd',
    FinalizeScoreUpdate this v s = Ok ((), s') ∧
    subtrees_to_gc_ s' = subtrees_to_gc_ s ∧
    heap s' !! this = Some nd' ∧
    q_ nd' = fadd (q_ nd) (fdiv (fsub v (q_ nd)) (of_Z (n_ nd + 1))) ∧
    (∀ q x, q_ nd = Finite q → v = Finite x → n_ nd + 1 ≠ 0 →
       q_ nd' = Finite (q + (x - q) / Qc_of_Z (n_ nd + 1))%Qc) ∧
    n_ nd' = n_ nd + 1 ∧
    n_in_flight_ nd' = n_in_flight_ nd - 1 ∧
    visited_policy_ nd' = visited_policy_ nd ∧
    same_structure nd nd' ∧
    (∀ pa p, parent_ nd = Some pa → heap s !! pa = Some p →
       if decide (n_ nd = 0) then
         ∃ e, edges_ p !! Z.to_nat (index_ nd) = Some e ∧
              heap s' !! pa =
                Some (set_visited_policy (fadd (visited_policy_ p) (p_ e)) p)
       else heap s' !! pa = Some p) ∧
    (∀ a, a ≠ this → (n_ nd = 0 → parent_ nd ≠ Some a) →
       heap s' !! a = heap s !! a).
Proof.
  intros Hnd Hself Hparent.
  destruct (decide (n_ nd = 0)) as [Hn|Hn]; [destruct (parent_ nd) as [pa|] eqn:Hpa|].
  - destruct (Hparent Hn pa eq_refl) as (p & e & Hp & Hidx & He).
    assert (pa ≠ this) as Hne by congruence.
    eexists _, (finalized v nd). split.
    { by eapply FinalizeScoreUpdate_first. }
    cbn [heap subtrees_to_gc_]. rewrite lookup_insert_eq.
    repeat split; try done.
    + intros q x Hq -> Hn1. by apply finalized_q.
    + intros pa' p' [= <-] Hp'. destruct (decide (n_ nd = 0)); [|done].
      exists e. split; [congruence|].
      rewrite lookup_insert_ne, lookup_insert_eq by done.
      unfold GetP. congruence.
    + intros a Ha Hpa'. rewrite !lookup_insert_ne; [done| |done].
      intros ->. by apply (Hpa' Hn).
  - eexists _, (finalized v nd). split.
    { apply FinalizeScoreUpdate_later; [done | by right]. }
    cbn [heap subtrees_to_gc_]. rewrite lookup_insert_eq.
    repeat split; try done.
    + intros q x Hq -> Hn1. by apply finalized_q.
    + intros a Ha _. by rewrite lookup_insert_ne.
  - eexists _, (finalized v nd). split.
    { apply FinalizeScoreUpdate_later; [done | by left]. }
    cbn [heap subtrees_to_gc_]. rewrite lookup_insert_eq.
    repeat split; try done.
    + intros q x Hq -> Hn1. by apply finalized_q.
    + intros pa p Hpa Hp. destruct (decide (n_ nd = 0)); [done|].
      rewrite lookup_insert_ne; [done|congruence].
    + intros a Ha _. by rewrite lookup_insert_ne.
Qed.

Lemma FinalizeScoreUpdate_spec_witness :
  ∃ s' nd',
    FinalizeScoreUpdate 2 (of_Z 1) ex_visit = Ok ((), s') ∧
    heap s' !! 2%positive = Some nd' ∧
    n_ nd' = 1 ∧ n_in_flight_ nd' = 0 ∧
    ∃ e, edges_ ex_parent !! 1%nat = Some e ∧
         heap s' !! 1%positive =
           Some (set_visited_policy (fadd (visited_policy_ ex_parent) (p_ e))
                   ex_parent).
Proof.
  destruct (FinalizeScoreUpdate_spec ex_visit 2
              (set_n_in_flight 1 (Node_new (Some 1%positive) 1)) (of_Z 1))
    as (s' & nd' & Hrun & _ & Hl & _ & _ & Hn & Hf & _ & _ & Hp & _).
  - reflexivity.
  - discriminate.
  - intros _ pa [= <-]. exists ex_parent. eexists.
    split; [reflexivity|]. split; [done|reflexivity].
  - exists s', nd'. repeat split; try done.
    exact (Hp 1%positive ex_parent eq_refl eq_refl).
Defined.

(** ** Welford convergence *)

Lemma backups_later (this : addr) (vs : list Qc) :
  ∀ (s : State) (nd : Node) (q : Qc),
    heap s !! this = Some nd →
    0 < n_ nd →
    q_ nd = Finite q →
    ∃ s' nd' q',
      backups this vs s = Ok ((), s') ∧
      heap s' !! this = Some nd' ∧
      n_ nd' = n_ nd + Z.of_nat (length vs) ∧
      q_ nd' = Finite q' ∧
      (q' * Qc_of_Z (n_ nd') = q * Qc_of_Z (n_ nd) + Qc_sum vs)%Qc.
Proof.
  induction vs as [|v vs IH]; intros s nd q Hnd Hn Hq.
  - exists s, nd, q. cbn. repeat split; try done; [lia | ring].
  - assert (n_ nd ≠ 0) as Hn0 by lia.
    pose proof (FinalizeScoreUpdate_later s this nd (Finite v) Hnd
                  (or_introl Hn0)) as Hrun.
    assert (n_ nd + 1 ≠ 0) as Hn1 by lia.
    pose proof (finalized_q nd q v Hq Hn1) as Hq1.
    set (s1 := mkState _ _) in *.
    edestruct (IH s1 (finalized (Finite v) nd))
      as (s' & nd' & q' & Hrun' & Hnd' & Hn' & Hq' & Hsum); [| |exact Hq1|].
    { subst s1. cbn [heap]. apply lookup_insert_eq. }
    { cbn. lia. }
    exists s', nd', q'. split.
    { unfold backups in *. cbn [foldlM]. erewrite bind_Ok by exact Hrun. done. }
    split; [done|]. split; [cbn in Hn'; cbn [length]; lia|]. split; [done|].
    rewrite Hsum. cbn [Qc_sum foldr n_ finalized set_n_in_flight set_n].
    fold (Qc_sum vs).
    pose proof (Qc_of_Z_nonzero _ Hn1) as Hnz.
    rewrite Z2Qc_inj_add, Z2Qc_inj_1 in Hnz |- *.
    clear -Hnz. field. done.
Qed.

(** C8. A node with [n = 0] and [q = 0] that receives the backups
    [v1, ..., vk] (k at least 1), and nothing in between, ends with
    [q = (v1 + ... + vk) / k] in exact arithmetic (and with [n = k]). *)
Theorem Welford_convergence (s : State) (this : addr) (nd : Node)
    (vs : list Qc) :
  vs ≠ [] →
  heap s !! this = Some nd →
  n_ nd = 0 →
  q_ nd = of_Z 0 →
  parent_ nd ≠ Some this →
  (∀ pa, parent_ nd = Some pa →
     ∃ p e, heap s !! pa = Some p ∧ 0 ≤ index_ nd ∧
            edges_ p !! Z.to_nat (index_ nd) = Some e) →
  ∃ s' nd',
    backups this vs s = Ok ((), s') ∧
    heap s' !! this = Some nd' ∧
    n_ nd' = Z.of_nat (length vs) ∧
    q_ nd' = Finite (Qc_sum vs / Qc_of_Z (Z.of_nat (length vs)))%Qc.
Proof.
  intros Hvs Hnd Hn Hq Hself Hparent.
  destruct vs as [|v vs]; [done|]. clear Hvs.
  assert (∃ s1, FinalizeScoreUpdate this (Finite v) s = Ok ((), s1) ∧
                heap s1 !! this = Some (finalized (Finite v) nd))
    as (s1 & Hrun & Hnd1).
  { destruct (parent_ nd) as [pa|] eqn:Hpa.
    - destruct (Hparent pa eq_refl) as (p & e & Hp & Hidx & He).
      eexists. split.
      + eapply FinalizeScoreUpdate_first; eauto. congruence.
      + cbn [heap]. apply lookup_insert_eq.
    - eexists. split.
      + apply FinalizeScoreUpdate_later; [done | by right].
      + cbn [heap]. apply lookup_insert_eq. }
  assert (n_ nd + 1 ≠ 0) as Hn1 by lia.
  pose proof (finalized_q nd _ v Hq Hn1) as Hq1.
  edestruct (backups_later this vs s1 (finalized (Finite v) nd))
    as (s' & nd' & q' & Hrun' & Hnd' & Hn' & Hq' & Hsum);
    [done | cbn; lia | exact Hq1 |].
  exists s', nd'. split.
  { unfold backups in *. cbn [foldlM]. by erewrite bind_Ok by exact Hrun. }
  split; [done|].
  assert (n_ nd' = Z.of_nat (length (v :: vs))) as Hlen.
  { rewrite Hn'. cbn. lia. }
  split; [done|]. rewrite Hq'. f_equal.
  assert (Qc_of_Z (n_ nd') ≠ 0%Qc) as Hnz.
  { apply Qc_of_Z_nonzero. rewrite Hlen. cbn [length]. lia. }
  rewrite <-Hlen. cbn [Qc_sum foldr]. fold (Qc_sum vs).
  assert (Qc_sum vs = q' * Qc_of_Z (n_ nd') - v)%Qc as ->.
  { rewrite Hsum. cbn [n_ finalized set_n_in_flight set_n].
    rewrite Hn. change (0 + 1) with 1.
    rewrite Z2Qc_inj_1, Z2Qc_inj_0. field. apply Q_apart_0_1. }
  field. done.
Qed.

Lemma Welford_convergence_witness :
  ∃ s' nd',
    backups 2 [Qc_of_Z 1; Qc_of_Z 0; Qc_of_Z 1] ex_visit = Ok ((), s') ∧
    heap s' !! 2%positive = Some nd' ∧
    n_ nd' = 3 ∧
    q_ nd' = Finite (Qc_sum [Qc_of_Z 1; Qc_of_Z 0; Qc_of_Z 1] / Qc_of_Z 3)%Qc.
Proof.
  apply (Welford_convergence ex_visit 2
           (set_n_in_flight 1 (Node_new (Some 1%positive) 1))).
  - discriminate.
  - reflexivity.
  - reflexivity.
  - reflexivity.
  - discriminate.
  - intros pa [= <-]. exists ex_parent. eexists.
    split; [reflexivity|]. split; [done|reflexivity].
Defined.

(** ** Child chains *)

Lemma chain_lookup h p l a : chain h p l → a ∈ l → is_Some (h !! a).
Proof.
  induction 1 as [|b nd l Hb _ IH]; intros Ha.
  - by apply elem_of_nil in Ha.
  - apply elem_of_cons in Ha as [->|Ha]; eauto.
Qed.

Lemma chain_functional h p l1 l2 : chain h p l1 → chain h p l2 → l1 = l2.
Proof.
  intros H1. revert l2.
  induction H1 as [|a nd l Ha _ IH]; intros l2 H2; inversion H2; subst.
  - done.
  - f_equal. apply IH. congruence.
Qed.

Lemma chain_suffix h p l a :
  chain h p l → a ∈ l →
  ∃ l', chain h (Some a) (a :: l') ∧ (length (a :: l') ≤ length l)%nat.
Proof.
  induction 1 as [|b nd l Hb Hl IH]; intros Ha.
  - by apply elem_of_nil in Ha.
  - apply elem_of_cons in Ha as [->|Ha].
    + exists l. split; [by econstructor | done].
    + destruct (IH Ha) as (l' & Hl' & Hlen). exists l'. split; [done|].
      cbn in *. lia.
Qed.

Lemma chain_NoDup h p l : chain h p l → NoDup l.
Proof.
  induction 1 as [|a nd l Ha Hl IH]; constructor; [|done].
  intros Hin. destruct (chain_suffix _ _ _ _ Hl Hin) as (l' & Hl' & Hlen).
  assert (a :: l' = a :: l) as [= ->].
  { eapply chain_functional; [done | by econstructor]. }
  cbn in Hlen. lia.
Qed.

Lemma chain_length h p l : chain h p l → (length l ≤ size h)%nat.
Proof.
  intros Hl. rewrite <-(size_dom (D := gset positive)).
  rewrite <-(size_list_to_set (C := gset positive) l)
    by by eapply chain_NoDup.
  apply subseteq_size. intros a Ha. apply elem_of_list_to_set in Ha.
  apply elem_of_dom. by eapply chain_lookup.
Qed.

Lemma chain_from_enough h p l fuel :
  chain h p l → (length l ≤ fuel)%nat → chain_from fuel h p = Ok l.
Proof.
  intros Hl. revert fuel.
  induction Hl as [|a nd l Ha _ IH]; intros fuel Hfuel.
  - by destruct fuel.
  - destruct fuel as [|fuel]; cbn in *; [lia|].
    rewrite Ha, IH; [done | lia].
Qed.

(** The store decides a chain only through the [sibling_] links on it. *)
Lemma chain_ext h h' p l :
  chain h p l →
  (∀ a, a ∈ l → sibling_ <$> h' !! a = sibling_ <$> h !! a) →
  chain h' p l.
Proof.
  induction 1 as [|a nd l Ha _ IH]; intros Hagree; [constructor|].
  pose proof (Hagree a ltac:(left)) as Hsib. rewrite Ha in Hsib.
  destruct (h' !! a) as [nd'|] eqn:Ha'; [|done].
  injection Hsib as Hsib. econstructor; [done|]. rewrite Hsib.
  apply IH. intros b Hb. apply Hagree. by right.
Qed.

Lemma ChildNodes_Ok s this nd l :
  heap s !! this = Some nd →
  chain (heap s) (child_ nd) l →
  ChildNodes this s = Ok (l, s).
Proof.
  intros Hnd Hl. unfold ChildNodes. mstep. unfold with_fuel.
  rewrite (chain_from_enough _ _ l); [done..|].
  pose proof (chain_length _ _ _ Hl). lia.
Qed.

(** ** Depth summaries *)

Lemma foldr_min_shift (d x : Z) (xs : list Z) :
  foldr Z.min (Z.min d x) xs = Z.min x (foldr Z.min d xs).
Proof. induction xs as [|y xs IH]; cbn; [lia|]. rewrite IH. lia. Qed.

(** The loop of [UpdateFullDepth] lowers [depth] to the least of [depth] and
    the children's [full_depth_]. *)
Lemma full_depth_loop (s : State) (l : list addr) :
  (∀ c, c ∈ l → is_Some (heap s !! c)) →
  ∀ depth : Z,
    foldlM (λ depth child,
       c ← deref child;
       mret (if bool_decide (depth > full_depth_ c)
             then full_depth_ c else depth)) depth l s =
    Ok (foldr Z.min depth (full_depths (heap s) l), s).
Proof.
  induction l as [|c l IH]; intros Hl depth; [done|].
  destruct (Hl c ltac:(left)) as [ndc Hc].
  cbn [foldlM]. rewrite bind_assoc. mstep. mstep.
  rewrite IH by (intros b Hb; apply Hl; by right).
  unfold full_depths. cbn [omap list_omap]. rewrite Hc. cbn [fmap option_fmap option_map].
  fold (full_depths (heap s) l).
  cbn [foldr]. rewrite <-foldr_min_shift. do 3 f_equal.
  case_bool_decide; lia.
Qed.

(** C6 (as amended). [UpdateFullDepth(&d)] changes nothing and returns false
    when [full_depth > d].  Otherwise it lowers [d] to [m], the least of [d]
    and the [full_depth] of the materialized children; if [m >= full_depth]
    it sets both [full_depth] and [d] to [m + 1] (as [uint16_t]) and returns
    true, else it leaves [full_depth] alone and returns false.  With [d]
    below 65535 it returns true exactly when [full_depth] has increased. *)
Theorem UpdateFullDepth_spec (s : State) (this : addr) (nd : Node)
    (l : list addr) (depth : Z) :
  heap s !! this = Some nd →
  chain (heap s) (child_ nd) l →
  let m := foldr Z.min depth (full_depths (heap s) l) in
  UpdateFullDepth this depth s =
    (if decide (full_depth_ nd > depth) then Ok ((false, depth), s)
     else if decide (m >= full_depth_ nd) then
       Ok ((true, wrap16 (m + 1)),
           mkState (<[this := set_full_depth (wrap16 (m + 1)) nd]> (heap s))
             (subtrees_to_gc_ s))
     else Ok ((false, m), s)) ∧
  (0 ≤ full_depth_ nd → depth < 65535 →
   ∃ b d' s' nd',
     UpdateFullDepth this depth s = Ok ((b, d'), s') ∧
     heap s' !! this = Some nd' ∧
     (b = true ↔ full_depth_ nd < full_depth_ nd')).
Proof.
  intros Hnd Hl m.
  assert (m ≤ depth) as Hm.
  { subst m. generalize (full_depths (heap s) l). intros fds.
    induction fds as [|x fds IH]; cbn; lia. }
  assert (UpdateFullDepth this depth s =
    (if decide (full_depth_ nd > depth) then Ok ((false, depth), s)
     else if decide (m >= full_depth_ nd) then
       Ok ((true, wrap16 (m + 1)),
           mkState (<[this := set_full_depth (wrap16 (m + 1)) nd]> (heap s))
             (subtrees_to_gc_ s))
     else Ok ((false, m), s))) as Hrun.
  { unfold UpdateFullDepth. mstep.
    destruct (decide (full_depth_ nd > depth)) as [Hgt|Hgt].
    { by rewrite bool_decide_eq_true_2. }
    rewrite bool_decide_eq_false_2 by done.
    rewrite (bind_Ok _ _ _ _ _ (ChildNodes_Ok _ _ _ _ Hnd Hl)).
    erewrite bind_Ok
      by (apply full_depth_loop; intros c Hc; by eapply chain_lookup).
    fold m. mstep.
    destruct (decide (m >= full_depth_ nd)) as [Hge|Hge].
    - rewrite bool_decide_eq_true_2 by done. by mstep.
    - by rewrite bool_decide_eq_false_2. }
  split; [done|]. intros Hfd Hdepth. rewrite Hrun.
  destruct (decide (full_depth_ nd > depth)) as [Hgt|Hgt].
  { exists false, depth, s, nd. repeat split; [done|done|lia]. }
  destruct (decide (m >= full_depth_ nd)) as [Hge|Hge].
  - eexists true, _, _, _. split; [done|]. cbn [heap].
    rewrite lookup_insert_eq. split; [done|]. cbn [full_depth_ set_full_depth].
    unfold wrap16. rewrite Z.mod_small by lia. split; [lia|done].
  - exists false, m, s, nd. repeat split; [done|done|lia].
Qed.

Lemma UpdateFullDepth_spec_witness :
  ∃ b d' s' nd',
    UpdateFullDepth 1 7 ex_depth = Ok ((b, d'), s') ∧
    heap s' !! 1%positive = Some nd' ∧
    (b = true ↔ 0 < full_depth_ nd').
Proof.
  destruct (UpdateFullDepth_spec ex_depth 1
              (set_child (Some 2%positive) (Node_new None 0)) [2%positive] 7)
    as [_ Hiff].
  - reflexivity.
  - econstructor; [reflexivity|]. constructor.
  - apply Hiff; [done|lia].
Defined.

(** C6, the claim as stated fails: the only child of node 1 has full depth
    5, so 1 + the least full depth of the children is 6; called with
    [d = 2] the function sets [full_depth] to 3. *)
Lemma UpdateFullDepth_not_children_min :
  full_depths (heap ex_depth) [2%positive] = [5] ∧
  ChildNodes 1 ex_depth = Ok ([2%positive], ex_depth) ∧
  ∃ s', UpdateFullDepth 1 2 ex_depth = Ok ((true, 3), s') ∧
        full_depth_ <$> heap s' !! 1%positive = Some 3.
Proof.
  split; [reflexivity|]. split; [reflexivity|].
  exists (mkState (<[1%positive :=
             set_full_depth 3 (set_child (Some 2%positive) (Node_new None 0))]>
             (heap ex_depth)) []).
  split; vm_compute; reflexivity.
Qed.

(** ** Releasing children *)

Lemma release_loop_not_found (s : State) (keep : option addr) :
  ∀ p l, chain (heap s) p l →
  ∀ node fuel,
    load node s = Ok (p, s) →
    (length l ≤ fuel)%nat →
    (∀ c, c ∈ l → Some c ≠ keep) →
    release_loop fuel node keep s = Ok (None, s).
Proof.
  induction 1 as [|a nd l Ha Hl IH]; intros node fuel Hload Hfuel Hkeep.
  - destruct fuel; cbn [release_loop]; by rewrite (bind_Ok _ _ _ _ _ Hload).
  - assert (bool_decide (Some a = keep) = false) as Hne.
    { apply bool_decide_eq_false_2, Hkeep. by left. }
    destruct fuel as [|fuel]; [cbn in Hfuel; lia|].
    cbn [release_loop]. rewrite (bind_Ok _ _ _ _ _ Hload), Hne.
    apply IH.
    + unfold load. by mstep.
    + cbn in Hfuel. lia.
    + intros c Hc. apply Hkeep. by right.
Qed.

(** When the node to save is on the chain, the loop amounts to three
    assignments at the place where it is found. *)
Lemma release_loop_found (s : State) (k : addr) (l2 : list addr) :
  ∀ l1 p node fuel,
    chain (heap s) p (l1 ++ k :: l2) →
    load node s = Ok (p, s) →
    k ∉ l1 →
    (length l1 ≤ fuel)%nat →
    release_loop fuel node (Some k) s =
      (sib ← move_from (sibling_of k);
       AddToGcQueue sib;;
       move_from (slot_before node l1)) s.
Proof.
  induction l1 as [|a l1 IH]; intros p node fuel Hl Hload Hk Hfuel.
  - inversion Hl; subst.
    destruct fuel; cbn [release_loop];
      by rewrite (bind_Ok _ _ _ _ _ Hload), bool_decide_eq_true_2.
  - inversion Hl as [|? nd ? Ha Hl']; subst.
    assert (bool_decide (Some a = Some k) = false) as Hne.
    { apply bool_decide_eq_false_2. intros [= ->]. apply Hk. by left. }
    destruct fuel as [|fuel]; [cbn in Hfuel; lia|].
    cbn [release_loop slot_before]. rewrite (bind_Ok _ _ _ _ _ Hload), Hne.
    eapply IH; [done| | |].
    + unfold load. by mstep.
    + intros Hin. apply Hk. by right.
    + cbn in Hfuel. lia.
Qed.

Lemma slot_before_last (node : uptr_loc) (l : list addr) (b : addr) :
  last l = Some b → slot_before node l = sibling_of b.
Proof.
  revert node. induction l as [|a l IH]; intros node Hlast; [done|].
  destruct l as [|a' l]; [by injection Hlast as ->|].
  cbn [slot_before]. apply (IH (sibling_of a)). done.
Qed.

(** Cutting a chain in front of [k]: the part before [k] is a chain again
    once the link of its last node is null. *)
Lemma chain_prefix h h' (k : addr) (l2 : list addr) :
  ∀ l1 a b,
    chain h (Some a) ((a :: l1) ++ k :: l2) →
    NoDup ((a :: l1) ++ k :: l2) →
    last (a :: l1) = Some b →
    (∀ c, c ∈ a :: l1 → c ≠ b →
       sibling_ <$> h' !! c = sibling_ <$> h !! c) →
    sibling_ <$> h' !! b = Some None →
    chain h' (Some a) (a :: l1).
Proof.
  induction l1 as [|a1 l1 IH]; intros a b Hl Hdup Hlast Hagree Hb.
  - injection Hlast as <-.
    destruct (h' !! a) as [nd'|] eqn:Ha'; [|done]. injection Hb as Hb.
    econstructor; [done|]. rewrite Hb. constructor.
  - inversion Hl as [|? nd ? Ha Hl']; subst.
    assert (sibling_ nd = Some a1) as Hsib by by inversion Hl'.
    rewrite Hsib in Hl'.
    assert (a ≠ b) as Hab.
    { intros ->.
      change (NoDup (b :: ((a1 :: l1) ++ k :: l2))) in Hdup.
      apply NoDup_cons in Hdup as [Hnin _]. apply Hnin.
      apply elem_of_app. left.
      change (last (a1 :: l1) = Some b) in Hlast.
      apply last_Some in Hlast as [l' Heq]. rewrite Heq.
      apply elem_of_app. right. by left. }
    pose proof (Hagree a ltac:(left) Hab) as Hsa. rewrite Ha in Hsa.
    destruct (h' !! a) as [nd'|] eqn:Ha'; [|done]. injection Hsa as Hsa.
    econstructor; [done|]. rewrite Hsa, Hsib.
    apply (IH a1 b); [done| |done| |done].
    + change (NoDup (a :: ((a1 :: l1) ++ k :: l2))) in Hdup.
      by apply NoDup_cons in Hdup as [_ ?].
    + intros c Hc. apply Hagree. by right.
Qed.

Lemma chain_tail h p l1 k l2 :
  chain h p (l1 ++ k :: l2) →
  ∃ ndk, h !! k = Some ndk ∧ chain h (sibling_ ndk) l2.
Proof.
  revert p. induction l1 as [|a l1 IH]; intros p Hl; inversion Hl; subst; eauto.
Qed.

Lemma chain_head h p l : chain h p l → p = head l.
Proof. by destruct 1. Qed.

Lemma chain_last_link h (k : addr) (l2 : list addr) :
  ∀ l1 p b ndb,
    chain h p (l1 ++ k :: l2) →
    last l1 = Some b →
    h !! b = Some ndb →
    sibling_ ndb = Some k.
Proof.
  induction l1 as [|a l1 IH]; intros p b ndb Hl Hlast Hb; [done|].
  inversion Hl as [|? nd ? Ha Hl']; subst.
  destruct l1 as [|a1 l1].
  - injection Hlast as <-. assert (nd = ndb) as -> by congruence.
    by inversion Hl'.
  - by eapply IH.
Qed.

Lemma AddToGcQueue_Ok (s : State) (node : option addr) :
  AddToGcQueue node s =
    Ok ((), mkState (heap s) (subtrees_to_gc_ s ++ option_list node)).
Proof.
  destruct node; cbn; [done|]. by rewrite app_nil_r, State_eta.
Qed.

Lemma load_child s a nd :
  heap s !! a = Some nd → load (child_of a) s = Ok (child_ nd, s).
Proof. intros Ha. unfold load. by mstep. Qed.

Lemma load_sibling s a nd :
  heap s !! a = Some nd → load (sibling_of a) s = Ok (sibling_ nd, s).
Proof. intros Ha. unfold load. by mstep. Qed.

Lemma store_child s a nd p :
  heap s !! a = Some nd →
  store (child_of a) p s =
    Ok ((), mkState (<[a := set_child p nd]> (heap s)) (subtrees_to_gc_ s)).
Proof. intros Ha. unfold store. by mstep. Qed.

Lemma store_sibling s a nd p :
  heap s !! a = Some nd →
  store (sibling_of a) p s =
    Ok ((), mkState (<[a := set_sibling p nd]> (heap s)) (subtrees_to_gc_ s)).
Proof. intros Ha. unfold store. by mstep. Qed.

Lemma move_from_child s a nd :
  heap s !! a = Some nd →
  move_from (child_of a) s =
    Ok (child_ nd,
        mkState (<[a := set_child None nd]> (heap s)) (subtrees_to_gc_ s)).
Proof. intros Ha. unfold move_from, load, store. by repeat mstep. Qed.

Lemma move_from_sibling s a nd :
  heap s !! a = Some nd →
  move_from (sibling_of a) s =
    Ok (sibling_ nd,
        mkState (<[a := set_sibling None nd]> (heap s)) (subtrees_to_gc_ s)).
Proof. intros Ha. unfold move_from, load, store. by repeat mstep. Qed.

(** One step of a straight-line run of pointer assignments. *)
Ltac pstep :=
  rewrite ?bind_assoc;
  first
    [ erewrite (bind_Ok (move_from (child_of _)))
        by (apply move_from_child; lookup_solve)
    | erewrite (bind_Ok (move_from (sibling_of _)))
        by (apply move_from_sibling; lookup_solve)
    | erewrite (bind_Ok (store (child_of _) _))
        by (apply store_child; lookup_solve)
    | erewrite (bind_Ok (store (sibling_of _) _))
        by (apply store_sibling; lookup_solve)
    | erewrite (bind_Ok (load (child_of _)))
        by (apply load_child; lookup_solve)
    | erewrite (bind_Ok (load (sibling_of _)))
        by (apply load_sibling; lookup_solve)
    | erewrite (bind_Ok (AddToGcQueue _)) by apply AddToGcQueue_Ok
    | erewrite store_child by lookup_solve
    | erewrite store_sibling by lookup_solve
    | mstep ];
  cbv beta; cbn [heap subtrees_to_gc_].

Lemma ReleaseChildrenExceptOne_not_found (s : State) (this : addr) (nd : Node)
    (l : list addr) (keep : option addr) :
  heap s !! this = Some nd →
  chain (heap s) (child_ nd) l →
  (∀ c, c ∈ l → Some c ≠ keep) →
  ReleaseChildrenExceptOne this keep s =
    Ok ((), mkState (<[this := set_child None nd]> (heap s))
              (subtrees_to_gc_ s ++ option_list (child_ nd))).
Proof.
  intros Hnd Hl Hkeep. unfold ReleaseChildrenExceptOne.
  erewrite bind_Ok; cycle 1.
  { unfold with_fuel. eapply release_loop_not_found; [done| | |done].
    - by apply load_child.
    - pose proof (chain_length _ _ _ Hl). lia. }
  do 3 pstep. by rewrite insert_insert_eq.
Qed.

Lemma ReleaseChildrenExceptOne_found (s : State) (this : addr) (nd : Node)
    (l1 : list addr) (k : addr) (ndk : Node) (l2 : list addr) :
  heap s !! this = Some nd →
  chain (heap s) (child_ nd) (l1 ++ k :: l2) →
  this ∉ l1 ++ k :: l2 →
  heap s !! k = Some ndk →
  ReleaseChildrenExceptOne this (Some k) s =
    Ok ((), mkState (released_heap (heap s) this nd l1 k ndk)
              (subtrees_to_gc_ s ++ option_list (head l2)
                 ++ option_list (head l1))).
Proof.
  intros Hnd Hl Hthis Hk. unfold released_heap.
  pose proof (chain_NoDup _ _ _ Hl) as Hdup.
  assert (k ∉ l1) as Hk1.
  { intros Hin. apply NoDup_app in Hdup as (_ & Hdis & _).
    apply (Hdis k Hin). by left. }
  assert (this ≠ k) as Htk.
  { intros ->. apply Hthis, elem_of_app. right. by left. }
  destruct (chain_tail _ _ _ _ _ Hl) as (ndk' & Hk' & Hl2).
  assert (ndk' = ndk) as -> by congruence. clear Hk'.
  apply chain_head in Hl2 as Hhead2.
  unfold ReleaseChildrenExceptOne. rewrite bind_with_fuel.
  erewrite bind_congr; cycle 1.
  { apply (release_loop_found s k l2 l1 (child_ nd)); [done| |done|].
    - by apply load_child.
    - pose proof (chain_length _ _ _ Hl) as Hlen.
      rewrite length_app in Hlen. lia. }
  do 2 pstep.
  destruct l1 as [|a0 l1'] eqn:Hl1.
  - (* the saved node is the first child *)
    cbn [slot_before last default head option_list app] in *.
    assert (child_ nd = Some k) as Hc by by inversion Hl.
    do 4 pstep.
    cbn [child_ set_child option_list]. rewrite !app_nil_r.
    rewrite !insert_insert_eq, alter_insert_eq, Hc, Hhead2. done.
  - (* the saved node follows [b], the last of the nodes before it *)
    rewrite <-Hl1 in *.
    assert (is_Some (last l1)) as [b Hlast].
    { apply last_is_Some. by rewrite Hl1. }
    assert (b ∈ l1) as Hbin by by apply last_Some_elem_of.
    assert (b ≠ k) as Hbk by (by intros ->).
    assert (b ≠ this) as Hbt.
    { intros ->. apply Hthis, elem_of_app. by left. }
    destruct (chain_lookup _ _ _ b Hl) as [ndb Hb].
    { apply elem_of_app. by left. }
    pose proof (chain_last_link _ _ _ _ _ _ _ Hl Hlast Hb) as Hlink.
    assert (child_ nd = Some a0) as Hc.
    { apply chain_head in Hl. by rewrite Hl, Hl1. }
    rewrite (slot_before_last _ _ _ Hlast), Hlast. cbn [default].
    do 4 pstep.
    cbn [child_ set_child]. rewrite Hlink, Hc, Hhead2, Hl1.
    cbn [head option_list]. rewrite <-app_assoc.
    rewrite !insert_insert_eq.
    rewrite alter_insert_ne by done. change (id b) with b.
    rewrite (alter_alt_Some _ _ _ _ Hb).
    by rewrite (insert_insert_ne _ b k) by done.
Qed.

(** The store after the node [k] of the chain [l1 ++ k :: l2] below [this]
    has been saved. *)
Lemma released_lookup_this h this nd l1 k ndk :
  released_heap h this nd l1 k ndk !! this = Some (set_child (Some k) nd).
Proof. apply lookup_insert_eq. Qed.

Lemma released_lookup_k h this nd l1 k ndk :
  this ≠ k →
  released_heap h this nd l1 k ndk !! k = Some (set_sibling None ndk).
Proof.
  intros Htk. unfold released_heap. rewrite lookup_insert_ne by done.
  destruct (decide (default k (last l1) = k)) as [->|Hne].
  - by rewrite lookup_alter_eq, lookup_insert_eq.
  - by rewrite lookup_alter_ne, lookup_insert_eq.
Qed.

Lemma released_lookup_other h this nd l1 k ndk a :
  a ≠ this → a ≠ k → a ≠ default k (last l1) →
  released_heap h this nd l1 k ndk !! a = h !! a.
Proof.
  intros ???. unfold released_heap.
  by rewrite lookup_insert_ne, lookup_alter_ne, lookup_insert_ne.
Qed.

Lemma released_payload h this nd l1 k ndk a nda :
  h !! this = Some nd →
  h !! k = Some ndk →
  h !! a = Some nda →
  ∃ nda', released_heap h this nd l1 k ndk !! a = Some nda' ∧
          same_payload nda nda'.
Proof.
  intros Hnd Hk Ha. unfold released_heap.
  destruct (decide (a = this)) as [->|Hat].
  { rewrite lookup_insert_eq. eexists. split; [done|].
    assert (nda = nd) as -> by congruence. by repeat split. }
  rewrite lookup_insert_ne by done.
  destruct (decide (a = default k (last l1))) as [->|Hab].
  - rewrite lookup_alter_eq.
    destruct (decide (default k (last l1) = k)) as [Heq|Hne].
    + rewrite Heq in *. rewrite lookup_insert_eq. eexists. split; [done|].
      assert (nda = ndk) as -> by congruence. by repeat split.
    + rewrite lookup_insert_ne, Ha by done. eexists. split; [done|].
      by repeat split.
  - rewrite lookup_alter_ne by done.
    destruct (decide (a = k)) as [->|Hak].
    + rewrite lookup_insert_eq. eexists. split; [done|].
      assert (nda = ndk) as -> by congruence. by repeat split.
    + rewrite lookup_insert_ne by done. eexists. split; [done|].
      by repeat split.
Qed.

Lemma released_in_gc (s : State) (this : addr) (nd : Node) (l1 : list addr)
    (k : addr) (ndk : Node) (l2 : list addr) (c : addr) :
  heap s !! this = Some nd →
  chain (heap s) (child_ nd) (l1 ++ k :: l2) →
  this ∉ l1 ++ k :: l2 →
  heap s !! k = Some ndk →
  c ∈ l1 ++ l2 →
  in_gc (mkState (released_heap (heap s) this nd l1 k ndk)
           (subtrees_to_gc_ s ++ option_list (head l2)
              ++ option_list (head l1))) c.
Proof.
  intros Hnd Hl Hthis Hk Hc.
  pose proof (chain_NoDup _ _ _ Hl) as Hdup.
  assert (this ≠ k) as Htk.
  { intros ->. apply Hthis, elem_of_app. right. by left. }
  destruct (chain_tail _ _ _ _ _ Hl) as (ndk' & Hk' & Hl2).
  assert (ndk' = ndk) as -> by congruence. clear Hk'.
  apply NoDup_app in Hdup as Hdup'. destruct Hdup' as (Hd1 & Hdis & Hd2).
  apply NoDup_cons in Hd2 as [Hk2 Hd2].
  apply elem_of_app in Hc as [Hc|Hc].
  - (* before the saved node *)
    destruct l1 as [|a0 l1'] eqn:Hl1; [by apply elem_of_nil in Hc|].
    rewrite <-Hl1 in *.
    assert (is_Some (last l1)) as [b Hlast].
    { apply last_is_Some. by rewrite Hl1. }
    assert (b ∈ l1) as Hbin by by apply last_Some_elem_of.
    destruct (chain_lookup _ _ _ b Hl) as [ndb Hb].
    { apply elem_of_app. by left. }
    assert (child_ nd = Some a0) as Hchild.
    { apply chain_head in Hl. by rewrite Hl, Hl1. }
    exists a0, l1. split; [|split; [|done]].
    { cbn [subtrees_to_gc_]. rewrite !elem_of_app. right. right.
      rewrite Hl1. cbn. by left. }
    cbn [heap]. rewrite Hl1.
    apply (chain_prefix (heap s) _ k l2 l1' a0 b).
    + by rewrite <-Hchild, <-Hl1.
    + by rewrite <-Hl1.
    + by rewrite <-Hl1.
    + intros c' Hc' Hcb. rewrite <-Hl1 in Hc' |- *. f_equal.
      apply released_lookup_other; [| |by rewrite Hlast].
      * intros ->. apply Hthis, elem_of_app. by left.
      * intros ->. apply (Hdis k Hc'). by left.
    + rewrite <-Hl1. unfold released_heap. rewrite Hlast.
      cbn [default from_option id].
      rewrite lookup_insert_ne.
      2:{ intros <-. apply Hthis, elem_of_app. by left. }
      change (id b) with b.
      rewrite lookup_alter_eq, lookup_insert_ne, Hb; [done|].
      intros <-. apply (Hdis k Hbin). by left.
  - (* after the saved node *)
    destruct l2 as [|r l2'] eqn:Hl2e; [by apply elem_of_nil in Hc|].
    rewrite <-Hl2e in *.
    assert (sibling_ ndk = Some r) as Hsib.
    { apply chain_head in Hl2. by rewrite Hl2, Hl2e. }
    exists r, l2. split; [|split; [|done]].
    { cbn [subtrees_to_gc_]. rewrite !elem_of_app. right. left.
      rewrite Hl2e. cbn. by left. }
    cbn [heap]. rewrite <-Hsib.
    eapply chain_ext; [done|]. intros a Ha. f_equal.
    apply released_lookup_other.
    + intros ->. apply Hthis, elem_of_app. right. by right.
    + by intros ->.
    + destruct (last l1) as [b|] eqn:Hlast; cbn; [|by intros ->].
      intros ->. apply (Hdis b); [by apply last_Some_elem_of | by right].
Qed.

(** C5. [ReleaseChildrenExceptOne(keep)] hands every child other than
    [keep], before it or after it in the chain, to the garbage collector and
    leaves [keep] as the only child, with no sibling; when [keep] is not on
    the chain (null included) every child is handed over and no child is
    left.  Apart from the owning pointers no field of any node changes. *)
Theorem ReleaseChildrenExceptOne_spec (s : State) (this : addr) (nd : Node)
    (l : list addr) (keep : option addr) :
  heap s !! this = Some nd →
  chain (heap s) (child_ nd) l →
  this ∉ l →
  ∃ s' nd',
    ReleaseChildrenExceptOne this keep s = Ok ((), s') ∧
    heap s' !! this = Some nd' ∧
    (∀ c, c ∈ l → Some c ≠ keep → in_gc s' c) ∧
    (∀ k, keep = Some k → k ∈ l →
       child_ nd' = Some k ∧ chain (heap s') (child_ nd') [k]) ∧
    ((∀ k, keep = Some k → k ∉ l) → child_ nd' = None) ∧
    (∀ a nda, heap s !! a = Some nda →
       ∃ nda', heap s' !! a = Some nda' ∧ same_payload nda nda').
Proof.
  intros Hnd Hl Hthis.
  assert ((∃ k, keep = Some k ∧ k ∈ l) ∨ (∀ c, c ∈ l → Some c ≠ keep))
    as [(k & -> & Hk)|Hkeep].
  { destruct keep as [k|]; [destruct (decide (k ∈ l))|].
    - left. eauto.
    - right. by intros c Hc [= ->].
    - by right. }
  - apply list_elem_of_split_l in Hk as (l1 & l2 & -> & Hk1).
    destruct (chain_lookup _ _ _ k Hl) as [ndk Hk].
    { apply elem_of_app. right. by left. }
    eexists _, _. split; [by eapply ReleaseChildrenExceptOne_found|].
    cbn [heap]. split; [by apply released_lookup_this|].
    split; [|split; [|split]].
    + intros c Hc Hck. eapply released_in_gc; [done..|].
      apply elem_of_app in Hc as [Hc|Hc]; apply elem_of_app; [by left|].
      apply elem_of_cons in Hc as [->|Hc]; [done | by right].
    + intros ? [= <-] _. split; [done|]. cbn [child_ set_child].
      assert (this ≠ k) as Htk.
      { intros ->. apply Hthis, elem_of_app. right. by left. }
      econstructor; [by apply released_lookup_k | constructor].
    + intros Hno. exfalso. apply (Hno k eq_refl), elem_of_app. right. by left.
    + intros a nda Ha. by eapply released_payload.
  - eexists _, _. split; [by eapply ReleaseChildrenExceptOne_not_found|].
    cbn [heap]. split; [by apply lookup_insert_eq|].
    split; [|split; [|split]].
    + intros c Hc _. destruct Hl as [|r ndr l Hr Hl'] eqn:Hchain;
        [by apply elem_of_nil in Hc|].
      exists r, (r :: l). split; [|split; [|done]].
      * cbn [subtrees_to_gc_]. apply elem_of_app. right.
        destruct (child_ nd); by left.
      * cbn [heap]. eapply chain_ext; [by econstructor|].
        intros a Ha. rewrite lookup_insert_ne; [done|]. by intros <-.
    + intros k -> Hk. exfalso. by apply (Hkeep k).
    + done.
    + intros a nda Ha. destruct (decide (a = this)) as [->|Hne].
      * rewrite lookup_insert_eq. eexists. split; [done|].
        assert (nda = nd) as -> by congruence. by repeat split.
      * rewrite lookup_insert_ne by done. eexists. split; [done|].
        by repeat split.
Qed.

Lemma ReleaseChildrenExceptOne_spec_witness :
  ∃ s' nd',
    ReleaseChildrenExceptOne 1 (Some 3%positive) ex_family = Ok ((), s') ∧
    heap s' !! 1%positive = Some nd' ∧
    in_gc s' 2 ∧ in_gc s' 4 ∧
    child_ nd' = Some 3%positive ∧ chain (heap s') (child_ nd') [3%positive].
Proof.
  destruct (ReleaseChildrenExceptOne_spec ex_family 1
              (set_child (Some 2%positive)
                 (set_edges
                    (EdgeList_of (mkMove <$> [100; 101; 102; 103; 104; 105]))
                    (set_n 7 (Node_new None 0))))
              [2; 3; 4]%positive (Some 3%positive))
    as (s' & nd' & Hrun & Hnd' & Hgc & Hkeep & _).
  - reflexivity.
  - repeat (econstructor; [reflexivity|]). constructor.
  - rewrite !elem_of_cons, elem_of_nil. intros [?|[?|[?|[]]]]; discriminate.
  - exists s', nd'. split; [done|]. split; [done|].
    split; [apply Hgc; [rewrite !elem_of_cons; auto | discriminate]|].
    split; [apply Hgc; [rewrite !elem_of_cons; auto | discriminate]|].
    apply (Hkeep 3%positive eq_refl). rewrite !elem_of_cons. auto.
Defined.

(** ** The joint view of edges and children *)

Lemma child_at_Some h l i c :
  child_at h l i = Some c → c ∈ l ∧ index_of h c = Some i.
Proof.
  induction l as [|a l IH]; [done|]. cbn [child_at].
  destruct (decide (index_of h a = Some i)) as [Ha|Ha].
  - intros [= <-]. split; [by left | done].
  - intros Hc. destruct (IH Hc). split; [by right | done].
Qed.

Lemma child_at_None h l i c :
  child_at h l i = None → c ∈ l → index_of h c ≠ Some i.
Proof.
  induction l as [|a l IH]; intros Hnone Hc; [by apply elem_of_nil in Hc|].
  cbn [child_at] in Hnone.
  destruct (decide (index_of h a = Some i)) as [Ha|Ha]; [done|].
  apply elem_of_cons in Hc as [->|Hc]; [done | by apply IH].
Qed.


Lemma node_on_edge_walk (s : State) (i : Z) :
  ∀ p l, chain (heap s) p l →
  ascending (heap s) l →
  ∀ node fuel,
    load node s = Ok (p, s) →
    (length l ≤ fuel)%nat →
    (find_slot fuel node i ≫= λ slot, node_at_slot slot i) s =
      Ok (child_at (heap s) l i, s).
Proof.
  induction 1 as [|a nd l Ha Hl IH]; intros Hasc node fuel Hload Hfuel.
  - destruct fuel; cbn [find_slot]; rewrite bind_assoc;
      rewrite (bind_Ok _ _ _ _ _ Hload); mstep;
      unfold node_at_slot; by rewrite (bind_Ok _ _ _ _ _ Hload).
  - destruct fuel as [|fuel]; [cbn in Hfuel; lia|].
    apply StronglySorted_inv in Hasc as [Hasc Hall].
    assert (index_of (heap s) a = Some (index_ nd)) as Hidx.
    { unfold index_of. by rewrite Ha. }
    cbn [find_slot child_at]. rewrite bind_assoc.
    rewrite (bind_Ok _ _ _ _ _ Hload). mstep.
    destruct (decide (index_ nd < i)) as [Hlt|Hge].
    + rewrite bool_decide_eq_true_2 by done.
      rewrite decide_False by (rewrite Hidx; intros [= ?]; lia).
      apply IH; [done| |cbn in Hfuel; lia].
      by apply load_sibling.
    + rewrite bool_decide_eq_false_2 by done. mstep.
      unfold node_at_slot. rewrite (bind_Ok _ _ _ _ _ Hload). mstep.
      destruct (decide (index_ nd = i)) as [Heq|Hne].
      * rewrite bool_decide_eq_true_2 by done.
        by rewrite decide_True by by rewrite Hidx, Heq.
      * rewrite bool_decide_eq_false_2 by done.
        rewrite decide_False by (rewrite Hidx; intros [= ?]; lia).
        destruct (child_at (heap s) l i) as [c|] eqn:Hc; [|done].
        apply child_at_Some in Hc as [Hc Hi].
        rewrite Forall_forall in Hall.
        destruct (Hall c Hc) as (x & y & Hx & Hy & Hxy).
        rewrite Hidx in Hx. injection Hx as <-.
        rewrite Hi in Hy. injection Hy as <-. lia.
Qed.

Lemma node_on_edge_run (s : State) (this : addr) (nd : Node) (l : list addr)
    (i : Z) :
  heap s !! this = Some nd →
  chain (heap s) (child_ nd) l →
  ascending (heap s) l →
  node_on_edge this i s = Ok (child_at (heap s) l i, s).
Proof.
  intros Hnd Hl Hasc. unfold node_on_edge. rewrite bind_with_fuel.
  apply node_on_edge_walk with (p := child_ nd); [done..| |].
  - by apply load_child.
  - pose proof (chain_length _ _ _ Hl). lia.
Qed.

(** ** Training data *)

Lemma apply_writes_snoc probs ws w :
  apply_writes probs (ws ++ [w]) =
    <[Z.to_nat w.1 := w.2]> (apply_writes probs ws).
Proof. unfold apply_writes. by rewrite foldl_app. Qed.

Lemma apply_writes_length probs ws :
  length (apply_writes probs ws) = length probs.
Proof.
  induction ws as [|w ws IH] using rev_ind; [done|].
  by rewrite apply_writes_snoc, length_insert.
Qed.

Lemma Forall_snoc_inv {A} (P : A → Prop) (l : list A) (x : A) :
  Forall P (l ++ [x]) → Forall P l ∧ P x.
Proof. intros [Hl Hx]%Forall_app. split; [done|]. by inversion Hx. Qed.

Lemma apply_writes_Forall (P : Float → Prop) probs ws :
  Forall P probs → Forall (λ w, P w.2) ws → Forall P (apply_writes probs ws).
Proof.
  intros Hprobs. induction ws as [|w ws IH] using rev_ind; [done|].
  intros [Hws Hw]%Forall_snoc_inv. rewrite apply_writes_snoc.
  apply Forall_insert; [by apply IH | done].
Qed.

Lemma apply_writes_written (P : Float → Prop) probs ws z x :
  Forall (λ w, 0 ≤ w.1 < Z.of_nat (length probs)) ws →
  Forall (λ w, P w.2) ws →
  (z, x) ∈ ws →
  ∃ y, apply_writes probs ws !! Z.to_nat z = Some y ∧ P y.
Proof.
  induction ws as [|w ws IH] using rev_ind; intros Hrange HP Hin;
    [by apply elem_of_nil in Hin|].
  apply Forall_snoc_inv in Hrange as [Hrange Hw].
  apply Forall_snoc_inv in HP as [HP HPw].
  rewrite apply_writes_snoc.
  destruct (decide (Z.to_nat w.1 = Z.to_nat z)) as [Heq|Hne].
  - exists w.2. split; [|done]. rewrite <-Heq.
    apply list_lookup_insert_eq. rewrite apply_writes_length. lia.
  - rewrite list_lookup_insert_ne by done. apply IH; [done..|].
    apply elem_of_app in Hin as [Hin|Hin]; [done|].
    apply list_elem_of_singleton in Hin. by subst w.
Qed.


Section training_properties.
Context `{External}.

Lemma prob_writes_fst h l total_n edges i :
  (prob_writes h l total_n edges i).*1 =
    (λ e, as_nn_index (move_ e)) <$> edges.
Proof.
  revert i. induction edges as [|e edges IH]; intros i; [done|].
  cbn. by rewrite IH.
Qed.

Lemma prob_writes_lookup h l total_n edges i (k : nat) e :
  edges !! k = Some e →
  prob_writes h l total_n edges i !! k =
    Some (as_nn_index (move_ e),
          fdiv (of_Z (edge_visits h l (i + Z.of_nat k))) total_n).
Proof.
  revert i k. induction edges as [|e' edges IH]; intros i k Hk; [done|].
  destruct k as [|k].
  - injection Hk as ->. cbn [prob_writes]. by rewrite Z.add_0_r.
  - change (edges !! k = Some e) in Hk.
    change (prob_writes h l total_n edges (i + 1) !! k =
            Some (as_nn_index (move_ e),
                  fdiv (of_Z (edge_visits h l (i + Z.of_nat (S k)))) total_n)).
    rewrite (IH (i + 1) k Hk).
    by replace (i + 1 + Z.of_nat k) with (i + Z.of_nat (S k)) by lia.
Qed.

Lemma prob_writes_snd (P : Float → Prop) h l total_n edges i :
  (∀ n, P (fdiv (of_Z n) total_n)) →
  Forall (λ w, P w.2) (prob_writes h l total_n edges i).
Proof.
  intros HP. revert i.
  induction edges as [|e edges IH]; intros i; constructor; [apply HP|apply IH].
Qed.

Lemma EdgeAndNode_GetN_run (s : State) (p : option addr) (l : list addr)
    (i : Z) :
  chain (heap s) p l →
  EdgeAndNode_GetN (child_at (heap s) l i) s =
    Ok (edge_visits (heap s) l i, s).
Proof.
  intros Hl. unfold edge_visits, EdgeAndNode_GetN.
  destruct (child_at (heap s) l i) as [c|] eqn:Hc; [|done].
  apply child_at_Some in Hc as [Hc _].
  destruct (chain_lookup _ _ _ _ Hl Hc) as [ndc Hndc].
  mstep. by rewrite Hndc.
Qed.

Lemma fill_probabilities_run (s : State) (this : addr) (nd : Node)
    (l : list addr) (total_n : Float) :
  heap s !! this = Some nd →
  chain (heap s) (child_ nd) l →
  ascending (heap s) l →
  ∀ edges i probs,
    Forall (λ e, 0 ≤ as_nn_index (move_ e) < Z.of_nat (length probs)) edges →
    fill_probabilities this total_n edges i probs s =
      Ok (apply_writes probs (prob_writes (heap s) l total_n edges i), s).
Proof.
  intros Hnd Hl Hasc.
  induction edges as [|e edges IH]; intros i probs Hrange; [done|].
  apply Forall_cons in Hrange as [He Hrange].
  cbn [fill_probabilities prob_writes].
  rewrite (bind_Ok _ _ _ _ _ (node_on_edge_run _ _ _ _ i Hnd Hl Hasc)).
  rewrite (bind_Ok _ _ _ _ _ (EdgeAndNode_GetN_run _ _ _ i Hl)).
  unfold array_write at 1. cbn [Edge_GetMove negb].
  rewrite bool_decide_eq_true_2 by done. mstep.
  rewrite IH; [done|]. by rewrite length_insert.
Qed.

Lemma planes_run (s : State) (input : list Z) (idxs : list nat) :
  (∀ i, i ∈ idxs → (i < length input)%nat) →
  ∃ pls,
    mapM (λ plane_idx,
       match input !! plane_idx with
       | Some mask => mret (ReverseBitsInBytes mask)
       | None => fail Undefined
       end) idxs s = Ok (pls, s).
Proof.
  induction idxs as [|i idxs IH]; intros Hin; [by eexists|].
  destruct IH as [pls Hpls]; [intros j Hj; apply Hin; by right|].
  destruct (lookup_lt_is_Some_2 input i) as [mask Hmask];
    [apply Hin; by left|].
  eexists. cbn [mapM]. rewrite Hmask. mstep.
  rewrite (bind_Ok _ _ _ _ _ Hpls). done.
Qed.

Lemma GetV3TrainingData_run (s : State) (this : addr) (nd : Node)
    (l : list addr) (game_result : GameResult) (history : list Position)
    (position : Position) :
  heap s !! this = Some nd →
  chain (heap s) (child_ nd) l →
  ascending (heap s) l →
  Forall (λ e, 0 ≤ as_nn_index (move_ e) < Z.of_nat kNumProbabilities)
    (edges_ nd) →
  (kNumPlanes ≤ length (EncodePositionForNN history 8))%nat →
  last history = Some position →
  ∃ r,
    GetV3TrainingData this game_result history s = Ok (r, s) ∧
    version r = 3 ∧
    move_count r = 0 ∧
    probabilities r =
      apply_writes (replicate kNumProbabilities fzero)
        (prob_writes (heap s) l (of_Z (n_ nd - 1)) (edges_ nd) 0) ∧
    result r =
      (if decide (game_result = WHITE_WON) then
         if IsBlackToMove position then -1 else 1
       else if decide (game_result = BLACK_WON) then
         if IsBlackToMove position then 1 else -1
       else 0).
Proof.
  intros Hnd Hl Hasc Hrange Hplanes Hlast.
  destruct (planes_run s (EncodePositionForNN history 8) (seq 0 kNumPlanes))
    as [pls Hpls].
  { intros i Hi%elem_of_seq. lia. }
  eexists. split.
  - unfold GetV3TrainingData. mstep.
    erewrite bind_Ok; cycle 1.
    { eapply fill_probabilities_run; [done..|].
      by rewrite length_replicate. }
    rewrite (bind_Ok _ _ _ _ _ Hpls).
    unfold Last. rewrite Hlast. by mstep.
  - done.
Qed.
End training_properties.

Lemma of_Z_div (a b : Z) :
  b ≠ 0 → fdiv (of_Z a) (of_Z b) = Finite (Qc_of_Z a / Qc_of_Z b)%Qc.
Proof.
  intros Hb. unfold fdiv, of_Z.
  destruct (decide (Qc_of_Z b = 0%Qc)) as [Hz|_]; [|done].
  by apply Qc_of_Z_nonzero in Hz.
Qed.

Lemma of_Z_div_zero (a : Z) : fdiv (of_Z a) (of_Z 0) = NonFinite.
Proof.
  unfold fdiv, of_Z. rewrite decide_True; [done|]. apply Z2Qc_inj_0.
Qed.

Section training_theorems.
Context `{External}.


(** C10. The loop of [GetV3TrainingData] divides by [head.n - 1] without
    looking at it.  The divisor is zero exactly when [head.n = 1]; then
    every entry written for an edge is not a number.  For [head.n] of 2 or
    more the divisor is not zero and every entry of [probabilities] is a
    finite number. *)
Theorem GetV3TrainingData_divisor (s : State) (this : addr) (nd : Node)
    (l : list addr) (game_result : GameResult) (history : list Position)
    (position : Position) :
  heap s !! this = Some nd →
  chain (heap s) (child_ nd) l →
  ascending (heap s) l →
  Forall (λ e, 0 ≤ as_nn_index (move_ e) < Z.of_nat kNumProbabilities)
    (edges_ nd) →
  (kNumPlanes ≤ length (EncodePositionForNN history 8))%nat →
  last history = Some position →
  ∃ r,
    GetV3TrainingData this game_result history s = Ok (r, s) ∧
    (of_Z (n_ nd - 1) = of_Z 0 ↔ n_ nd = 1) ∧
    (n_ nd = 1 →
     ∀ e, e ∈ edges_ nd →
       probabilities r !! Z.to_nat (as_nn_index (move_ e)) = Some NonFinite) ∧
    (2 ≤ n_ nd →
     ∀ j x, probabilities r !! j = Some x → ∃ q, x = Finite q).
Proof.
  intros Hnd Hl Hasc Hrange Hplanes Hlast.
  destruct (GetV3TrainingData_run s this nd l game_result history position)
    as (r & Hrun & Hv & Hm & Hp & Hr); [done..|].
  exists r. split; [done|]. split; [|split].
  - split; [intros Heq%of_Z_inj; lia | intros ->; done].
  - intros Hn e He. rewrite Hp, Hn. change (1 - 1) with 0.
    destruct (apply_writes_written (λ x, x = NonFinite)
                (replicate kNumProbabilities fzero)
                (prob_writes (heap s) l (of_Z 0) (edges_ nd) 0)
                (as_nn_index (move_ e))
                (fdiv (of_Z (edge_visits (heap s) l 0)) (of_Z 0)))
      as (y & Hy & ->); [| | |done].
    + rewrite length_replicate. apply Forall_forall. intros w Hin.
      assert (w.1 ∈ (prob_writes (heap s) l (of_Z 0) (edges_ nd) 0).*1) as Hw.
      { apply list_elem_of_fmap. by exists w. }
      rewrite prob_writes_fst in Hw.
      apply list_elem_of_fmap in Hw as (e' & -> & He').
      rewrite Forall_forall in Hrange. by apply Hrange.
    + apply (prob_writes_snd (λ x, x = NonFinite)). intros n.
      apply of_Z_div_zero.
    + apply list_elem_of_lookup in He as [k Hk].
      apply list_elem_of_lookup. exists k.
      rewrite (prob_writes_lookup _ _ _ _ _ _ _ Hk).
      by rewrite !of_Z_div_zero.
  - intros Hn j x Hj. rewrite Hp in Hj.
    assert (Forall (λ x, ∃ q, x = Finite q)
              (apply_writes (replicate kNumProbabilities fzero)
                 (prob_writes (heap s) l (of_Z (n_ nd - 1)) (edges_ nd) 0)))
      as Hall.
    { apply apply_writes_Forall.
      - apply Forall_replicate. by eexists.
      - apply (prob_writes_snd (λ x, ∃ q, x = Finite q)). intros n.
        rewrite of_Z_div by lia. by eexists. }
    rewrite Forall_forall in Hall. apply Hall.
    by eapply list_elem_of_lookup_2.
Qed.
End training_theorems.

Ltac solve_index_lt :=
  eexists _, _; split; [reflexivity|]; split; [reflexivity|];
  vm_compute; reflexivity.

Lemma ex_family_chain :
  chain (heap ex_family) (child_ ex_head) [2; 3; 4]%positive.
Proof. repeat (econstructor; [reflexivity|]). constructor. Qed.

Lemma ex_family_ascending : ascending (heap ex_family) [2; 3; 4]%positive.
Proof.
  repeat (apply SSorted_cons); [apply SSorted_nil|..];
    repeat (apply List.Forall_cons); try apply List.Forall_nil;
    solve_index_lt.
Qed.



Lemma GetV3TrainingData_divisor_witness :
  (∃ r,
     GetV3TrainingData (H := ex_external) 1 DRAW [true] ex_expanded =
       Ok (r, ex_expanded) ∧
     probabilities r !! 0%nat = Some NonFinite ∧
     probabilities r !! 1%nat = Some NonFinite) ∧
  (∃ r,
     GetV3TrainingData (H := ex_external) 1 DRAW [true] ex_family =
       Ok (r, ex_family) ∧
     ∀ j x, probabilities r !! j = Some x → ∃ q, x = Finite q).
Proof.
  split.
  - destruct (GetV3TrainingData_divisor (H := ex_external) ex_expanded 1
                (set_edges (EdgeList_of (mkMove <$> [100; 101]))
                   (set_n 1 (Node_new None 0)))
                [] DRAW [true] true)
      as (r & Hrun & _ & Hone & _).
    + reflexivity.
    + constructor.
    + apply SSorted_nil.
    + repeat (apply List.Forall_cons; [cbn; lia|]). apply List.Forall_nil.
    + cbn. lia.
    + reflexivity.
    + exists r. split; [done|]. split.
      * apply (Hone eq_refl (mkEdge (mkMove 100) fzero)). by left.
      * apply (Hone eq_refl (mkEdge (mkMove 101) fzero)). right. by left.
  - destruct (GetV3TrainingData_divisor (H := ex_external) ex_family 1 ex_head
                [2; 3; 4]%positive DRAW [true] true)
      as (r & Hrun & _ & _ & Hfin).
    + reflexivity.
    + exact ex_family_chain.
    + exact ex_family_ascending.
    + repeat (apply List.Forall_cons; [cbn; lia|]). apply List.Forall_nil.
    + cbn. lia.
    + reflexivity.
    + exists r. split; [done|]. apply Hfin. cbn. lia.
Defined.

(** ** Spawning the node of an edge *)

Lemma store_loc s l nd p :
  heap s !! loc_addr l = Some nd →
  store l p s =
    Ok ((), mkState (<[loc_addr l := loc_set l p nd]> (heap s))
              (subtrees_to_gc_ s)).
Proof. destruct l; [apply store_child | apply store_sibling]. Qed.

Lemma move_from_loc s l nd :
  heap s !! loc_addr l = Some nd →
  move_from l s =
    Ok (loc_get l nd,
        mkState (<[loc_addr l := loc_set l None nd]> (heap s))
          (subtrees_to_gc_ s)).
Proof. destruct l; [apply move_from_child | apply move_from_sibling]. Qed.

Lemma load_inv s l p :
  load l s = Ok (p, s) →
  ∃ nd, heap s !! loc_addr l = Some nd ∧ loc_get l nd = p.
Proof.
  unfold load, mbind, M_bind, deref. destruct l as [a|a]; cbn [loc_addr];
    destruct (heap s !! a) as [nd|]; [|done| |done];
    intros [= <-]; by exists nd.
Qed.

(** The walk of the edge view stops behind the children on earlier edges. *)
Lemma find_slot_run (s : State) (i : Z) (l2 : list addr) :
  ∀ l1 p node fuel,
    chain (heap s) p (l1 ++ l2) →
    load node s = Ok (p, s) →
    Forall (index_below (heap s) i) l1 →
    Forall (index_from (heap s) i) l2 →
    (length l1 ≤ fuel)%nat →
    find_slot fuel node i s = Ok (slot_before node l1, s).
Proof.
  induction l1 as [|a l1 IH]; intros p node fuel Hl Hload Hbelow Hfrom Hfuel.
  - cbn [app slot_before] in *.
    destruct Hl as [|a nd l Ha Hl].
    + destruct fuel; cbn [find_slot]; by rewrite (bind_Ok _ _ _ _ _ Hload).
    + apply Forall_cons in Hfrom as [(x & Hx & Hix) _].
      unfold index_of in Hx. rewrite Ha in Hx. injection Hx as <-.
      destruct fuel; cbn [find_slot]; rewrite (bind_Ok _ _ _ _ _ Hload);
        mstep; by rewrite bool_decide_eq_false_2 by lia.
  - inversion Hl as [|? nd ? Ha Hl']; subst.
    apply Forall_cons in Hbelow as [(x & Hx & Hxi) Hbelow].
    unfold index_of in Hx. rewrite Ha in Hx. injection Hx as <-.
    destruct fuel as [|fuel]; [cbn in Hfuel; lia|].
    cbn [find_slot slot_before]. rewrite (bind_Ok _ _ _ _ _ Hload). mstep.
    rewrite bool_decide_eq_true_2 by done.
    eapply IH; [done| |done|done|cbn in Hfuel; lia].
    by apply load_sibling.
Qed.

Lemma load_slot_before (s : State) (l2 : list addr) :
  ∀ l1 p node,
    chain (heap s) p (l1 ++ l2) →
    load node s = Ok (p, s) →
    ∃ p2, load (slot_before node l1) s = Ok (p2, s) ∧ chain (heap s) p2 l2.
Proof.
  induction l1 as [|a l1 IH]; intros p node Hl Hload; [by exists p|].
  inversion Hl as [|? nd ? Ha Hl']; subst.
  cbn [slot_before]. eapply IH; [done|]. by apply load_sibling.
Qed.

Lemma slot_before_addr (this : addr) (l1 : list addr) :
  loc_addr (slot_before (child_of this) l1) = default this (last l1).
Proof.
  destruct (last l1) as [b|] eqn:Hlast.
  - by rewrite (slot_before_last _ _ _ Hlast).
  - apply last_None in Hlast. by subst.
Qed.

Lemma ascending_app_r h l1 l2 : ascending h (l1 ++ l2) → ascending h l2.
Proof.
  induction l1 as [|a l1 IH]; [done|].
  intros [Hasc _]%StronglySorted_inv. by apply IH.
Qed.

Lemma ascending_split h p l i :
  chain h p l →
  ascending h l →
  ∃ l1 l2, l = l1 ++ l2 ∧ Forall (index_below h i) l1 ∧
           Forall (index_from h i) l2.
Proof.
  induction 1 as [|a nd l Ha Hl IH]; intros Hasc.
  - by exists [], [].
  - apply StronglySorted_inv in Hasc as [Hasc Hall].
    assert (index_of h a = Some (index_ nd)) as Hidx.
    { unfold index_of. by rewrite Ha. }
    destruct (decide (index_ nd < i)) as [Hlt|Hge].
    + destruct (IH Hasc) as (l1 & l2 & -> & H1 & H2).
      exists (a :: l1), l2. split; [done|]. split; [|done].
      constructor; [|done]. by exists (index_ nd).
    + exists [], (a :: l). split; [done|]. split; [done|].
      constructor; [exists (index_ nd); split; [done|lia]|].
      rewrite Forall_forall in Hall. apply Forall_forall. intros c Hc.
      destruct (Hall c Hc) as (x & y & Hx & Hy & Hxy).
      rewrite Hidx in Hx. injection Hx as <-. exists y. split; [done|lia].
Qed.

(** In an ascending chain the child of the edge at [i], if there is one, is
    the first of the children that are not on earlier edges. *)
Lemma ascending_first h l1 l2 i c :
  ascending h (l1 ++ l2) →
  Forall (index_below h i) l1 →
  Forall (index_from h i) l2 →
  c ∈ l1 ++ l2 →
  index_of h c = Some i →
  ∃ l2', l2 = c :: l2'.
Proof.
  intros Hasc H1 H2 Hc Hi. apply elem_of_app in Hc as [Hc|Hc].
  { rewrite Forall_forall in H1. destruct (H1 c Hc) as (x & Hx & Hlt).
    rewrite Hi in Hx. injection Hx as <-. lia. }
  apply ascending_app_r in Hasc.
  destruct l2 as [|c' l2']; [by apply elem_of_nil in Hc|].
  apply elem_of_cons in Hc as [->|Hc]; [by eexists|].
  apply StronglySorted_inv in Hasc as [_ Hall].
  rewrite Forall_forall in Hall.
  destruct (Hall c Hc) as (x & y & Hx & Hy & Hxy).
  apply Forall_cons in H2 as [(x' & Hx' & Hix) _].
  rewrite Hx in Hx'. injection Hx' as <-.
  rewrite Hi in Hy. injection Hy as <-. lia.
Qed.

Lemma loc_set_set l p q nd : loc_set l p (loc_set l q nd) = loc_set l p nd.
Proof. by destruct l. Qed.

Lemma GetOrSpawnNode_existing (s : State) (this : addr) (nd : Node)
    (l1 : list addr) (c : addr) (l2 : list addr) (i : Z) :
  heap s !! this = Some nd →
  chain (heap s) (child_ nd) (l1 ++ c :: l2) →
  Forall (index_below (heap s) i) l1 →
  Forall (index_from (heap s) i) (c :: l2) →
  index_of (heap s) c = Some i →
  GetOrSpawnNode this i s = Ok (c, s).
Proof.
  intros Hnd Hl H1 H2 Hi.
  pose proof (load_child _ _ _ Hnd) as Hload.
  destruct (load_slot_before s (c :: l2) l1 _ _ Hl Hload) as (p2 & Hload2 & Hl2).
  apply chain_head in Hl2 as Hp2. cbn [head] in Hp2. subst p2.
  destruct (chain_lookup _ _ _ c Hl2) as [ndc Hc]; [by left|].
  unfold index_of in Hi. rewrite Hc in Hi. injection Hi as Hi.
  unfold GetOrSpawnNode. rewrite bind_with_fuel.
  erewrite bind_Ok; cycle 1.
  { eapply find_slot_run; [done..|].
    pose proof (chain_length _ _ _ Hl) as Hlen.
    rewrite length_app in Hlen. lia. }
  unfold node_at_slot. rewrite bind_assoc.
  rewrite (bind_Ok _ _ _ _ _ Hload2). rewrite bind_assoc. mstep.
  rewrite bool_decide_eq_true_2 by done. by mstep.
Qed.

Lemma GetOrSpawnNode_new (s : State) (this : addr) (nd : Node)
    (l1 l2 : list addr) (i : Z) :
  heap s !! this = Some nd →
  chain (heap s) (child_ nd) (l1 ++ l2) →
  Forall (index_below (heap s) i) l1 →
  Forall (index_from (heap s) i) l2 →
  (∀ c, head l2 = Some c → index_of (heap s) c ≠ Some i) →
  GetOrSpawnNode this i s =
    Ok (fresh (dom (heap s)),
        mkState (spawned_heap (heap s) this l1 (fresh (dom (heap s))) i (head l2))
          (subtrees_to_gc_ s)).
Proof.
  intros Hnd Hl H1 H2 Hnone.
  pose proof (load_child _ _ _ Hnd) as Hload.
  destruct (load_slot_before s l2 l1 _ _ Hl Hload) as (p2 & Hload2 & Hl2).
  apply chain_head in Hl2 as Hp2. subst p2.
  destruct (load_inv _ _ _ Hload2) as (nds & Hs & Hget).
  set (slot := slot_before (child_of this) l1) in *.
  set (a := fresh (dom (heap s))).
  assert (heap s !! a = None) as Ha.
  { apply not_elem_of_dom. apply is_fresh. }
  assert (loc_addr slot ≠ a) as Hsa by congruence.
  unfold GetOrSpawnNode. rewrite bind_with_fuel.
  erewrite bind_Ok; cycle 1.
  { eapply find_slot_run; [done..|].
    pose proof (chain_length _ _ _ Hl) as Hlen.
    rewrite length_app in Hlen. lia. }
  fold slot.
  erewrite bind_Ok; cycle 1.
  { unfold node_at_slot. rewrite (bind_Ok _ _ _ _ _ Hload2).
    destruct (head l2) as [c|] eqn:Hhead; [|reflexivity].
    destruct (chain_lookup _ _ _ c Hl2) as [ndc Hc].
    { apply head_Some in Hhead as [l2' ->]. by left. }
    mstep. rewrite bool_decide_eq_false_2; [reflexivity|].
    intros Heq. apply (Hnone c eq_refl). unfold index_of.
    by rewrite Hc, <-Heq. }
  cbv beta iota.
  rewrite (bind_Ok _ _ _ _ _ (move_from_loc _ _ _ Hs)).
  erewrite bind_Ok; cycle 1.
  { unfold make_unique. cbn [heap subtrees_to_gc_].
    rewrite dom_insert_L, subseteq_union_1_L; [reflexivity|].
    apply singleton_subseteq_l. by eapply elem_of_dom_2. }
  fold a.
  erewrite bind_Ok; cycle 1.
  { apply store_loc. cbn [heap].
    rewrite lookup_insert_ne, lookup_insert_eq by done. reflexivity. }
  erewrite bind_Ok; cycle 1.
  { apply store_sibling. cbn [heap].
    rewrite lookup_insert_ne, lookup_insert_eq by done. reflexivity. }
  cbn [heap subtrees_to_gc_]. unfold mret, M_ret. do 2 f_equal. f_equal.
  unfold spawned_heap. fold slot. fold a.
  rewrite (alter_alt_Some _ _ _ _ Hs), ?Hget, ?loc_set_set.
  rewrite (insert_insert_ne _ (loc_addr slot) a) by done.
  by rewrite !insert_insert_eq.
Qed.

Lemma chain_app_r h p l1 l2 : chain h p (l1 ++ l2) → chain h (head l2) l2.
Proof.
  revert p. induction l1 as [|a l1 IH]; intros p Hl.
  - apply chain_head in Hl as Hp. by subst p.
  - inversion Hl; subst. by eapply IH.
Qed.

(** Relinking a chain behind its first part: when the last node [b] of the
    first part is made to point to [q], the first part is followed by the
    chain of [q]. *)
Lemma chain_relink h h' (rest rest' : list addr) (q : option addr) :
  ∀ l1 a b,
    chain h (Some a) ((a :: l1) ++ rest) →
    NoDup (a :: l1) →
    last (a :: l1) = Some b →
    (∀ c, c ∈ a :: l1 → c ≠ b →
       sibling_ <$> h' !! c = sibling_ <$> h !! c) →
    sibling_ <$> h' !! b = Some q →
    chain h' q rest' →
    chain h' (Some a) ((a :: l1) ++ rest').
Proof.
  induction l1 as [|a1 l1 IH]; intros a b Hl Hdup Hlast Hagree Hb Hq.
  - injection Hlast as <-.
    destruct (h' !! a) as [nd'|] eqn:Ha'; [|done]. injection Hb as Hb.
    econstructor; [done|]. by rewrite Hb.
  - inversion Hl as [|? nd ? Ha Hl']; subst.
    assert (sibling_ nd = Some a1) as Hsib by by inversion Hl'.
    rewrite Hsib in Hl'.
    apply NoDup_cons in Hdup as [Hnin Hdup].
    assert (a ≠ b) as Hab.
    { intros ->. apply Hnin.
      change (last (a1 :: l1) = Some b) in Hlast.
      by apply last_Some_elem_of. }
    pose proof (Hagree a ltac:(left) Hab) as Hsa. rewrite Ha in Hsa.
    destruct (h' !! a) as [nd'|] eqn:Ha'; [|done]. injection Hsa as Hsa.
    change (chain h' (Some a) (a :: ((a1 :: l1) ++ rest'))).
    econstructor; [done|]. rewrite Hsa, Hsib.
    apply (IH a1 b); [done|done|done| |done|done].
    intros c Hc. apply Hagree. by right.
Qed.

(** The store after a node has been spawned behind the children [l1]. *)
Lemma spawned_lookup_new h this l1 c i rest :
  spawned_heap h this l1 c i rest !! c =
    Some (set_sibling rest (Node_new (Some this) i)).
Proof. apply lookup_insert_eq. Qed.

Lemma spawned_lookup_other h this l1 c i rest x :
  x ≠ c → x ≠ default this (last l1) →
  spawned_heap h this l1 c i rest !! x = h !! x.
Proof.
  intros Hc Hs. unfold spawned_heap.
  rewrite lookup_insert_ne by done.
  rewrite lookup_alter_ne; [done|]. by rewrite slot_before_addr.
Qed.

Lemma spawned_payload h this l1 c i rest x ndx :
  h !! c = None →
  h !! x = Some ndx →
  ∃ ndx', spawned_heap h this l1 c i rest !! x = Some ndx' ∧
          same_payload ndx ndx'.
Proof.
  intros Hc Hx. unfold spawned_heap.
  rewrite lookup_insert_ne by congruence.
  destruct (decide (x = loc_addr (slot_before (child_of this) l1))) as [->|Hne].
  - rewrite lookup_alter_eq, Hx. eexists. split; [done|].
    by destruct (slot_before (child_of this) l1).
  - rewrite lookup_alter_ne, Hx by done. eexists. split; [done|].
    by repeat split.
Qed.

Lemma spawned_chain h this nd l1 l2 c i :
  h !! this = Some nd →
  chain h (child_ nd) (l1 ++ l2) →
  this ∉ l1 ++ l2 →
  h !! c = None →
  ∃ nd1,
    spawned_heap h this l1 c i (head l2) !! this = Some nd1 ∧
    same_payload nd nd1 ∧
    chain (spawned_heap h this l1 c i (head l2)) (child_ nd1) (l1 ++ c :: l2).
Proof.
  intros Hnd Hl Hthis Hc.
  pose proof (chain_NoDup _ _ _ Hl) as Hdup.
  apply NoDup_app in Hdup as (Hd1 & Hdis & Hd2).
  assert (c ≠ this) as Hct by congruence.
  assert (∀ x, x ∈ l1 ++ l2 → x ≠ c) as Hfresh.
  { intros x Hx ->. destruct (chain_lookup _ _ _ _ Hl Hx). congruence. }
  set (h1 := spawned_heap h this l1 c i (head l2)).
  assert (chain h1 (Some c) (c :: l2)) as Hnew.
  { econstructor; [apply spawned_lookup_new|]. cbn [sibling_ set_sibling].
    eapply chain_ext; [by eapply chain_app_r|].
    intros x Hx. unfold h1. f_equal. apply spawned_lookup_other.
    - apply Hfresh, elem_of_app. by right.
    - destruct (last l1) as [b|] eqn:Hlast; cbn.
      + intros ->. apply (Hdis b); [by apply last_Some_elem_of | done].
      + intros ->. apply Hthis, elem_of_app. by right. }
  destruct l1 as [|a0 l1'] eqn:Hl1.
  - (* the new node becomes the first child *)
    exists (set_child (Some c) nd). split; [|split; [by repeat split | done]].
    unfold h1, spawned_heap. cbn [slot_before loc_addr loc_set].
    by rewrite lookup_insert_ne, lookup_alter_eq, Hnd by done.
  - (* the new node follows [b], the last child on an earlier edge *)
    subst h1. rewrite <-Hl1 in *.
    assert (is_Some (last l1)) as [b Hlast].
    { apply last_is_Some. by rewrite Hl1. }
    assert (b ∈ l1) as Hbin by by apply last_Some_elem_of.
    assert (b ≠ this) as Hbt.
    { intros ->. apply Hthis, elem_of_app. by left. }
    destruct (chain_lookup _ _ _ b Hl) as [ndb Hb].
    { apply elem_of_app. by left. }
    assert (child_ nd = Some a0) as Hchild.
    { apply chain_head in Hl. by rewrite Hl, Hl1. }
    exists nd. split; [|split; [by repeat split|]].
    { rewrite spawned_lookup_other; [done|done|].
      rewrite Hlast. cbn. congruence. }
    rewrite Hchild. rewrite Hl1 at 2.
    apply (chain_relink h _ l2 (c :: l2) (Some c) l1' a0 b).
    + by rewrite <-Hchild, <-Hl1.
    + by rewrite <-Hl1.
    + by rewrite <-Hl1.
    + intros x Hx Hxb. rewrite <-Hl1 in Hx. f_equal.
      apply spawned_lookup_other.
      * apply Hfresh, elem_of_app. by left.
      * by rewrite Hlast.
    + unfold spawned_heap. rewrite (slot_before_last _ _ _ Hlast).
      cbn [loc_addr loc_set].
      rewrite lookup_insert_ne by (apply not_eq_sym, Hfresh, elem_of_app; by left).
      by rewrite lookup_alter_eq, Hb.
    + done.
Qed.

(** ** Playing a move *)

Lemma CreateSingleChildNode_run (s : State) (this : addr) (nd : Node)
    (move : Move) :
  heap s !! this = Some nd →
  edges_ nd = [] →
  child_ nd = None →
  CreateSingleChildNode this move s =
    Ok (fresh (dom (heap s)),
        mkState
          (<[this := set_child (Some (fresh (dom (heap s))))
                       (set_edges (EdgeList_of [move]) nd)]>
             (<[fresh (dom (heap s)) := Node_new (Some this) 0]> (heap s)))
          (subtrees_to_gc_ s)).
Proof.
  intros Hnd He Hc. unfold CreateSingleChildNode. mstep.
  unfold assert. rewrite !bool_decide_eq_true_2 by done. do 3 mstep.
  assert (heap s !! fresh (dom (heap s)) = None) as Ha.
  { apply not_elem_of_dom, is_fresh. }
  assert (this ≠ fresh (dom (heap s))) as Hne by congruence.
  erewrite bind_Ok; cycle 1.
  { unfold make_unique. cbn [heap subtrees_to_gc_].
    rewrite dom_insert_L, subseteq_union_1_L; [reflexivity|].
    apply singleton_subseteq_l. by eapply elem_of_dom_2. }
  mstep. unfold mret, M_ret. do 3 f_equal.
  rewrite (insert_insert_ne _ (fresh (dom (heap s))) this) by done.
  by rewrite !insert_insert_eq.
Qed.

Lemma CreateSingleChildNode_expanded (s : State) (this : addr) (nd : Node)
    (move : Move) :
  heap s !! this = Some nd →
  edges_ nd ≠ [] →
  CreateSingleChildNode this move s = Err AssertionFailed.
Proof.
  intros Hnd He. unfold CreateSingleChildNode. mstep.
  apply bind_Err. unfold assert. by rewrite bool_decide_eq_false_2.
Qed.

Section make_move.
Context `{External}.

Lemma find_new_head_none (head : addr) (move : Move) (s : State) :
  ∀ edges i,
    (∀ e, e ∈ edges → move_ e ≠ move) →
    find_new_head head edges i move s = Ok (None, s).
Proof.
  induction edges as [|e edges IH]; intros i Hno; [done|].
  cbn [find_new_head Edge_GetMove negb].
  rewrite bool_decide_eq_false_2 by (apply Hno; by left).
  apply IH. intros e' He'. apply Hno. by right.
Qed.

Lemma find_new_head_match (head : addr) (move : Move) (s : State) (e : Edge)
    (es2 : list Edge) :
  ∀ es1 i,
    (∀ e', e' ∈ es1 → move_ e' ≠ move) →
    move_ e = move →
    find_new_head head (es1 ++ e :: es2) i move s =
      (c ← GetOrSpawnNode head (i + Z.of_nat (length es1)); mret (Some c)) s.
Proof.
  induction es1 as [|e1 es1 IH]; intros i Hno He.
  - cbn [app find_new_head Edge_GetMove negb length].
    rewrite bool_decide_eq_true_2 by done. by rewrite Z.add_0_r.
  - cbn [app find_new_head Edge_GetMove negb].
    rewrite bool_decide_eq_false_2 by (apply Hno; by left).
    rewrite IH; [|intros e' He'; apply Hno; by right | done].
    by replace (i + 1 + Z.of_nat (length es1))
      with (i + Z.of_nat (length (e1 :: es1))) by (cbn [length]; lia).
Qed.

(** The end of [MakeMove], once the new head is known. *)
Lemma MakeMove_finish (t : NodeTree) (position : Position) (m : Move)
    (c : addr) (s : State) :
  last (history_ t) = Some position →
  (history ← Append (history_ t) m;
   mret (mkNodeTree (gamebegin_node_ t) (Some c) history)) s =
    Ok (mkNodeTree (gamebegin_node_ t) (Some c)
          (history_ t ++ [Position_play position m]), s).
Proof.
  intros Hlast. unfold Append, Last. rewrite Hlast. by do 2 mstep.
Qed.

(** C3 (as amended). [MakeMove(move)] mirrors the move exactly when black is
    to move at the head.  If an edge of the head holds the canonical move,
    the node of the first such edge, spawned if the edge has none, becomes
    the new head and the only child of the old head, and every other child
    is handed to the garbage collector.  If no edge holds it and the head has
    no edges, a fresh child with [n = 0] on a one-edge list becomes the new
    head.  If no edge holds it and the head has edges, the assertion of
    [CreateSingleChildNode] fails.  The position after the canonical move is
    appended to the history. *)
Theorem MakeMove_spec (s : State) (t : NodeTree) (move : Move)
    (position : Position) (head : addr) (hd : Node) (l : list addr) :
  last (history_ t) = Some position →
  current_head_ t = Some head →
  heap s !! head = Some hd →
  chain (heap s) (child_ hd) l →
  ascending (heap s) l →
  head ∉ l →
  let m := if IsBlackToMove position then Mirror move else move in
  let t' c := mkNodeTree (gamebegin_node_ t) (Some c)
                (history_ t ++ [Position_play position m]) in
  (∀ (i : nat) e,
     edges_ hd !! i = Some e →
     move_ e = m →
     (∀ (j : nat) e', (j < i)%nat → edges_ hd !! j = Some e' → move_ e' ≠ m) →
     ∃ s' c hd' ndc,
       MakeMove t move s = Ok (t' c, s') ∧
       heap s' !! head = Some hd' ∧
       same_payload hd hd' ∧
       chain (heap s') (child_ hd') [c] ∧
       heap s' !! c = Some ndc ∧
       (∀ x, x ∈ l → x ≠ c → in_gc s' x) ∧
       ((c ∈ l ∧ ∃ ndc0, heap s !! c = Some ndc0 ∧
                         index_ ndc0 = Z.of_nat i ∧ same_payload ndc0 ndc) ∨
        (heap s !! c = None ∧
         (∀ x, x ∈ l → index_of (heap s) x ≠ Some (Z.of_nat i)) ∧
         ndc = Node_new (Some head) (Z.of_nat i)))) ∧
  ((∀ e, e ∈ edges_ hd → move_ e ≠ m) →
   edges_ hd = [] →
   ∃ s' c hd',
     MakeMove t move s = Ok (t' c, s') ∧
     heap s !! c = None ∧
     heap s' !! c = Some (Node_new (Some head) 0) ∧
     heap s' !! head = Some hd' ∧
     edges_ hd' = [mkEdge m fzero] ∧
     chain (heap s') (child_ hd') [c] ∧
     (∀ x, x ∈ l → in_gc s' x)) ∧
  ((∀ e, e ∈ edges_ hd → move_ e ≠ m) →
   edges_ hd ≠ [] →
   MakeMove t move s = Err AssertionFailed).
Proof.
  intros Hlast Hhead Hhd Hl Hasc Hnotin m t'.
  assert (MakeMove t move s =
            (new_head ← find_new_head head (edges_ hd) 0 m;
             ReleaseChildrenExceptOne head new_head;;
             new_head ← match new_head with
                        | Some c => mret c
                        | None => CreateSingleChildNode head m
                        end;
             history ← Append (history_ t) m;
             mret (mkNodeTree (gamebegin_node_ t) (Some new_head) history)) s)
    as Hstart.
  { unfold MakeMove, Last. rewrite Hlast, Hhead. unfold nonnull.
    by do 3 mstep. }
  split; [|split].
  - (* an edge holds the move *)
    intros i e He Hm Hfirst.
    rewrite Hstart. clear Hstart.
    assert (length (take i (edges_ hd)) = i) as Hlen.
    { apply length_take_le, Nat.lt_le_incl. by eapply lookup_lt_Some. }
    pose proof (find_new_head_match head m s e (drop (S i) (edges_ hd))
                  (take i (edges_ hd)) 0) as Hfind.
    rewrite (take_drop_middle _ _ _ He), Hlen, Z.add_0_l in Hfind.
    rewrite (bind_congr _ _ _ _ (Hfind ltac:(
      intros e' [j Hj]%list_elem_of_lookup;
      apply lookup_take_Some in Hj as [Hj Hji]; by eapply Hfirst) Hm)).
    clear Hfind.
    rewrite bind_assoc.
    destruct (ascending_split _ _ _ (Z.of_nat i) Hl Hasc)
      as (l1 & l2 & -> & H1 & H2).
    destruct (child_at (heap s) (l1 ++ l2) (Z.of_nat i)) as [c|] eqn:Hchild.
    + (* the edge has a node *)
      apply child_at_Some in Hchild as [Hc Hi].
      destruct (ascending_first _ _ _ _ _ Hasc H1 H2 Hc Hi) as [l2' ->].
      destruct (chain_lookup _ _ _ c Hl Hc) as [ndc0 Hc0].
      rewrite (bind_Ok _ _ _ _ _
                 (GetOrSpawnNode_existing _ _ _ _ _ _ _ Hhd Hl H1 H2 Hi)).
      mstep.
      rewrite (bind_Ok _ _ _ _ _
                 (ReleaseChildrenExceptOne_found _ _ _ _ _ _ _ Hhd Hl Hnotin Hc0)).
      cbv beta iota. mstep.
      rewrite (MakeMove_finish t position m c _ Hlast).
      assert (head ≠ c) as Hhc by (by intros ->).
      eexists _, c, _, _. split; [done|]. cbn [heap].
      split; [apply released_lookup_this|]. split; [by repeat split|].
      split.
      { cbn [child_ set_child].
        econstructor; [by apply released_lookup_k | constructor]. }
      split; [by apply released_lookup_k|].
      split.
      { intros x Hx Hxc. eapply released_in_gc; [done..|].
        apply elem_of_app in Hx as [Hx|Hx]; apply elem_of_app; [by left|].
        apply elem_of_cons in Hx as [->|Hx]; [done | by right]. }
      left. split; [done|]. exists ndc0. split; [done|].
      unfold index_of in Hi. rewrite Hc0 in Hi. injection Hi as Hi.
      split; [done | by repeat split].
    + (* the edge has no node yet *)
      assert (∀ x, x ∈ l1 ++ l2 → index_of (heap s) x ≠ Some (Z.of_nat i))
        as Hnone by (intros x Hx; by eapply child_at_None).
      set (c := fresh (dom (heap s))).
      assert (heap s !! c = None) as Hc by apply not_elem_of_dom, is_fresh.
      erewrite bind_Ok; cycle 1.
      { eapply GetOrSpawnNode_new; [done..|].
        intros x Hx%head_Some_elem_of. apply Hnone, elem_of_app. by right. }
      fold c. mstep.
      destruct (spawned_chain _ _ _ _ _ c (Z.of_nat i) Hhd Hl Hnotin Hc)
        as (hd1 & Hhd1 & Hpay & Hl1).
      assert (head ∉ l1 ++ c :: l2) as Hnotin1.
      { intros Hin. apply elem_of_app in Hin as [Hin|Hin].
        - apply Hnotin, elem_of_app. by left.
        - apply elem_of_cons in Hin as [->|Hin]; [congruence|].
          apply Hnotin, elem_of_app. by right. }
      assert (head ≠ c) as Hhc by congruence.
      erewrite bind_Ok; cycle 1.
      { eapply ReleaseChildrenExceptOne_found; cbn [heap]; [done..|].
        apply spawned_lookup_new. }
      cbv beta iota. mstep.
      rewrite (MakeMove_finish t position m c _ Hlast).
      eexists _, c, _, _. split; [done|]. cbn [heap subtrees_to_gc_].
      split; [apply released_lookup_this|].
      split.
      { destruct Hpay as (?&?&?&?&?&?&?&?&?&?). by repeat split. }
      split.
      { cbn [child_ set_child].
        econstructor; [by apply released_lookup_k | constructor]. }
      split; [by apply released_lookup_k|].
      split.
      { intros x Hx Hxc.
        apply (released_in_gc
                 (mkState (spawned_heap (heap s) head l1 c (Z.of_nat i) _)
                    (subtrees_to_gc_ s)) head hd1 l1 c _ l2 x);
          cbn [heap]; [done|done|done|apply spawned_lookup_new|done]. }
      right. split; [done|]. split; [done|]. done.
  - (* no edge holds the move, and the head has no edges *)
    intros Hno He. rewrite Hstart. clear Hstart.
    rewrite (bind_Ok _ _ _ _ _ (find_new_head_none head m s _ 0 Hno)).
    erewrite bind_Ok; cycle 1.
    { eapply ReleaseChildrenExceptOne_not_found; [done..|]. by intros c _. }
    set (c := fresh (dom (heap s))).
    assert (heap s !! c = None) as Hc by apply not_elem_of_dom, is_fresh.
    assert (head ≠ c) as Hhc by congruence.
    cbv beta iota.
    erewrite bind_Ok; cycle 1.
    { erewrite CreateSingleChildNode_run; cbn [heap subtrees_to_gc_];
        [|apply lookup_insert_eq | done | done].
      rewrite dom_insert_L, subseteq_union_1_L
        by (apply singleton_subseteq_l; by eapply elem_of_dom_2).
      fold c. rewrite (insert_insert_ne _ c head), insert_insert_eq by done.
      reflexivity. }
    rewrite (MakeMove_finish t position m c _ Hlast).
    eexists _, c, _. split; [done|]. cbn [heap subtrees_to_gc_].
    split; [done|].
    split; [by rewrite lookup_insert_ne, lookup_insert_eq|].
    split; [apply lookup_insert_eq|]. split; [done|].
    split.
    { cbn [child_ set_child].
      econstructor; [by rewrite lookup_insert_ne, lookup_insert_eq|].
      constructor. }
    intros x Hx. destruct Hl as [|r ndr l Hr Hl'] eqn:Hchain;
      [by apply elem_of_nil in Hx|].
    exists r, (r :: l). split; [|split; [|done]].
    + cbn [subtrees_to_gc_]. apply elem_of_app. right.
      destruct (child_ hd); by left.
    + cbn [heap]. eapply chain_ext; [by econstructor|].
      intros a Ha. rewrite !lookup_insert_ne; [done| |].
      * intros <-. destruct (chain_lookup _ _ _ _ (chain_cons _ _ _ _ Hr Hl') Ha).
        congruence.
      * by intros <-.
  - (* no edge holds the move, but the head has edges *)
    intros Hno He. rewrite Hstart. clear Hstart.
    rewrite (bind_Ok _ _ _ _ _ (find_new_head_none head m s _ 0 Hno)).
    erewrite bind_Ok; cycle 1.
    { eapply ReleaseChildrenExceptOne_not_found; [done..|]. by intros c _. }
    apply bind_Err.
    eapply CreateSingleChildNode_expanded; cbn [heap];
      [apply lookup_insert_eq | done].
Qed.
End make_move.

Lemma MakeMove_spec_witness :
  (∃ s' c hd' ndc,
     MakeMove (ex_tree 1 [false]) (mkMove 102) ex_family =
       Ok (ex_tree c [false; true], s') ∧
     heap s' !! 1%positive = Some hd' ∧
     chain (heap s') (child_ hd') [c] ∧
     heap s' !! c = Some ndc ∧
     (∀ x, x ∈ [2; 3; 4]%positive → x ≠ c → in_gc s' x)) ∧
  (∃ s' c hd',
     MakeMove (ex_tree 1 [true]) (mkMove 7) ex_fresh =
       Ok (ex_tree c [true; false], s') ∧
     heap s' !! c = Some (Node_new (Some 1%positive) 0) ∧
     heap s' !! 1%positive = Some hd' ∧
     edges_ hd' = [mkEdge (mkMove (-7)) fzero]).
Proof.
  split.
  - destruct (MakeMove_spec (H := ex_external) ex_family
                (ex_tree 1 [false])
                (mkMove 102) false 1 ex_head [2; 3; 4]%positive)
      as [Hmatch _].
    + reflexivity.
    + reflexivity.
    + reflexivity.
    + exact ex_family_chain.
    + exact ex_family_ascending.
    + rewrite !elem_of_cons, elem_of_nil. intros [?|[?|[?|[]]]]; discriminate.
    + destruct (Hmatch 2%nat (mkEdge (mkMove 102) fzero))
        as (s' & c & hd' & ndc & Hrun & Hhd & _ & Hchain & Hc & Hgc & _).
      * reflexivity.
      * reflexivity.
      * intros [|[|j]] e' Hj He'; [| |lia];
          vm_compute in He'; injection He' as <-; discriminate.
      * by exists s', c, hd', ndc.
  - destruct (MakeMove_spec (H := ex_external) ex_fresh
                (ex_tree 1 [true])
                (mkMove 7) true 1 (Node_new None 0) [])
      as (_ & Hnew & _).
    + reflexivity.
    + reflexivity.
    + reflexivity.
    + constructor.
    + apply SSorted_nil.
    + apply not_elem_of_nil.
    + destruct Hnew as (s' & c & hd' & Hrun & _ & Hc & Hhd & He & _).
      * intros e He. by apply elem_of_nil in He.
      * reflexivity.
      * by exists s', c, hd'.
Defined.

(** C3, the claim as stated fails: the head of [ex_family] has six edges,
    none of which holds the move 999; with white to move (no mirroring)
    [MakeMove] ends in the failed assertion of [CreateSingleChildNode]
    instead of adopting a fresh child. *)
Lemma MakeMove_unknown_move_on_expanded_head :
  length (edges_ ex_head) = 6%nat ∧
  Forall (λ e, move_ e ≠ mkMove 999) (edges_ ex_head) ∧
  MakeMove (ex_tree 1 [false]) (mkMove 999) ex_family = Err AssertionFailed.
Proof.
  split; [reflexivity|]. split.
  - repeat (apply List.Forall_cons; [discriminate|]). apply List.Forall_nil.
  - vm_compute. reflexivity.
Qed.

(** * Further properties of the sources *)

(** ** The score-update protocol *)

Lemma TryStartScoreUpdate_admitted (s : State) (this : addr) (nd : Node) :
  heap s !! this = Some nd →
  ¬ (n_ nd = 0 ∧ 0 < n_in_flight_ nd) →
  TryStartScoreUpdate this s =
    Ok (true, mkState (<[this := set_n_in_flight (n_in_flight_ nd + 1) nd]> (heap s))
                (subtrees_to_gc_ s)).
Proof.
  intros Hnd Hfree. unfold TryStartScoreUpdate. mstep.
  replace (bool_decide (n_ nd = 0) && bool_decide (0 < n_in_flight_ nd))
    with false; [by mstep|].
  symmetry. apply andb_false_iff.
  destruct (decide (n_ nd = 0)) as [Hn|Hn].
  - right. apply bool_decide_eq_false_2. tauto.
  - left. by apply bool_decide_eq_false_2.
Qed.

Lemma TryStartScoreUpdate_refused (s : State) (this : addr) (nd : Node) :
  heap s !! this = Some nd →
  n_ nd = 0 → 0 < n_in_flight_ nd →
  TryStartScoreUpdate this s = Ok (false, s).
Proof.
  intros Hnd Hn Hf. unfold TryStartScoreUpdate. mstep.
  by rewrite !bool_decide_eq_true_2.
Qed.

Lemma Node_eta (nd : Node) :
  mkNode (parent_ nd) (index_ nd) (edges_ nd) (child_ nd) (sibling_ nd)
    (q_ nd) (visited_policy_ nd) (n_ nd) (n_in_flight_ nd) (max_depth_ nd)
    (full_depth_ nd) (is_terminal_ nd) = nd.
Proof. by destruct nd. Qed.

(** X1. A visit that is started and then cancelled leaves no trace: after
    [TryStartScoreUpdate] has answered true, [CancelScoreUpdate] gives back
    exactly the store from before. *)
Theorem TryStart_Cancel_restores (s s1 : State) (this : addr) :
  TryStartScoreUpdate this s = Ok (true, s1) →
  CancelScoreUpdate this s1 = Ok ((), s).
Proof.
  intros Hrun.
  destruct (heap s !! this) as [nd|] eqn:Hnd; cycle 1.
  { unfold TryStartScoreUpdate, mbind, M_bind, deref in Hrun.
    by rewrite Hnd in Hrun. }
  destruct (decide (n_ nd = 0 ∧ 0 < n_in_flight_ nd)) as [[Hn Hf]|Hfree].
  { by rewrite (TryStartScoreUpdate_refused _ _ _ Hnd Hn Hf) in Hrun. }
  rewrite (TryStartScoreUpdate_admitted _ _ _ Hnd Hfree) in Hrun.
  injection Hrun as <-. unfold CancelScoreUpdate. mstep.
  rewrite insert_insert_eq.
  cbn [n_in_flight_ set_n_in_flight parent_ index_ edges_ child_ sibling_ q_
       visited_policy_ n_ max_depth_ full_depth_ is_terminal_].
  replace (n_in_flight_ nd + 1 - 1) with (n_in_flight_ nd) by lia.
  unfold set_n_in_flight. cbn. rewrite Node_eta, insert_id by done.
  by rewrite State_eta.
Qed.

Lemma TryStart_Cancel_restores_witness :
  ∃ s1, TryStartScoreUpdate 1 ex_fresh = Ok (true, s1) ∧
        CancelScoreUpdate 1 s1 = Ok ((), ex_fresh).
Proof.
  eexists. split; [reflexivity|].
  apply (TryStart_Cancel_restores ex_fresh _ 1). reflexivity.
Defined.

(** X2. On a node that has never been visited ([n = 0]) and is not being
    visited by more workers than it counts ([n_in_flight >= 0]), two
    admissions never follow one another: right after [TryStartScoreUpdate]
    has answered true it answers false, and changes nothing, however often
    it is asked. *)
Theorem TryStart_excludes_second (s s1 : State) (this : addr) (nd : Node) :
  heap s !! this = Some nd →
  n_ nd = 0 →
  0 ≤ n_in_flight_ nd →
  TryStartScoreUpdate this s = Ok (true, s1) →
  ∀ k : nat,
    foldlM (λ _ _, TryStartScoreUpdate this) false (replicate k ()) s1 =
      Ok (false, s1).
Proof.
  intros Hnd Hn Hf Hrun.
  destruct (decide (n_ nd = 0 ∧ 0 < n_in_flight_ nd)) as [[_ Hpos]|Hfree].
  { by rewrite (TryStartScoreUpdate_refused _ _ _ Hnd Hn Hpos) in Hrun. }
  rewrite (TryStartScoreUpdate_admitted _ _ _ Hnd Hfree) in Hrun.
  injection Hrun as <-.
  induction k as [|k IH]; [done|].
  cbn [replicate foldlM]. erewrite bind_Ok; [exact IH|].
  eapply TryStartScoreUpdate_refused; [cbn [heap]; apply lookup_insert_eq|..];
    cbn; lia.
Qed.

Lemma TryStart_excludes_second_witness :
  ∃ s1, TryStartScoreUpdate 1 ex_fresh = Ok (true, s1) ∧
        foldlM (λ _ _, TryStartScoreUpdate 1) false (replicate 3 ()) s1 =
          Ok (false, s1).
Proof.
  eexists. split; [reflexivity|].
  apply (TryStart_excludes_second ex_fresh _ 1 (Node_new None 0));
    [reflexivity | reflexivity | done | reflexivity].
Defined.

(** X3. A visit that is started and then backed up is counted once and
    leaves no virtual loss behind: after [TryStartScoreUpdate] (answering
    true) and [FinalizeScoreUpdate(v)] the node has [n + 1] visits, the
    [n_in_flight] it had before, and the value [v] folded into [q]; on a
    node that had no visit and no parent, [q] is [v] itself. *)
Theorem TryStart_Finalize_counts_once (s : State) (this : addr) (nd : Node)
    (v : Qc) :
  heap s !! this = Some nd →
  ¬ (n_ nd = 0 ∧ 0 < n_in_flight_ nd) →
  n_ nd ≠ 0 ∨ parent_ nd = None →
  ∃ s1 s2 nd2,
    TryStartScoreUpdate this s = Ok (true, s1) ∧
    FinalizeScoreUpdate this (Finite v) s1 = Ok ((), s2) ∧
    heap s2 = <[this := nd2]> (heap s) ∧
    subtrees_to_gc_ s2 = subtrees_to_gc_ s ∧
    n_ nd2 = n_ nd + 1 ∧
    n_in_flight_ nd2 = n_in_flight_ nd ∧
    q_ nd2 = fadd (q_ nd) (fdiv (fsub (Finite v) (q_ nd)) (of_Z (n_ nd + 1))) ∧
    (n_ nd = 0 → q_ nd = of_Z 0 → q_ nd2 = Finite v) ∧
    visited_policy_ nd2 = visited_policy_ nd ∧
    same_structure nd nd2.
Proof.
  intros Hnd Hfree Hcase.
  eexists _, _, _. split; [by apply TryStartScoreUpdate_admitted|].
  split.
  { apply FinalizeScoreUpdate_later; [cbn [heap]; apply lookup_insert_eq|].
    by cbn. }
  cbn [heap subtrees_to_gc_]. rewrite insert_insert_eq.
  split; [done|]. split; [done|]. split; [done|].
  split; [cbn; lia|]. split; [done|].
  split; [|by repeat split].
  intros Hn Hq. cbn. rewrite Hq, Hn. cbn.
  rewrite decide_False by (apply Qc_of_Z_nonzero; lia).
  f_equal. change (0 + 1) with 1. rewrite Z2Qc_inj_1, Z2Qc_inj_0. field.
  apply Q_apart_0_1.
Qed.

Lemma TryStart_Finalize_counts_once_witness :
  ∃ s1 s2 nd2,
    TryStartScoreUpdate 1 ex_fresh = Ok (true, s1) ∧
    FinalizeScoreUpdate 1 (Finite (Qc_of_Z 1)) s1 = Ok ((), s2) ∧
    heap s2 = <[1%positive := nd2]> (heap ex_fresh) ∧
    n_ nd2 = 1 ∧ n_in_flight_ nd2 = 0 ∧ q_ nd2 = Finite (Qc_of_Z 1).
Proof.
  destruct (TryStart_Finalize_counts_once ex_fresh 1 (Node_new None 0)
              (Qc_of_Z 1))
    as (s1 & s2 & nd2 & Ht & Hf & Hh & _ & Hn & Hnif & _ & Hq & _).
  - reflexivity.
  - intros [_ Hpos]. cbn in Hpos. lia.
  - by right.
  - exists s1, s2, nd2. repeat split; try done. by apply Hq.
Defined.

(** ** Expansion *)

Lemma EdgeList_of_moves (moves : MoveList) : move_ <$> EdgeList_of moves = moves.
Proof.
  unfold EdgeList_of. rewrite <-list_fmap_compose.
  induction moves as [|m moves IH]; [done|]. cbn. by rewrite IH.
Qed.

Lemma CreateEdges_run (s : State) (this : addr) (nd : Node) (moves : MoveList) :
  heap s !! this = Some nd →
  edges_ nd = [] →
  child_ nd = None →
  CreateEdges this moves s =
    Ok ((), mkState (<[this := set_edges (EdgeList_of moves) nd]> (heap s))
              (subtrees_to_gc_ s)).
Proof.
  intros Hnd He Hc. unfold CreateEdges. mstep.
  unfold assert. rewrite !bool_decide_eq_true_2 by done. by do 3 mstep.
Qed.

(** X4. Expansion happens once.  On a node without edges and children
    [CreateEdges(moves)] installs one edge per move, in the order of the
    moves and with prior 0, and changes nothing else; after that (for a move
    list that is not empty) every further [CreateEdges] or
    [CreateSingleChildNode] on the node fails its assertion. *)
Theorem CreateEdges_once (s : State) (this : addr) (nd : Node)
    (moves : MoveList) :
  heap s !! this = Some nd →
  edges_ nd = [] →
  child_ nd = None →
  ∃ s1 nd1,
    CreateEdges this moves s = Ok ((), s1) ∧
    s1 = mkState (<[this := nd1]> (heap s)) (subtrees_to_gc_ s) ∧
    move_ <$> edges_ nd1 = moves ∧
    Forall (λ e, p_ e = of_Z 0) (edges_ nd1) ∧
    nd1 = set_edges (edges_ nd1) nd ∧
    (moves ≠ [] →
     ∀ moves' move,
       CreateEdges this moves' s1 = Err AssertionFailed ∧
       CreateSingleChildNode this move s1 = Err AssertionFailed).
Proof.
  intros Hnd He Hc. eexists _, _. split; [by apply CreateEdges_run|].
  split; [done|]. cbn [edges_ set_edges].
  split; [apply EdgeList_of_moves|].
  split; [unfold EdgeList_of; by apply Forall_fmap, Forall_true|].
  split; [done|].
  intros Hmoves moves' move.
  assert (EdgeList_of moves ≠ []) as Hne.
  { destruct moves; [done | discriminate]. }
  split.
  - unfold CreateEdges. mstep. apply bind_Err. unfold assert.
    by rewrite bool_decide_eq_false_2.
  - eapply CreateSingleChildNode_expanded;
      [cbn [heap]; apply lookup_insert_eq | done].
Qed.

Lemma CreateEdges_once_witness :
  ∃ s1 nd1,
    CreateEdges 1 [mkMove 5; mkMove 6] ex_fresh = Ok ((), s1) ∧
    move_ <$> edges_ nd1 = [mkMove 5; mkMove 6] ∧
    CreateEdges 1 [mkMove 7] s1 = Err AssertionFailed.
Proof.
  destruct (CreateEdges_once ex_fresh 1 (Node_new None 0) [mkMove 5; mkMove 6])
    as (s1 & nd1 & Hrun & _ & Hmoves & _ & _ & Htwice);
    [reflexivity..|].
  exists s1, nd1. split; [done|]. split; [done|].
  by apply (Htwice ltac:(discriminate) [mkMove 7] (mkMove 7)).
Defined.

(** X5. [CreateSingleChildNode(move)] on a node without edges and children
    creates a new node, with [n = 0], this node as parent and index 0, as the
    only child, below a single edge that holds [move]: [GetEdgeToNode] of the
    new child is that edge, at position 0.  No other node changes. *)
Theorem CreateSingleChildNode_edge (s : State) (this : addr) (nd : Node)
    (move : Move) :
  heap s !! this = Some nd →
  edges_ nd = [] →
  child_ nd = None →
  ∃ c s1 nd1,
    CreateSingleChildNode this move s = Ok (c, s1) ∧
    heap s !! c = None ∧
    heap s1 !! c = Some (Node_new (Some this) 0) ∧
    heap s1 !! this = Some nd1 ∧
    chain (heap s1) (child_ nd1) [c] ∧
    same_payload (set_edges [mkEdge move (of_Z 0)] nd) nd1 ∧
    (∀ a, a ≠ this → a ≠ c → heap s1 !! a = heap s !! a) ∧
    subtrees_to_gc_ s1 = subtrees_to_gc_ s ∧
    GetEdgeToNode this c s1 = Ok ((0, mkEdge move (of_Z 0)), s1).
Proof.
  intros Hnd He Hc.
  set (c := fresh (dom (heap s))).
  assert (heap s !! c = None) as Hfresh by apply not_elem_of_dom, is_fresh.
  assert (this ≠ c) as Hne by congruence.
  eexists c, _, _. split; [by apply CreateSingleChildNode_run|].
  fold c. cbn [heap subtrees_to_gc_].
  split; [done|].
  split; [by rewrite lookup_insert_ne, lookup_insert_eq|].
  split; [apply lookup_insert_eq|].
  split.
  { cbn [child_ set_child].
    econstructor; [by rewrite lookup_insert_ne, lookup_insert_eq|].
    constructor. }
  split; [by repeat split|].
  split; [intros a Ha1 Ha2; by rewrite !lookup_insert_ne|].
  split; [done|].
  unfold GetEdgeToNode. do 2 mstep. unfold assert.
  rewrite !bool_decide_eq_true_2 by (cbn; first [done | lia]). do 2 mstep.
  reflexivity.
Qed.

Lemma CreateSingleChildNode_edge_witness :
  ∃ c s1,
    CreateSingleChildNode 1 (mkMove 5) ex_fresh = Ok (c, s1) ∧
    heap s1 !! c = Some (Node_new (Some 1%positive) 0) ∧
    GetEdgeToNode 1 c s1 = Ok ((0, mkEdge (mkMove 5) (of_Z 0)), s1).
Proof.
  destruct (CreateSingleChildNode_edge ex_fresh 1 (Node_new None 0) (mkMove 5))
    as (c & s1 & nd1 & Hrun & _ & Hc & _ & _ & _ & _ & _ & Hedge);
    [reflexivity..|].
  by exists c, s1.
Defined.

(** X6. [GetEdgeToNode] checks its argument: for a node whose [parent_] is
    another node, or whose [index_] is not below the number of edges, it
    fails an assertion; for a child of this node with an index in range it
    returns the edge at that index and leaves the store alone. *)
Theorem GetEdgeToNode_checked (s : State) (this node : addr) (nd c : Node) :
  heap s !! this = Some nd →
  heap s !! node = Some c →
  (parent_ c ≠ Some this → GetEdgeToNode this node s = Err AssertionFailed) ∧
  (Z.of_nat (length (edges_ nd)) ≤ index_ c →
   GetEdgeToNode this node s = Err AssertionFailed) ∧
  (parent_ c = Some this →
   0 ≤ index_ c < Z.of_nat (length (edges_ nd)) →
   ∃ e, edges_ nd !! Z.to_nat (index_ c) = Some e ∧
        GetEdgeToNode this node s = Ok ((index_ c, e), s)).
Proof.
  intros Hnd Hc. split; [|split].
  - intros Hp. unfold GetEdgeToNode. do 2 mstep.
    apply bind_Err. unfold assert. by rewrite bool_decide_eq_false_2.
  - intros Hi. unfold GetEdgeToNode. do 2 mstep. unfold assert.
    destruct (decide (parent_ c = Some this)) as [Hp|Hp].
    + rewrite (bool_decide_eq_true_2 _ Hp). mstep.
      apply bind_Err. rewrite bool_decide_eq_false_2; [done|lia].
    + apply bind_Err. by rewrite bool_decide_eq_false_2.
  - intros Hp Hi.
    assert (is_Some (edges_ nd !! Z.to_nat (index_ c))) as [e He]
      by (apply lookup_lt_is_Some_2; lia).
    exists e. split; [done|].
    unfold GetEdgeToNode, assert, edge_at. do 2 mstep.
    rewrite !bool_decide_eq_true_2 by (first [done | lia]). do 2 mstep.
    rewrite He. by mstep.
Qed.

Lemma GetEdgeToNode_checked_witness :
  GetEdgeToNode 2 1 ex_family = Err AssertionFailed ∧
  ∃ e, GetEdgeToNode 1 3 ex_family = Ok ((2, e), ex_family) ∧
       move_ e = mkMove 102.
Proof.
  split.
  - apply (GetEdgeToNode_checked ex_family 2 1
             (set_n 1 (set_sibling (Some 3%positive)
                         (Node_new (Some 1%positive) 0))) ex_head);
      [reflexivity | reflexivity | discriminate].
  - destruct (GetEdgeToNode_checked ex_family 1 3 ex_head
                (set_n 2 (set_sibling (Some 4%positive)
                            (Node_new (Some 1%positive) 2))))
      as (_ & _ & Hok); [reflexivity | reflexivity |].
    destruct Hok as (e & He & Hrun); [reflexivity | cbn; lia |].
    exists e. split; [done|]. vm_compute in He. by injection He as <-.
Defined.

(** ** Depth summaries, again *)

Lemma UpdateMaxDepth_run (s : State) (this : addr) (nd : Node) (depth : Z) :
  heap s !! this = Some nd →
  UpdateMaxDepth this depth s =
    Ok ((), mkState
              (<[this := set_max_depth (Z.max (max_depth_ nd) depth) nd]> (heap s))
              (subtrees_to_gc_ s)).
Proof.
  intros Hnd. unfold UpdateMaxDepth. mstep.
  destruct (decide (depth > max_depth_ nd)) as [Hgt|Hle].
  - rewrite bool_decide_eq_true_2 by done. mstep.
    by rewrite Z.max_r by lia.
  - rewrite bool_decide_eq_false_2 by done.
    rewrite Z.max_l by lia. unfold set_max_depth.
    rewrite Node_eta, insert_id by done. by rewrite State_eta.
Qed.

(** X7. [UpdateMaxDepth(depth)] raises [max_depth] to [depth] when [depth] is
    larger and otherwise changes nothing, so [max_depth] becomes the larger of
    the two and never decreases; two updates give the same store in either
    order, the one that a single update with the larger depth gives.  (Depths
    are taken in the range of [uint16_t], where storing one converts
    nothing.) *)
Theorem UpdateMaxDepth_max (s : State) (this : addr) (nd : Node) (d1 d2 : Z) :
  heap s !! this = Some nd →
  0 ≤ d1 < 65536 →
  0 ≤ d2 < 65536 →
  ∃ s',
    (UpdateMaxDepth this d1;; UpdateMaxDepth this d2) s = Ok ((), s') ∧
    (UpdateMaxDepth this d2;; UpdateMaxDepth this d1) s = Ok ((), s') ∧
    UpdateMaxDepth this (Z.max d1 d2) s = Ok ((), s') ∧
    s' = mkState
           (<[this := set_max_depth (Z.max (max_depth_ nd) (Z.max d1 d2)) nd]>
              (heap s))
           (subtrees_to_gc_ s) ∧
    max_depth_ nd ≤ Z.max (max_depth_ nd) (Z.max d1 d2).
Proof.
  intros Hnd _ _. eexists. split; [|split; [|split; [|split; [done|lia]]]].
  - rewrite (bind_Ok _ _ _ _ _ (UpdateMaxDepth_run _ _ _ d1 Hnd)).
    erewrite UpdateMaxDepth_run by (cbn [heap]; apply lookup_insert_eq).
    cbn [heap subtrees_to_gc_ max_depth_ set_max_depth].
    rewrite insert_insert_eq. unfold set_max_depth. cbn. by rewrite Z.max_assoc.
  - rewrite (bind_Ok _ _ _ _ _ (UpdateMaxDepth_run _ _ _ d2 Hnd)).
    erewrite UpdateMaxDepth_run by (cbn [heap]; apply lookup_insert_eq).
    cbn [heap subtrees_to_gc_ max_depth_ set_max_depth].
    rewrite insert_insert_eq. unfold set_max_depth. cbn.
    by rewrite <-Z.max_assoc, (Z.max_comm d2 d1).
  - by apply UpdateMaxDepth_run.
Qed.

Lemma UpdateMaxDepth_max_witness :
  ∃ s',
    (UpdateMaxDepth 1 4;; UpdateMaxDepth 1 9) ex_fresh = Ok ((), s') ∧
    (UpdateMaxDepth 1 9;; UpdateMaxDepth 1 4) ex_fresh = Ok ((), s') ∧
    max_depth_ <$> heap s' !! 1%positive = Some 9.
Proof.
  destruct (UpdateMaxDepth_max ex_fresh 1 (Node_new None 0) 4 9)
    as (s' & H1 & H2 & _ & -> & _); [reflexivity | lia | lia |].
  eexists. split; [exact H1|]. split; [exact H2 | reflexivity].
Defined.

Lemma UpdateFullDepth_run (s : State) (this : addr) (nd : Node)
    (l : list addr) (depth : Z) :
  heap s !! this = Some nd →
  chain (heap s) (child_ nd) l →
  UpdateFullDepth this depth s =
    (if decide (full_depth_ nd > depth) then Ok ((false, depth), s)
     else if decide (foldr Z.min depth (full_depths (heap s) l) >= full_depth_ nd)
     then
       Ok ((true, wrap16 (foldr Z.min depth (full_depths (heap s) l) + 1)),
           mkState
             (<[this := set_full_depth
                          (wrap16 (foldr Z.min depth (full_depths (heap s) l) + 1))
                          nd]> (heap s))
             (subtrees_to_gc_ s))
     else Ok ((false, foldr Z.min depth (full_depths (heap s) l)), s)).
Proof.
  intros Hnd Hl. unfold UpdateFullDepth. mstep.
  destruct (decide (full_depth_ nd > depth)) as [Hgt|Hgt].
  { by rewrite bool_decide_eq_true_2. }
  rewrite bool_decide_eq_false_2 by done.
  rewrite (bind_Ok _ _ _ _ _ (ChildNodes_Ok _ _ _ _ Hnd Hl)).
  erewrite bind_Ok
    by (apply full_depth_loop; intros c Hc; by eapply chain_lookup).
  mstep.
  destruct (decide (foldr Z.min depth (full_depths (heap s) l) >= full_depth_ nd))
    as [Hge|Hge].
  - rewrite bool_decide_eq_true_2 by done. by mstep.
  - by rewrite bool_decide_eq_false_2.
Qed.

Lemma foldr_min_le (d : Z) (xs : list Z) : foldr Z.min d xs ≤ d.
Proof. induction xs as [|x xs IH]; cbn; lia. Qed.

(** X8. [UpdateFullDepth] touches one field only: whatever it returns, the
    store afterwards differs from the store before at most in [full_depth] of
    this node; when it returns false nothing has changed at all; when it
    returns true the depth handed back in [*depth] is the node's new
    [full_depth].  For a depth below 65535 [full_depth] never decreases. *)
Theorem UpdateFullDepth_frame (s : State) (this : addr) (nd : Node)
    (l : list addr) (depth : Z) :
  heap s !! this = Some nd →
  chain (heap s) (child_ nd) l →
  ∃ b d' s' nd',
    UpdateFullDepth this depth s = Ok ((b, d'), s') ∧
    s' = mkState (<[this := nd']> (heap s)) (subtrees_to_gc_ s) ∧
    nd' = set_full_depth (full_depth_ nd') nd ∧
    (b = false → s' = s) ∧
    (b = true → d' = full_depth_ nd') ∧
    (0 ≤ full_depth_ nd → depth < 65535 → full_depth_ nd ≤ full_depth_ nd').
Proof.
  intros Hnd Hl. rewrite (UpdateFullDepth_run _ _ _ _ _ Hnd Hl).
  pose proof (foldr_min_le depth (full_depths (heap s) l)) as Hm.
  assert (mkState (<[this := nd]> (heap s)) (subtrees_to_gc_ s) = s) as Hsame.
  { by rewrite insert_id, State_eta. }
  assert (nd = set_full_depth (full_depth_ nd) nd) as Heta.
  { unfold set_full_depth. by rewrite Node_eta. }
  destruct (decide (full_depth_ nd > depth)) as [Hgt|Hgt].
  { exists false, depth, s, nd. repeat split; done || lia. }
  destruct (decide (foldr Z.min depth (full_depths (heap s) l) >= full_depth_ nd))
    as [Hge|Hge].
  - eexists true, _, _, _. split; [done|]. split; [done|].
    split; [done|]. split; [done|]. split; [done|].
    intros Hfd Hdepth. cbn [full_depth_ set_full_depth].
    unfold wrap16. rewrite Z.mod_small by lia. lia.
  - exists false, (foldr Z.min depth (full_depths (heap s) l)), s, nd.
    repeat split; done || lia.
Qed.

Lemma UpdateFullDepth_frame_witness :
  ∃ b d' s' nd',
    UpdateFullDepth 1 7 ex_depth = Ok ((b, d'), s') ∧
    s' = mkState (<[1%positive := nd']> (heap ex_depth)) [] ∧
    0 ≤ full_depth_ nd'.
Proof.
  destruct (UpdateFullDepth_frame ex_depth 1
              (set_child (Some 2%positive) (Node_new None 0)) [2%positive] 7)
    as (b & d' & s' & nd' & Hrun & Hs & _ & _ & _ & Hmono).
  - reflexivity.
  - econstructor; [reflexivity|]. constructor.
  - exists b, d', s', nd'. split; [done|]. split; [done|].
    apply Hmono; [done | lia].
Defined.

(** X9. The increment of [UpdateFullDepth] is done in [uint16_t]: when the
    least of [*depth] and the children's full depths is 65535, the node's
    [full_depth] wraps around to 0, and the function still returns true. *)
Theorem UpdateFullDepth_wraps (s : State) (this : addr) (nd : Node)
    (l : list addr) (depth : Z) :
  heap s !! this = Some nd →
  chain (heap s) (child_ nd) l →
  full_depth_ nd ≤ 65535 →
  foldr Z.min depth (full_depths (heap s) l) = 65535 →
  UpdateFullDepth this depth s =
    Ok ((true, 0),
        mkState (<[this := set_full_depth 0 nd]> (heap s)) (subtrees_to_gc_ s)).
Proof.
  intros Hnd Hl Hfd Hm. rewrite (UpdateFullDepth_run _ _ _ _ _ Hnd Hl).
  pose proof (foldr_min_le depth (full_depths (heap s) l)) as Hle.
  rewrite Hm in *.
  rewrite decide_False by lia. rewrite decide_True by lia. done.
Qed.

Lemma UpdateFullDepth_wraps_witness :
  UpdateFullDepth 1 65535 ex_fresh =
    Ok ((true, 0),
        mkState (<[1%positive := set_full_depth 0 (Node_new None 0)]> (heap ex_fresh))
          []).
Proof.
  apply (UpdateFullDepth_wraps ex_fresh 1 (Node_new None 0) [] 65535);
    [reflexivity | constructor | cbn; lia | reflexivity].
Defined.

(** ** Releasing children, again *)

Lemma ReleaseChildren_run (s : State) (this : addr) (nd : Node) :
  heap s !! this = Some nd →
  ReleaseChildren this s =
    Ok ((), mkState (<[this := set_child None nd]> (heap s))
              (subtrees_to_gc_ s ++ option_list (child_ nd))).
Proof.
  intros Hnd. unfold ReleaseChildren. pstep.
  by rewrite AddToGcQueue_Ok.
Qed.

Lemma chain_in_gc_after (h h' : gmap addr Node) (q' : list addr)
    (p : option addr) (l : list addr) (c : addr) :
  chain h p l →
  (∀ a, a ∈ l → h' !! a = h !! a) →
  (∀ r, p = Some r → r ∈ q') →
  c ∈ l →
  in_gc (mkState h' q') c.
Proof.
  intros Hl Hagree Hq Hc.
  destruct Hl as [|r ndr l Hr Hl'] eqn:Hchain; [by apply elem_of_nil in Hc|].
  exists r, (r :: l). split; [by apply Hq|]. split; [|done].
  cbn [heap]. eapply chain_ext; [by econstructor|].
  intros a Ha. by rewrite Hagree.
Qed.

(** X10. [ReleaseChildren] hands the whole child chain to the garbage
    collector as one queue entry, the first child, and leaves the node
    without children; no other field and no other node changes.
    [ReleaseChildrenExceptOne] with a node that is not on the chain (the null
    pointer included) ends in exactly the same store. *)
Theorem ReleaseChildren_all (s : State) (this : addr) (nd : Node)
    (l : list addr) (keep : option addr) :
  heap s !! this = Some nd →
  chain (heap s) (child_ nd) l →
  this ∉ l →
  (∀ c, c ∈ l → Some c ≠ keep) →
  ∃ s',
    ReleaseChildren this s = Ok ((), s') ∧
    ReleaseChildrenExceptOne this keep s = Ok ((), s') ∧
    s' = mkState (<[this := set_child None nd]> (heap s))
           (subtrees_to_gc_ s ++ option_list (child_ nd)) ∧
    (∀ c, c ∈ l → in_gc s' c) ∧
    (l = [] → subtrees_to_gc_ s' = subtrees_to_gc_ s).
Proof.
  intros Hnd Hl Hthis Hkeep. eexists.
  split; [by apply ReleaseChildren_run|].
  split; [by eapply ReleaseChildrenExceptOne_not_found|].
  split; [done|]. split.
  - intros c Hc.
    eapply (chain_in_gc_after (heap s) _ _ (child_ nd) l c Hl); [| |done].
    + intros a Ha. rewrite lookup_insert_ne; [done|]. by intros <-.
    + intros r ->. apply elem_of_app. right. by left.
  - intros ->. inversion Hl as [Hc|]. cbn [subtrees_to_gc_].
    apply app_nil_r.
Qed.

Lemma ReleaseChildren_all_witness :
  ∃ s',
    ReleaseChildren 1 ex_family = Ok ((), s') ∧
    ReleaseChildrenExceptOne 1 None ex_family = Ok ((), s') ∧
    in_gc s' 2 ∧ in_gc s' 3 ∧ in_gc s' 4 ∧
    subtrees_to_gc_ s' = [2%positive].
Proof.
  destruct (ReleaseChildren_all ex_family 1 ex_head [2; 3; 4]%positive None)
    as (s' & H1 & H2 & -> & Hgc & _).
  - reflexivity.
  - exact ex_family_chain.
  - rewrite !elem_of_cons, elem_of_nil. intros [?|[?|[?|[]]]]; discriminate.
  - discriminate.
  - eexists. split; [exact H1|]. split; [exact H2|].
    repeat split; try (apply Hgc; rewrite !elem_of_cons; auto).
Defined.

(** X11. Saving a child twice is saving it once: after
    [ReleaseChildrenExceptOne(keep)] with [keep] on the chain, the same call
    again changes neither the nodes nor the collector's queue. *)
Theorem ReleaseChildrenExceptOne_again (s : State) (this : addr) (nd : Node)
    (l : list addr) (k : addr) :
  heap s !! this = Some nd →
  chain (heap s) (child_ nd) l →
  this ∉ l →
  k ∈ l →
  ∃ s',
    ReleaseChildrenExceptOne this (Some k) s = Ok ((), s') ∧
    ReleaseChildrenExceptOne this (Some k) s' = Ok ((), s').
Proof.
  intros Hnd Hl Hthis Hk.
  apply list_elem_of_split_l in Hk as (l1 & l2 & -> & Hk1).
  destruct (chain_lookup _ _ _ k Hl) as [ndk Hndk].
  { apply elem_of_app. right. by left. }
  assert (this ≠ k) as Htk.
  { intros ->. apply Hthis, elem_of_app. right. by left. }
  eexists. split; [by eapply ReleaseChildrenExceptOne_found|].
  set (h' := released_heap (heap s) this nd l1 k ndk).
  assert (h' !! this = Some (set_child (Some k) nd)) as Hthis'
    by apply released_lookup_this.
  assert (h' !! k = Some (set_sibling None ndk)) as Hk'
    by by apply released_lookup_k.
  erewrite (ReleaseChildrenExceptOne_found _ this _ [] k _ []); cbn [heap];
    [|exact Hthis'| |cbn [app]; rewrite elem_of_cons, elem_of_nil; by intros [?|[]]|exact Hk'].
  2:{ cbn [child_ set_child app]. econstructor; [exact Hk'|]. constructor. }
  cbn [subtrees_to_gc_ head option_list last default app]. rewrite !app_nil_r.
  do 2 f_equal. unfold released_heap at 1. cbn [last default].
  rewrite alter_insert_eq.
  change (set_sibling None (set_sibling None ndk)) with (set_sibling None ndk).
  change (set_child (Some k) (set_child (Some k) nd))
    with (set_child (Some k) nd).
  by rewrite (insert_id _ k), (insert_id _ this).
Qed.

Lemma ReleaseChildrenExceptOne_again_witness :
  ∃ s',
    ReleaseChildrenExceptOne 1 (Some 3%positive) ex_family = Ok ((), s') ∧
    ReleaseChildrenExceptOne 1 (Some 3%positive) s' = Ok ((), s').
Proof.
  apply (ReleaseChildrenExceptOne_again ex_family 1 ex_head [2; 3; 4]%positive).
  - reflexivity.
  - exact ex_family_chain.
  - rewrite !elem_of_cons, elem_of_nil. intros [?|[?|[?|[]]]]; discriminate.
  - rewrite !elem_of_cons. auto.
Defined.

(** ** Trimming and deallocating the tree *)

Section node_tree_properties.
Context `{External}.

Lemma TrimTreeAtHead_run (s : State) (t : NodeTree) (head : addr) (hd : Node) :
  current_head_ t = Some head →
  heap s !! head = Some hd →
  TrimTreeAtHead t s =
    Ok ((), mkState
              (<[head := set_sibling (sibling_ hd)
                           (Node_new (parent_ hd) (index_ hd))]> (heap s))
              (subtrees_to_gc_ s ++ option_list (child_ hd))).
Proof.
  intros Hhead Hhd. unfold TrimTreeAtHead. rewrite Hhead. unfold nonnull.
  mstep. do 5 pstep. pstep. by rewrite !insert_insert_eq.
Qed.

(** X12. [TrimTreeAtHead] sends the children of the head to the garbage
    collector and makes the head a new node: no visits, no edges, no value,
    not terminal.  The head keeps its place in the tree (parent, index and
    sibling), and no other node changes. *)
Theorem TrimTreeAtHead_resets (s : State) (t : NodeTree) (head : addr)
    (hd : Node) (l : list addr) :
  current_head_ t = Some head →
  heap s !! head = Some hd →
  chain (heap s) (child_ hd) l →
  head ∉ l →
  ∃ s' hd',
    TrimTreeAtHead t s = Ok ((), s') ∧
    heap s' !! head = Some hd' ∧
    hd' = set_sibling (sibling_ hd) (Node_new (parent_ hd) (index_ hd)) ∧
    n_ hd' = 0 ∧ n_in_flight_ hd' = 0 ∧ q_ hd' = of_Z 0 ∧ edges_ hd' = [] ∧
    child_ hd' = None ∧ is_terminal_ hd' = false ∧
    (∀ a, a ≠ head → heap s' !! a = heap s !! a) ∧
    (∀ c, c ∈ l → in_gc s' c) ∧
    subtrees_to_gc_ s' = subtrees_to_gc_ s ++ option_list (child_ hd).
Proof.
  intros Hhead Hhd Hl Hnotin. eexists _, _.
  split; [by apply TrimTreeAtHead_run|]. cbn [heap subtrees_to_gc_].
  split; [apply lookup_insert_eq|].
  split; [done|]. do 6 (split; [done|]).
  split; [intros a Ha; by rewrite lookup_insert_ne|].
  split; [|done].
  intros c Hc.
  eapply (chain_in_gc_after (heap s) _ _ (child_ hd) l c Hl); [| |done].
  - intros a Ha. rewrite lookup_insert_ne; [done|]. by intros <-.
  - intros r ->. apply elem_of_app. right. by left.
Qed.

Lemma DeallocateTree_run (s : State) (t : NodeTree) :
  DeallocateTree t s =
    Ok (mkNodeTree None None (history_ t),
        mkState (heap s) (subtrees_to_gc_ s ++ option_list (gamebegin_node_ t))).
Proof. unfold DeallocateTree. pstep. done. Qed.

End node_tree_properties.

Lemma TrimTreeAtHead_resets_witness :
  ∃ s' hd',
    TrimTreeAtHead (ex_tree 1 [false]) ex_family = Ok ((), s') ∧
    heap s' !! 1%positive = Some hd' ∧
    n_ hd' = 0 ∧ edges_ hd' = [] ∧
    in_gc s' 2 ∧ in_gc s' 3 ∧ in_gc s' 4.
Proof.
  destruct (TrimTreeAtHead_resets (H := ex_external) ex_family
              (ex_tree 1 [false]) 1 ex_head [2; 3; 4]%positive)
    as (s' & hd' & Hrun & Hhd & _ & Hn & _ & _ & He & _ & _ & _ & Hgc & _).
  - reflexivity.
  - reflexivity.
  - exact ex_family_chain.
  - rewrite !elem_of_cons, elem_of_nil. intros [?|[?|[?|[]]]]; discriminate.
  - exists s', hd'. repeat split; try done;
      apply Hgc; rewrite !elem_of_cons; auto.
Defined.

Section trim_and_move.
Context `{External}.

Lemma MakeMove_fresh_run (s : State) (t : NodeTree) (move : Move)
    (position : Position) (head : addr) (hd : Node) :
  last (history_ t) = Some position →
  current_head_ t = Some head →
  heap s !! head = Some hd →
  edges_ hd = [] →
  child_ hd = None →
  let m := if IsBlackToMove position then Mirror move else move in
  let c := fresh (dom (heap s)) in
  MakeMove t move s =
    Ok (mkNodeTree (gamebegin_node_ t) (Some c)
          (history_ t ++ [Position_play position m]),
        mkState
          (<[head := set_child (Some c) (set_edges (EdgeList_of [m]) hd)]>
             (<[c := Node_new (Some head) 0]> (heap s)))
          (subtrees_to_gc_ s)).
Proof.
  intros Hlast Hhead Hhd He Hc m c.
  unfold MakeMove, Last. rewrite Hlast, Hhead. unfold nonnull.
  do 3 mstep. fold m. rewrite He. cbn [find_new_head]. mstep.
  erewrite bind_Ok; cycle 1.
  { eapply (ReleaseChildrenExceptOne_not_found _ _ _ []); [done| |].
    - rewrite Hc. constructor.
    - intros x Hx. by apply elem_of_nil in Hx. }
  rewrite Hc. cbn [option_list]. rewrite app_nil_r.
  assert (set_child None hd = hd) as ->.
  { destruct hd. cbn in Hc. by rewrite Hc. }
  rewrite insert_id by done. rewrite State_eta. cbv beta iota.
  erewrite bind_Ok; cycle 1.
  { by apply CreateSingleChildNode_run. }
  by rewrite (MakeMove_finish t position m c _ Hlast).
Qed.

(** X14. After [TrimTreeAtHead], [MakeMove] succeeds for every move, known
    to the old head or not: the trimmed head has no edges and no child, so
    the move (mirrored when black is to move) gets a fresh child with
    [n = 0], which becomes the new head and the head's only child on a
    one-edge list.  The old children stay with the garbage collector and the
    position after the move is appended to the history. *)
Theorem Trim_then_MakeMove (s : State) (t : NodeTree) (move : Move)
    (position : Position) (head : addr) (hd : Node) :
  last (history_ t) = Some position →
  current_head_ t = Some head →
  heap s !! head = Some hd →
  let m := if IsBlackToMove position then Mirror move else move in
  ∃ s1 s2 c hd2,
    TrimTreeAtHead t s = Ok ((), s1) ∧
    MakeMove t move s1 =
      Ok (mkNodeTree (gamebegin_node_ t) (Some c)
            (history_ t ++ [Position_play position m]), s2) ∧
    heap s1 !! c = None ∧
    heap s2 !! c = Some (Node_new (Some head) 0) ∧
    heap s2 !! head = Some hd2 ∧
    edges_ hd2 = [mkEdge m fzero] ∧
    chain (heap s2) (child_ hd2) [c] ∧
    n_ hd2 = 0 ∧ parent_ hd2 = parent_ hd ∧ index_ hd2 = index_ hd ∧
    sibling_ hd2 = sibling_ hd ∧
    (∀ a, a ≠ head → a ≠ c → heap s2 !! a = heap s !! a) ∧
    subtrees_to_gc_ s2 = subtrees_to_gc_ s ++ option_list (child_ hd).
Proof.
  intros Hlast Hhead Hhd m.
  pose proof (TrimTreeAtHead_run s t head hd Hhead Hhd) as Htrim.
  set (s1 := mkState _ _) in Htrim.
  assert (heap s1 !! head =
            Some (set_sibling (sibling_ hd) (Node_new (parent_ hd) (index_ hd))))
    as Hhd1 by apply lookup_insert_eq.
  pose proof (MakeMove_fresh_run s1 t move position head _ Hlast Hhead Hhd1
                eq_refl eq_refl) as Hmove.
  cbv zeta in Hmove. fold m in Hmove.
  set (c := fresh (dom (heap s1))) in *.
  assert (heap s1 !! c = None) as Hc by apply not_elem_of_dom, is_fresh.
  assert (head ≠ c) as Hhc by congruence.
  eexists s1, _, c, _. split; [exact Htrim|]. split; [exact Hmove|].
  cbn [heap subtrees_to_gc_].
  split; [exact Hc|].
  split; [by rewrite lookup_insert_ne, lookup_insert_eq|].
  split; [apply lookup_insert_eq|].
  split; [done|]. split.
  { cbn [child_ set_child].
    econstructor; [by rewrite lookup_insert_ne, lookup_insert_eq|].
    constructor. }
  do 4 (split; [done|]).
  split; [|done].
  intros a Ha1 Ha2. subst s1. cbn [heap]. by rewrite !lookup_insert_ne.
Qed.
End trim_and_move.

Lemma Trim_then_MakeMove_witness :
  ∃ s1 s2 c hd2,
    TrimTreeAtHead (ex_tree 1 [false]) ex_family = Ok ((), s1) ∧
    MakeMove (ex_tree 1 [false]) (mkMove 999) s1 =
      Ok (ex_tree c [false; true], s2) ∧
    heap s2 !! 1%positive = Some hd2 ∧
    edges_ hd2 = [mkEdge (mkMove 999) fzero] ∧
    subtrees_to_gc_ s2 = [2%positive].
Proof.
  destruct (Trim_then_MakeMove (H := ex_external) ex_family
              (ex_tree 1 [false]) (mkMove 999) false 1 ex_head)
    as (s1 & s2 & c & hd2 & Ht & Hm & _ & _ & Hhd & He & _ & _ & _ & _ & _
        & _ & Hq).
  - reflexivity.
  - reflexivity.
  - reflexivity.
  - by exists s1, s2, c, hd2.
Defined.

(** ** Bit reversal within bytes *)

Lemma below_64 (P : Z → bool) :
  forallb P (seqZ 0 64) = true → ∀ i, 0 ≤ i < 64 → P i = true.
Proof.
  intros HP i Hi. rewrite forallb_forall in HP. apply HP.
  apply list_elem_of_In, elem_of_seqZ. lia.
Qed.

Lemma swap_round_bit (k mask v i : Z) :
  0 ≤ k →
  forallb (round_ok k mask) (seqZ 0 64) = true →
  0 ≤ i < 64 →
  Z.testbit (swap_round k mask v) i = Z.testbit v (Z.lxor i k).
Proof.
  intros Hk Hok Hi. pose proof (below_64 _ Hok i Hi) as Hr.
  unfold round_ok in Hr. unfold swap_round, wrap64.
  rewrite Z.lor_spec, Z.land_spec, Z.shiftr_spec by lia.
  rewrite Z.mod_pow2_bits_low by lia.
  rewrite Z.shiftl_spec by lia.
  destruct (Z.testbit mask i) eqn:Hm.
  - apply andb_prop in Hr as [Hx%bool_decide_eq_true Hlow]. rewrite Hx.
    rewrite andb_true_r.
    apply orb_prop in Hlow as [Hneg%bool_decide_eq_true|Hneg%negb_true_iff].
    + by rewrite (Z.testbit_neg_r _ (i - k)), orb_false_r by lia.
    + by rewrite Z.land_spec, Hneg, andb_false_r, orb_false_r.
  - apply andb_prop in Hr as [Hr Hup].
    apply andb_prop in Hr as [Hx%bool_decide_eq_true _]. rewrite Hx.
    by rewrite andb_false_r, orb_false_l, Z.land_spec, Hup, andb_true_r.
Qed.

Lemma bits_above (n l : Z) : 0 ≤ n < 2 ^ 64 → 64 ≤ l → Z.testbit n l = false.
Proof.
  intros Hn Hl.
  by apply (Z.bounded_iff_bits_nonneg 64 n); [lia|lia|lia|].
Qed.

Lemma swap_round_range (k mask v : Z) :
  0 ≤ mask < 2 ^ 64 → 0 ≤ swap_round k mask v < 2 ^ 64.
Proof.
  intros Hm. unfold swap_round, wrap64.
  assert (0 ≤ Z.lor (Z.land (Z.shiftr v k) mask)
                (Z.shiftl (Z.land v mask) k `mod` 2 ^ 64)) as Hnn.
  { apply Z.lor_nonneg. split; [apply Z.land_nonneg; lia|].
    apply Z.mod_pos_bound. lia. }
  split; [done|].
  apply (Z.bounded_iff_bits_nonneg 64); [lia|done|].
  intros l Hl. rewrite Z.lor_spec, Z.land_spec.
  rewrite Z.mod_pow2_bits_high by lia.
  by rewrite (bits_above mask l), andb_false_r.
Qed.

Lemma ReverseBitsInBytes_rounds (v : Z) :
  ReverseBitsInBytes v =
    swap_round 4 0x0F0F0F0F0F0F0F0F
      (swap_round 2 0x3333333333333333
         (swap_round 1 0x5555555555555555 v)).
Proof. reflexivity. Qed.

Lemma lxor_7 (i : Z) :
  0 ≤ i < 64 →
  Z.lxor (Z.lxor (Z.lxor i 4) 2) 1 = 8 * (i / 8) + (7 - i mod 8) ∧
  0 ≤ Z.lxor i 4 < 64 ∧ 0 ≤ Z.lxor (Z.lxor i 4) 2 < 64.
Proof.
  intros Hi.
  pose proof (below_64
    (λ i, (Z.lxor (Z.lxor (Z.lxor i 4) 2) 1 =? 8 * (i / 8) + (7 - i mod 8)) &&
          (0 <=? Z.lxor i 4) && (Z.lxor i 4 <? 64) &&
          (0 <=? Z.lxor (Z.lxor i 4) 2) && (Z.lxor (Z.lxor i 4) 2 <? 64))
    ltac:(vm_compute; reflexivity) i Hi) as Hb.
  cbv beta in Hb. rewrite !andb_true_iff in Hb. lia.
Qed.

Lemma ReverseBitsInBytes_range (v : Z) : 0 ≤ ReverseBitsInBytes v < 2 ^ 64.
Proof. rewrite ReverseBitsInBytes_rounds. apply swap_round_range. lia. Qed.

Lemma ReverseBitsInBytes_testbit (v i : Z) :
  0 ≤ i < 64 →
  Z.testbit (ReverseBitsInBytes v) i =
    Z.testbit v (8 * (i / 8) + (7 - i mod 8)).
Proof.
  intros Hi. rewrite ReverseBitsInBytes_rounds.
  destruct (lxor_7 i Hi) as (Hx & H4 & H2).
  rewrite swap_round_bit by (done || lia || (vm_compute; reflexivity)).
  rewrite swap_round_bit by (done || lia || (vm_compute; reflexivity)).
  rewrite swap_round_bit by (done || lia || (vm_compute; reflexivity)).
  by rewrite Hx.
Qed.

Lemma mirror_in_byte (i : Z) :
  0 ≤ i < 64 →
  let j := 8 * (i / 8) + (7 - i mod 8) in
  0 ≤ j < 64 ∧ 8 * (j / 8) + (7 - j mod 8) = i.
Proof. intros Hi j. subst j. Z.div_mod_to_equations. lia. Qed.

(** X15. [ReverseBitsInBytes] keeps every byte of a 64-bit word in its place
    and mirrors the bits inside it: bit [i] of the result is bit
    [8 * (i / 8) + (7 - i mod 8)] of the argument, and the result is again a
    64-bit word. *)
Theorem ReverseBitsInBytes_mirrors (v i : Z) :
  0 ≤ i < 64 →
  0 ≤ ReverseBitsInBytes v < 2 ^ 64 ∧
  i / 8 = (8 * (i / 8) + (7 - i mod 8)) / 8 ∧
  Z.testbit (ReverseBitsInBytes v) i =
    Z.testbit v (8 * (i / 8) + (7 - i mod 8)).
Proof.
  intros Hi. split; [apply ReverseBitsInBytes_range|].
  split; [Z.div_mod_to_equations; lia|].
  by apply ReverseBitsInBytes_testbit.
Qed.

Lemma ReverseBitsInBytes_mirrors_witness :
  0 ≤ ReverseBitsInBytes 0x0102 < 2 ^ 64 ∧
  Z.testbit (ReverseBitsInBytes 0x0102) 15 = Z.testbit 0x0102 8.
Proof.
  destruct (ReverseBitsInBytes_mirrors 0x0102 15) as (Hr & _ & Hb); [lia|].
  split; [exact Hr | exact Hb].
Defined.

(** X16. On 64-bit words [ReverseBitsInBytes] is its own inverse, so it
    loses no bit of a plane. *)
Theorem ReverseBitsInBytes_involutive (v : Z) :
  0 ≤ v < 2 ^ 64 →
  ReverseBitsInBytes (ReverseBitsInBytes v) = v.
Proof.
  intros Hv. apply Z.bits_inj'. intros i Hi.
  destruct (decide (i < 64)) as [Hlt|Hge].
  - destruct (mirror_in_byte i ltac:(lia)) as [Hj Hback].
    by rewrite !ReverseBitsInBytes_testbit, Hback by lia.
  - rewrite (bits_above _ i (ReverseBitsInBytes_range _)) by lia.
    by rewrite (bits_above v i) by lia.
Qed.

Lemma ReverseBitsInBytes_involutive_witness :
  ReverseBitsInBytes (ReverseBitsInBytes 0x8040201008040201) =
    0x8040201008040201.
Proof. apply ReverseBitsInBytes_involutive. lia. Defined.

(** ** Hashing (utils/hashcat.h) *)

Lemma wrap64_range z : 0 ≤ wrap64 z < 2 ^ 64.
Proof. apply Z.mod_pos_bound. lia. Qed.

Lemma wrap64_add_l a b : wrap64 (wrap64 a + b) = wrap64 (a + b).
Proof. unfold wrap64. by rewrite Zplus_mod_idemp_l. Qed.

Lemma wrap64_add_r a b : wrap64 (a + wrap64 b) = wrap64 (a + b).
Proof. unfold wrap64. by rewrite Zplus_mod_idemp_r. Qed.

Lemma wrap64_mul_r a b : wrap64 (a * wrap64 b) = wrap64 (a * b).
Proof. unfold wrap64. by rewrite Zmult_mod_idemp_r. Qed.

Lemma wrap64_inj_add (k a b : Z) :
  wrap64 (k + a) = wrap64 (k + b) → wrap64 a = wrap64 b.
Proof.
  unfold wrap64. intros Heq.
  replace a with ((k + a) + - k) by lia. replace b with ((k + b) + - k) by lia.
  by rewrite <-(Zplus_mod_idemp_l (k + a)), Heq, Zplus_mod_idemp_l.
Qed.

(** Below 2^31 the shifted copy of the argument vanishes and [Hash] is affine
    with an odd multiplier. *)
Lemma Hash_low (val : Z) :
  0 ≤ val < 2 ^ 31 →
  Hash val =
    wrap64 (0xfad0d7f2fbb059f1 * val
            + (0xfad0d7f2fbb059f1 * 0xbaad41cdcb839961
               + 0x7acec0050bf82f43 * 0xd571b3a92b1b2755)).
Proof.
  intros Hv. unfold Hash.
  rewrite (Z.shiftr_eq_0 val 31); cycle 1.
  { lia. }
  { destruct (decide (val = 0)) as [->|Hne]; [done|].
    apply Z.log2_lt_pow2; lia. }
  rewrite !wrap64_mul_r, wrap64_add_l, wrap64_add_r. f_equal. lia.
Qed.

Lemma odd_mul_inj (a x y : Z) :
  Z.gcd (2 ^ 64) a = 1 →
  wrap64 (a * x) = wrap64 (a * y) →
  wrap64 x = wrap64 y.
Proof.
  unfold wrap64. intros Hgcd Heq.
  assert ((2 ^ 64 | a * (x - y))) as Hdiv.
  { apply Z.mod_divide; [lia|].
    replace (a * (x - y)) with (a * x - a * y) by lia.
    rewrite Zminus_mod, Heq, Z.sub_diag. done. }
  apply Z.gauss in Hdiv; [|done].
  apply Z.mod_divide in Hdiv; [|lia].
  replace x with ((x - y) + y) by lia.
  by rewrite <-Zplus_mod_idemp_l, Hdiv.
Qed.

Lemma Hash_low_inj (x y : Z) :
  0 ≤ x < 2 ^ 31 → 0 ≤ y < 2 ^ 31 →
  Hash x = Hash y → x = y.
Proof.
  intros Hx Hy. rewrite !Hash_low by done. intros Heq.
  rewrite (Z.add_comm _ (_ + _)), (Z.add_comm (_ * y)) in Heq.
  apply wrap64_inj_add, odd_mul_inj in Heq; [|by vm_compute].
  unfold wrap64 in Heq. rewrite !Z.mod_small in Heq by lia. done.
Qed.

Lemma Hash_range (val : Z) : 0 ≤ Hash val < 2 ^ 64.
Proof. apply wrap64_range. Qed.

Lemma HashCat_range (hash x : Z) :
  0 ≤ hash < 2 ^ 64 → 0 ≤ HashCat hash x < 2 ^ 64.
Proof.
  intros Hh. unfold HashCat.
  pose proof (wrap64_range
                (wrap64 (wrap64 (0x299799adf0d95def + Hash x)
                         + wrap64 (Z.shiftl hash 6))
                 + Z.shiftr hash 2)) as Hw.
  set (w := wrap64 _) in *.
  assert (0 ≤ Z.lxor hash w) as Hnn by (apply Z.lxor_nonneg; lia).
  split; [done|].
  apply (Z.bounded_iff_bits_nonneg 64); [lia|done|].
  intros l Hl. by rewrite Z.lxor_spec, !bits_above.
Qed.

Lemma HashCat_sum (hash x : Z) :
  HashCat hash x =
    Z.lxor hash
      (wrap64 (0x299799adf0d95def + wrap64 (Z.shiftl hash 6)
                 + Z.shiftr hash 2 + Hash x)).
Proof.
  unfold HashCat. f_equal.
  rewrite wrap64_add_l, <-Z.add_assoc, wrap64_add_l. f_equal. lia.
Qed.

Lemma HashCat_inj_x (hash x y : Z) :
  0 ≤ x < 2 ^ 31 → 0 ≤ y < 2 ^ 31 →
  HashCat hash x = HashCat hash y → x = y.
Proof.
  intros Hx Hy Heq. rewrite !HashCat_sum in Heq.
  apply (f_equal (Z.lxor hash)) in Heq.
  rewrite <-!Z.lxor_assoc, Z.lxor_nilpotent, !Z.lxor_0_l in Heq.
  apply wrap64_inj_add in Heq.
  unfold wrap64 in Heq.
  rewrite !Z.mod_small in Heq by apply Hash_range.
  by apply Hash_low_inj.
Qed.

Lemma foldl_HashCat_range (args : list Z) :
  ∀ h, 0 ≤ h < 2 ^ 64 → 0 ≤ foldl HashCat h args < 2 ^ 64.
Proof.
  induction args as [|x args IH]; intros h Hh; [done|].
  cbn [foldl]. by apply IH, HashCat_range.
Qed.

(** X17. [Hash] has no collisions among values below 2^31: there the shifted
    copy [val >> 31] is zero and what is left is multiplication by an odd
    constant, modulo 2^64, plus a constant.  Its results are 64-bit words. *)
Theorem Hash_collision_free_low (x y : Z) :
  0 ≤ x < 2 ^ 31 → 0 ≤ y < 2 ^ 31 →
  0 ≤ Hash x < 2 ^ 64 ∧ (Hash x = Hash y ↔ x = y).
Proof.
  intros Hx Hy. split; [apply Hash_range|].
  split; [by apply Hash_low_inj | by intros ->].
Qed.

Lemma Hash_collision_free_low_witness :
  0 ≤ Hash 5 < 2 ^ 64 ∧ (Hash 5 = Hash 7 ↔ 5 = 7).
Proof. apply Hash_collision_free_low; lia. Defined.

(** X18. The hash of a list of 64-bit values is a 64-bit word, the hash of a
    list is the hash of its front continued over its back, and two lists
    that differ only in their last value, both values below 2^31, never
    collide. *)
Theorem HashCat_list_last (args more : list Z) (x y : Z) :
  0 ≤ x < 2 ^ 31 → 0 ≤ y < 2 ^ 31 →
  0 ≤ HashCat_list args < 2 ^ 64 ∧
  HashCat_list (args ++ more) = foldl HashCat (HashCat_list args) more ∧
  (HashCat_list (args ++ [x]) = HashCat_list (args ++ [y]) ↔ x = y).
Proof.
  intros Hx Hy. unfold HashCat_list.
  split; [apply foldl_HashCat_range; lia|].
  split; [apply foldl_app|].
  rewrite !foldl_app. cbn [foldl].
  split; [by apply HashCat_inj_x | by intros ->].
Qed.

Lemma HashCat_list_last_witness :
  0 ≤ HashCat_list [1; 2] < 2 ^ 64 ∧
  HashCat_list ([1; 2] ++ [3; 4]) = foldl HashCat (HashCat_list [1; 2]) [3; 4] ∧
  (HashCat_list ([1; 2] ++ [3]) = HashCat_list ([1; 2] ++ [4]) ↔ 3 = 4).
Proof. apply HashCat_list_last; lia. Defined.

(** ** The parent's sum of visited priors *)

Lemma GetVisitedPolicy_run (s : State) (this : addr) (nd : Node) :
  heap s !! this = Some nd →
  GetVisitedPolicy this s = Ok (visited_policy_ nd, s).
Proof. intros Hnd. unfold GetVisitedPolicy. by mstep. Qed.

Lemma backups_frame (this : addr) (vs : list Qc) :
  ∀ (s : State) (nd : Node),
    heap s !! this = Some nd →
    0 < n_ nd →
    ∃ s',
      backups this vs s = Ok ((), s') ∧
      (∀ a, a ≠ this → heap s' !! a = heap s !! a) ∧
      subtrees_to_gc_ s' = subtrees_to_gc_ s.
Proof.
  induction vs as [|v vs IH]; intros s nd Hnd Hn.
  - by exists s.
  - assert (n_ nd ≠ 0) as Hn0 by lia.
    pose proof (FinalizeScoreUpdate_later s this nd (Finite v) Hnd
                  (or_introl Hn0)) as Hrun.
    set (s1 := mkState _ _) in *.
    destruct (IH s1 (finalized (Finite v) nd)) as (s' & Hrun' & Hframe & Hgc).
    { subst s1. cbn [heap]. apply lookup_insert_eq. }
    { cbn. lia. }
    exists s'. split.
    { unfold backups in *. cbn [foldlM]. by erewrite bind_Ok by exact Hrun. }
    split; [|done].
    intros a Ha. rewrite (Hframe a Ha). subst s1. cbn [heap].
    by rewrite lookup_insert_ne.
Qed.

(** X19. However many values are backed up through a child, its prior enters
    the parent's [visited_policy] once, with the child's first visit: after
    one or more backups on a child that had no visits [GetVisitedPolicy] of
    the parent has grown by the prior of the child's edge, and backups on a
    child that had visits leave it as it was. *)
Theorem visited_policy_counts_once (s : State) (this pa : addr) (nd p : Node)
    (e : Edge) (vs : list Qc) :
  vs ≠ [] →
  heap s !! this = Some nd →
  0 ≤ n_ nd →
  parent_ nd = Some pa →
  pa ≠ this →
  heap s !! pa = Some p →
  0 ≤ index_ nd →
  edges_ p !! Z.to_nat (index_ nd) = Some e →
  ∃ s',
    backups this vs s = Ok ((), s') ∧
    GetVisitedPolicy pa s' =
      Ok (if decide (n_ nd = 0)
          then fadd (visited_policy_ p) (GetP e)
          else visited_policy_ p, s').
Proof.
  intros Hvs Hnd Hn Hpa Hne Hp Hidx He.
  destruct (decide (n_ nd = 0)) as [Hn0|Hn0].
  - destruct vs as [|v vs]; [done|].
    pose proof (FinalizeScoreUpdate_first s this pa nd p e (Finite v)
                  Hnd Hn0 Hpa Hne Hp Hidx He) as Hrun.
    set (s1 := mkState _ _) in *.
    destruct (backups_frame this vs s1 (finalized (Finite v) nd))
      as (s' & Hrun' & Hframe & _).
    { subst s1. cbn [heap]. apply lookup_insert_eq. }
    { cbn. lia. }
    exists s'. split.
    { unfold backups in *. cbn [foldlM]. by erewrite bind_Ok by exact Hrun. }
    rewrite (GetVisitedPolicy_run s' pa
               (set_visited_policy (fadd (visited_policy_ p) (GetP e)) p));
      [done|].
    rewrite (Hframe pa Hne). subst s1. cbn [heap].
    by rewrite lookup_insert_ne, lookup_insert_eq by done.
  - destruct (backups_frame this vs s nd Hnd ltac:(lia))
      as (s' & Hrun' & Hframe & _).
    exists s'. split; [done|].
    rewrite (GetVisitedPolicy_run s' pa p); [done|].
    by rewrite (Hframe pa Hne).
Qed.

Lemma visited_policy_counts_once_witness :
  ∃ s',
    backups 2 [Qc_of_Z 1; Qc_of_Z 0; Qc_of_Z 1] ex_visit = Ok ((), s') ∧
    GetVisitedPolicy 1 s' =
      Ok (if decide (0 = 0)
          then fadd (visited_policy_ ex_parent)
                 (GetP (mkEdge (mkMove 20) (Finite (Qc_of_Z 3 / Qc_of_Z 4)%Qc)))
          else visited_policy_ ex_parent, s').
Proof.
  apply (visited_policy_counts_once ex_visit 2 1
           (set_n_in_flight 1 (Node_new (Some 1%positive) 1)) ex_parent).
  - discriminate.
  - reflexivity.
  - done.
  - reflexivity.
  - discriminate.
  - reflexivity.
  - done.
  - reflexivity.
Defined.

(** ** The position part of the training record *)

Lemma apply_writes_untouched probs ws (k : nat) :
  Forall (λ w, Z.to_nat w.1 ≠ k) ws →
  apply_writes probs ws !! k = probs !! k.
Proof.
  induction ws as [|w ws IH] using rev_ind; [done|].
  intros [Hws Hw]%Forall_snoc_inv. rewrite apply_writes_snoc.
  rewrite list_lookup_insert_ne by done. by apply IH.
Qed.

Lemma planes_values (s : State) (input : list Z) :
  ∀ n j,
    (j + n ≤ length input)%nat →
    mapM (λ plane_idx,
       match input !! plane_idx with
       | Some mask => mret (ReverseBitsInBytes mask)
       | None => fail Undefined
       end) (seq j n) s =
      Ok (ReverseBitsInBytes <$> take n (drop j input), s).
Proof.
  induction n as [|n IH]; intros j Hj; [done|].
  destruct (lookup_lt_is_Some_2 input j) as [mask Hmask]; [lia|].
  cbn [seq mapM]. rewrite Hmask. mstep.
  rewrite (bind_Ok _ _ _ _ _ (IH (S j) ltac:(lia))).
  unfold mret, M_ret. do 2 f_equal.
  rewrite (drop_S _ _ _ Hmask). done.
Qed.

Section training_record.
Context `{External}.

Lemma GetV3TrainingData_value (s : State) (this : addr) (nd : Node)
    (l : list addr) (game_result : GameResult) (history : list Position)
    (position : Position) :
  heap s !! this = Some nd →
  chain (heap s) (child_ nd) l →
  ascending (heap s) l →
  Forall (λ e, 0 ≤ as_nn_index (move_ e) < Z.of_nat kNumProbabilities)
    (edges_ nd) →
  (kNumPlanes ≤ length (EncodePositionForNN history 8))%nat →
  last history = Some position →
  GetV3TrainingData this game_result history s =
    Ok ({| version := 3;
           probabilities :=
             apply_writes (replicate kNumProbabilities fzero)
               (prob_writes (heap s) l (of_Z (n_ nd - 1)) (edges_ nd) 0);
           planes :=
             ReverseBitsInBytes <$>
               take kNumPlanes (EncodePositionForNN history 8);
           castling_us_ooo := bool_to_Z (CanCastle position WE_CAN_OOO);
           castling_us_oo := bool_to_Z (CanCastle position WE_CAN_OO);
           castling_them_ooo := bool_to_Z (CanCastle position THEY_CAN_OOO);
           castling_them_oo := bool_to_Z (CanCastle position THEY_CAN_OO);
           side_to_move := bool_to_Z (IsBlackToMove position);
           move_count := 0;
           rule50_count := GetNoCapturePly position;
           result :=
             if decide (game_result = WHITE_WON) then
               if IsBlackToMove position then -1 else 1
             else if decide (game_result = BLACK_WON) then
               if IsBlackToMove position then 1 else -1
             else 0 |}, s).
Proof.
  intros Hnd Hl Hasc Hrange Hplanes Hlast.
  unfold GetV3TrainingData. mstep.
  erewrite bind_Ok; cycle 1.
  { eapply fill_probabilities_run; [done..|].
    by rewrite length_replicate. }
  rewrite (bind_Ok _ _ _ _ _
             (planes_values s (EncodePositionForNN history 8) kNumPlanes 0
                Hplanes)).
  unfold Last. rewrite Hlast. by mstep.
Qed.

(** X20. Besides version, probabilities at the edges and result, the record
    of [GetV3TrainingData] holds: one plane for each of the first
    [kNumPlanes] input planes of the encoded history, in order, each with the
    bits of its bytes reversed; the castling flags, the side to move (1 for
    black) and the no-capture count of the last position of the history; a
    [probabilities] array of [kNumProbabilities] entries whose entries at
    indices of no edge are 0.  The store is not changed. *)
Theorem GetV3TrainingData_position_fields (s : State) (this : addr)
    (nd : Node) (l : list addr) (game_result : GameResult)
    (history : list Position) (position : Position) :
  heap s !! this = Some nd →
  chain (heap s) (child_ nd) l →
  ascending (heap s) l →
  Forall (λ e, 0 ≤ as_nn_index (move_ e) < Z.of_nat kNumProbabilities)
    (edges_ nd) →
  (kNumPlanes ≤ length (EncodePositionForNN history 8))%nat →
  last history = Some position →
  ∃ r,
    GetV3TrainingData this game_result history s = Ok (r, s) ∧
    length (planes r) = kNumPlanes ∧
    (∀ (k : nat) mask,
       (k < kNumPlanes)%nat →
       EncodePositionForNN history 8 !! k = Some mask →
       planes r !! k = Some (ReverseBitsInBytes mask)) ∧
    castling_us_ooo r = (if CanCastle position WE_CAN_OOO then 1 else 0) ∧
    castling_us_oo r = (if CanCastle position WE_CAN_OO then 1 else 0) ∧
    castling_them_ooo r = (if CanCastle position THEY_CAN_OOO then 1 else 0) ∧
    castling_them_oo r = (if CanCastle position THEY_CAN_OO then 1 else 0) ∧
    side_to_move r = (if IsBlackToMove position then 1 else 0) ∧
    rule50_count r = GetNoCapturePly position ∧
    length (probabilities r) = kNumProbabilities ∧
    (∀ k : nat,
       (k < kNumProbabilities)%nat →
       (∀ e, e ∈ edges_ nd → as_nn_index (move_ e) ≠ Z.of_nat k) →
       probabilities r !! k = Some (of_Z 0)).
Proof.
  intros Hnd Hl Hasc Hrange Hplanes Hlast.
  eexists. split; [by eapply GetV3TrainingData_value|].
  cbn [planes castling_us_ooo castling_us_oo castling_them_ooo
       castling_them_oo side_to_move rule50_count probabilities].
  split; [rewrite length_fmap, length_take; lia|].
  split.
  { intros k mask Hk Hmask.
    by rewrite list_lookup_fmap, lookup_take_lt, Hmask by done. }
  do 6 (split; [done|]).
  split; [by rewrite apply_writes_length, length_replicate|].
  intros k Hk Hno. rewrite apply_writes_untouched.
  - by apply lookup_replicate_2.
  - apply Forall_forall. intros w Hw.
    apply list_elem_of_lookup in Hw as [j Hj].
    destruct (lookup_lt_is_Some_2 (edges_ nd) j) as [e He].
    { apply lookup_lt_Some in Hj.
      assert (length (prob_writes (heap s) l (of_Z (n_ nd - 1)) (edges_ nd) 0).*1
              = length (edges_ nd)) as Hlen
        by by rewrite prob_writes_fst, length_fmap.
      rewrite length_fmap in Hlen. lia. }
    rewrite (prob_writes_lookup _ _ _ _ _ _ _ He) in Hj.
    injection Hj as <-. cbn [fst].
    assert (e ∈ edges_ nd) as Hin by by eapply list_elem_of_lookup_2.
    rewrite Forall_forall in Hrange.
    pose proof (Hrange e Hin). pose proof (Hno e Hin). lia.
Qed.
End training_record.

Lemma GetV3TrainingData_position_fields_witness :
  ∃ r,
    GetV3TrainingData (H := ex_external) 1 WHITE_WON [false] ex_family
      = Ok (r, ex_family) ∧
    planes r = [ReverseBitsInBytes 1; ReverseBitsInBytes 2] ∧
    side_to_move r = 0 ∧
    probabilities r !! 6%nat = Some (of_Z 0) ∧
    probabilities r !! 7%nat = Some (of_Z 0).
Proof.
  destruct (GetV3TrainingData_position_fields (H := ex_external) ex_family 1
              ex_head [2; 3; 4]%positive WHITE_WON [false] false)
    as (r & Hrun & Hlen & Hpl & _ & _ & _ & _ & Hside & _ & _ & Hzero).
  - reflexivity.
  - exact ex_family_chain.
  - exact ex_family_ascending.
  - repeat (apply List.Forall_cons; [by vm_compute|]). apply List.Forall_nil.
  - cbn. lia.
  - reflexivity.
  - exists r. split; [exact Hrun|]. split.
    { pose proof (Hpl 0%nat 1 ltac:(cbn; lia) eq_refl) as H0.
      pose proof (Hpl 1%nat 2 ltac:(cbn; lia) eq_refl) as H1.
      destruct (planes r) as [|p0 [|p1 [|p2 pls]]]; try discriminate.
      by injection H0 as ->; injection H1 as ->. }
    split; [exact Hside|].
    split; apply Hzero; try (cbn; lia);
      intros e He; vm_compute in He;
      repeat (apply elem_of_cons in He as [->|He]; [by vm_compute|]);
      by apply elem_of_nil in He.
Defined.

(** ** Collecting the garbage *)

Lemma owns_lookup h p l a : owns h p l → a ∈ l → is_Some (h !! a).
Proof.
  induction 1 as [|b nd ls lc Hb _ IHs _ IHc _]; intros Ha.
  - by apply elem_of_nil in Ha.
  - apply elem_of_cons in Ha as [->|Ha]; [done|].
    apply elem_of_app in Ha as [Ha|Ha]; auto.
Qed.

Lemma owns_NoDup h p l : owns h p l → NoDup l.
Proof. destruct 1; [constructor | done]. Qed.

Lemma NoDup_length_size (h : gmap addr Node) (l : list addr) :
  NoDup l → (∀ a, a ∈ l → is_Some (h !! a)) → (length l ≤ size h)%nat.
Proof.
  intros Hdup Hin. rewrite <-(size_dom (D := gset positive)).
  rewrite <-(size_list_to_set (C := gset positive) l) by done.
  apply subseteq_size. intros a Ha. apply elem_of_list_to_set in Ha.
  apply elem_of_dom. by apply Hin.
Qed.

Lemma destroy_run (h : gmap addr Node) (p : option addr) (l : list addr) :
  owns h p l →
  ∀ fuel s,
    (length l ≤ fuel)%nat →
    (∀ a, a ∈ l → heap s !! a = h !! a) →
    ∃ s',
      destroy fuel p s = Ok ((), s') ∧
      subtrees_to_gc_ s' = subtrees_to_gc_ s ∧
      ∀ a, heap s' !! a = if decide (a ∈ l) then None else heap s !! a.
Proof.
  induction 1 as [|b nd ls lc Hb _ IHs _ IHc Hdup]; intros fuel s Hfuel Hagree.
  - exists s. split; [by destruct fuel|]. split; [done|].
    intros a. rewrite decide_False; [done|]. apply not_elem_of_nil.
  - apply NoDup_cons in Hdup as [Hb' Hdup].
    apply NoDup_app in Hdup as (_ & Hdis & _).
    rewrite elem_of_app in Hb'.
    cbn [length] in Hfuel. rewrite length_app in Hfuel.
    destruct fuel as [|fuel]; [lia|]. cbn [destroy].
    assert (heap s !! b = Some nd) as Hsb.
    { rewrite Hagree; [done|]. by left. }
    mstep.
    destruct (IHs fuel s) as (s1 & Hrun1 & Hq1 & Hh1); [lia| |].
    { intros a Ha. apply Hagree. right. apply elem_of_app. by left. }
    rewrite (bind_Ok _ _ _ _ _ Hrun1).
    destruct (IHc fuel s1) as (s2 & Hrun2 & Hq2 & Hh2); [lia| |].
    { intros a Ha. rewrite Hh1, decide_False by (intros ?; by eapply Hdis).
      apply Hagree. right. apply elem_of_app. by right. }
    rewrite (bind_Ok _ _ _ _ _ Hrun2).
    assert (heap s2 !! b = Some nd) as Hs2b.
    { rewrite Hh2, decide_False by tauto.
      by rewrite Hh1, decide_False by tauto. }
    unfold free. rewrite Hs2b. eexists. split; [done|].
    cbn [heap subtrees_to_gc_]. split; [congruence|].
    intros a. destruct (decide (a = b)) as [->|Hab].
    + rewrite lookup_delete_eq, decide_True; [done|by left].
    + rewrite lookup_delete_ne by done. rewrite Hh2, Hh1.
      destruct (decide (a ∈ lc)) as [Hc|Hc].
      { rewrite decide_True; [done|]. right. apply elem_of_app. by right. }
      destruct (decide (a ∈ ls)) as [Hs|Hs].
      { rewrite decide_True; [done|]. right. apply elem_of_app. by left. }
      rewrite decide_False; [done|].
      rewrite elem_of_cons, elem_of_app. tauto.
Qed.

Lemma GarbageCollect_loop_run (h : gmap addr Node) :
  ∀ (q : list addr) (ls : list (list addr)) (fuel : nat) (s : State),
    subtrees_to_gc_ s = q →
    Forall2 (λ r l, owns h (Some r) l) q ls →
    NoDup (concat ls) →
    (∀ a, a ∈ concat ls → heap s !! a = h !! a) →
    (length q ≤ fuel)%nat →
    ∃ s',
      GarbageCollect_loop fuel s = Ok ((), s') ∧
      subtrees_to_gc_ s' = [] ∧
      ∀ a, heap s' !! a = if decide (a ∈ concat ls) then None else heap s !! a.
Proof.
  induction q as [|r q IH] using rev_ind; intros ls fuel s Hq Hown Hdup Hagree Hfuel.
  - apply Forall2_nil_inv_l in Hown as ->.
    exists s. split; [destruct fuel; cbn; by rewrite Hq|]. split; [done|].
    intros a. rewrite decide_False; [done|]. apply not_elem_of_nil.
  - apply Forall2_app_inv_l in Hown as (ls1 & ls2 & Hown1 & Hown2 & ->).
    apply Forall2_cons_inv_l in Hown2 as (l & ls2' & Hl & Hnil & ->).
    apply Forall2_nil_inv_l in Hnil as ->.
    rewrite concat_app in Hdup, Hagree |- *.
    cbn [concat] in Hdup, Hagree |- *. rewrite app_nil_r in Hdup, Hagree |- *.
    apply NoDup_app in Hdup as (Hdup1 & Hdis & Hdupl).
    rewrite length_app in Hfuel. cbn [length] in Hfuel.
    destruct fuel as [|fuel]; [lia|].
    cbn [GarbageCollect_loop]. rewrite Hq, last_snoc, removelast_last.
    destruct (destroy_run h (Some r) l Hl (S (size (heap s)))
                (mkState (heap s) q)) as (s1 & Hrun1 & Hq1 & Hh1).
    { cbn [heap]. etrans; [|apply Nat.le_succ_diag_r].
      apply NoDup_length_size; [done|].
      intros a Ha. rewrite Hagree by (apply elem_of_app; by right).
      by eapply owns_lookup. }
    { intros a Ha. apply Hagree, elem_of_app. by right. }
    rewrite bind_with_fuel. cbn [heap].
    rewrite (bind_Ok _ _ _ _ _ Hrun1).
    destruct (IH ls1 fuel s1) as (s' & Hrun & Hq' & Hh'); [done|done|done| |lia|].
    { intros a Ha. rewrite Hh1, decide_False by (intros ?; by eapply Hdis).
      apply Hagree, elem_of_app. by left. }
    exists s'. split; [done|]. split; [done|].
    intros a. rewrite Hh', Hh1. cbn [heap].
    destruct (decide (a ∈ concat ls1)) as [H1|H1].
    { rewrite decide_True; [done|]. apply elem_of_app. by left. }
    destruct (decide (a ∈ l)) as [H2|H2].
    { rewrite decide_True; [done|]. apply elem_of_app. by right. }
    rewrite decide_False; [done|]. rewrite elem_of_app. tauto.
Qed.

(** X21. [GarbageCollect] empties the queue: each queued subtree is destroyed
    whole, the node at its root and everything that node owns through
    [child_] and [sibling_], and no node outside the queued subtrees is
    touched.  (The queued subtrees are trees and share no node.) *)
Theorem GarbageCollect_frees (s : State) (ls : list (list addr)) :
  Forall2 (λ r l, owns (heap s) (Some r) l) (subtrees_to_gc_ s) ls →
  NoDup (concat ls) →
  ∃ s',
    GarbageCollect s = Ok ((), s') ∧
    subtrees_to_gc_ s' = [] ∧
    (∀ a, a ∈ concat ls → heap s' !! a = None) ∧
    (∀ a, a ∉ concat ls → heap s' !! a = heap s !! a).
Proof.
  intros Hown Hdup.
  destruct (GarbageCollect_loop_run (heap s) (subtrees_to_gc_ s) ls
              (length (subtrees_to_gc_ s)) s)
    as (s' & Hrun & Hq & Hh); [done..|].
  exists s'. split; [done|]. split; [done|].
  split; intros a Ha; rewrite Hh; [by rewrite decide_True|by rewrite decide_False].
Qed.

(** X22. Released children are not freed by [ReleaseChildren] but by the next
    [GarbageCollect]: after both, every node below the parent is gone from
    the store, the parent is there with no child and its other fields as
    before, nothing else has changed and the queue is empty. *)
Theorem ReleaseChildren_then_collect (s : State) (this : addr) (nd : Node)
    (l : list addr) :
  heap s !! this = Some nd →
  owns (heap s) (child_ nd) l →
  this ∉ l →
  subtrees_to_gc_ s = [] →
  ∃ s',
    (ReleaseChildren this;; GarbageCollect) s = Ok ((), s') ∧
    subtrees_to_gc_ s' = [] ∧
    heap s' !! this = Some (set_child None nd) ∧
    (∀ a, a ∈ l → heap s' !! a = None) ∧
    (∀ a, a ∉ l → a ≠ this → heap s' !! a = heap s !! a).
Proof.
  intros Hnd Hown Hthis Hq.
  rewrite (bind_Ok _ _ _ _ _ (ReleaseChildren_run s this nd Hnd)).
  rewrite Hq, app_nil_l.
  set (h1 := <[this := set_child None nd]> (heap s)).
  assert (owns h1 (child_ nd) l) as Hown1.
  { clear Hq. induction Hown as [|b ndb ls lc Hb _ IHs _ IHc Hdup];
      [constructor|].
    rewrite not_elem_of_cons, not_elem_of_app in Hthis.
    econstructor; [|apply IHs; tauto|apply IHc; tauto|done].
    unfold h1. rewrite lookup_insert_ne; [done|]. tauto. }
  destruct (GarbageCollect_loop_run h1 (option_list (child_ nd))
              (match child_ nd with Some _ => [l] | None => [] end)
              (length (option_list (child_ nd)))
              (mkState h1 (option_list (child_ nd))))
    as (s' & Hrun & Hq' & Hh); [done| | |done|done|].
  { destruct (child_ nd); repeat constructor. done. }
  { destruct (child_ nd); cbn; [rewrite app_nil_r; by eapply owns_NoDup|constructor]. }
  assert (concat (match child_ nd with Some _ => [l] | None => [] end) = l)
    as Hconcat.
  { destruct Hown; cbn; [done|by rewrite app_nil_r]. }
  rewrite Hconcat in Hh. cbn [heap] in Hh.
  exists s'. split; [done|]. split; [done|].
  split.
  { rewrite Hh, decide_False by done. apply lookup_insert_eq. }
  split; intros a Ha.
  - by rewrite Hh, decide_True.
  - intros Hne. rewrite Hh, decide_False by done.
    by apply lookup_insert_ne.
Qed.

Ltac solve_NoDup :=
  cbn [app concat];
  repeat (apply NoDup_cons_2;
          [rewrite ?elem_of_cons, elem_of_nil; intuition discriminate|]);
  apply NoDup_nil_2.

Lemma ex_family_owns : owns (heap ex_family) (Some 2%positive) [2; 3; 4]%positive.
Proof.
  eapply (owns_node _ 2 _ [3; 4]%positive []);
    [reflexivity| |apply owns_null|solve_NoDup].
  eapply (owns_node _ 3 _ [4]%positive []);
    [reflexivity| |apply owns_null|solve_NoDup].
  eapply (owns_node _ 4 _ [] []);
    [reflexivity|apply owns_null|apply owns_null|solve_NoDup].
Qed.

Lemma GarbageCollect_frees_witness :
  ∃ s',
    GarbageCollect ex_released = Ok ((), s') ∧
    subtrees_to_gc_ s' = [] ∧
    heap s' !! 2%positive = None ∧
    heap s' !! 3%positive = None ∧
    heap s' !! 4%positive = None ∧
    heap s' !! 1%positive = Some (set_child None ex_head).
Proof.
  destruct (GarbageCollect_frees ex_released [[2; 3; 4]%positive])
    as (s' & Hrun & Hq & Hgone & Hkept).
  - constructor; [|constructor].
    eapply (owns_node _ 2 _ [3; 4]%positive []);
      [reflexivity| |apply owns_null|solve_NoDup].
    eapply (owns_node _ 3 _ [4]%positive []);
      [reflexivity| |apply owns_null|solve_NoDup].
    eapply (owns_node _ 4 _ [] []);
      [reflexivity|apply owns_null|apply owns_null|solve_NoDup].
  - solve_NoDup.
  - exists s'. split; [exact Hrun|]. split; [exact Hq|].
    repeat split; try (apply Hgone; cbn; rewrite !elem_of_cons; auto).
    rewrite Hkept; [reflexivity|].
    cbn. rewrite !elem_of_cons, elem_of_nil.
    intros [?|[?|[?|[]]]]; discriminate.
Defined.

Lemma ReleaseChildren_then_collect_witness :
  ∃ s',
    (ReleaseChildren 1;; GarbageCollect) ex_family = Ok ((), s') ∧
    subtrees_to_gc_ s' = [] ∧
    heap s' !! 1%positive = Some (set_child None ex_head) ∧
    heap s' !! 2%positive = None ∧
    heap s' !! 3%positive = None ∧
    heap s' !! 4%positive = None.
Proof.
  destruct (ReleaseChildren_then_collect ex_family 1 ex_head
              [2; 3; 4]%positive)
    as (s' & Hrun & Hq & Hthis & Hgone & _).
  - reflexivity.
  - exact ex_family_owns.
  - rewrite !elem_of_cons, elem_of_nil. intros [?|[?|[?|[]]]]; discriminate.
  - reflexivity.
  - exists s'. split; [exact Hrun|]. split; [exact Hq|]. split; [exact Hthis|].
    repeat split; apply Hgone; rewrite !elem_of_cons; auto.
Defined.

(** ** The policy target as a distribution *)

Lemma fadd_comm a b : fadd a b = fadd b a.
Proof. destruct a, b; cbn; try done. f_equal. ring. Qed.

Lemma fadd_assoc a b c : fadd a (fadd b c) = fadd (fadd a b) c.
Proof. destruct a, b, c; cbn; try done. f_equal. ring. Qed.

Lemma fadd_zero_r a : fadd a fzero = a.
Proof.
  destruct a; cbn; [|done]. f_equal. rewrite Z2Qc_inj_0. ring.
Qed.

Lemma fsum_cons y l : fsum (y :: l) = fadd y (fsum l).
Proof. done. Qed.

Lemma fsum_snoc l x : fsum (l ++ [x]) = fadd x (fsum l).
Proof.
  induction l as [|y l IH].
  - done.
  - rewrite <-app_comm_cons, !fsum_cons, IH.
    by rewrite !fadd_assoc, (fadd_comm y x).
Qed.

Lemma fsum_insert_zero l (k : nat) x :
  l !! k = Some fzero → fsum (<[k := x]> l) = fadd x (fsum l).
Proof.
  revert k. induction l as [|y l IH]; intros k Hk; [done|].
  destruct k as [|k].
  - injection Hk as ->.
    change (<[0%nat := x]> (fzero :: l)) with (x :: l).
    by rewrite !fsum_cons, (fadd_comm fzero), fadd_zero_r.
  - change (<[S k := x]> (y :: l)) with (y :: <[k := x]> l).
    rewrite !fsum_cons, (IH k Hk).
    by rewrite !fadd_assoc, (fadd_comm y x).
Qed.

Lemma fsum_replicate_zero (size : nat) : fsum (replicate size fzero) = fzero.
Proof.
  induction size as [|size IH]; [done|].
  change (replicate (S size) fzero) with (fzero :: replicate size fzero).
  rewrite fsum_cons, IH. apply fadd_zero_r.
Qed.

Lemma fsum_apply_writes (size : nat) (ws : list (Z * Float)) :
  Forall (λ w, 0 ≤ w.1 < Z.of_nat size) ws →
  NoDup ws.*1 →
  fsum (apply_writes (replicate size fzero) ws) = fsum ws.*2.
Proof.
  induction ws as [|w ws IH] using rev_ind; intros Hrange Hdup.
  - apply fsum_replicate_zero.
  - apply Forall_snoc_inv in Hrange as [Hrange Hw].
    rewrite fmap_app in Hdup. apply NoDup_app in Hdup as (Hdup & Hdis & _).
    rewrite apply_writes_snoc, fmap_app.
    change ([w].*2) with [w.2]. rewrite fsum_snoc.
    rewrite fsum_insert_zero; [by rewrite IH|].
    rewrite apply_writes_untouched; [apply lookup_replicate_2; lia|].
    apply Forall_forall. intros w' Hw' Heq.
    rewrite Forall_forall in Hrange. pose proof (Hrange w' Hw').
    apply (Hdis w'.1); [by apply list_elem_of_fmap_2|].
    assert (w'.1 = w.1) as -> by lia. by left.
Qed.

Lemma sum_point (L : list Z) (f g : Z → Z) (j a : Z) :
  NoDup L → j ∈ L →
  (∀ i, i ∈ L → i ≠ j → g i = f i) →
  g j = f j + a →
  foldr Z.add 0 (g <$> L) = foldr Z.add 0 (f <$> L) + a.
Proof.
  intros Hdup Hj Hother Hat.
  induction Hdup as [|i L Hi Hdup IH]; [by apply elem_of_nil in Hj|].
  cbn [fmap list_fmap foldr].
  destruct (decide (i = j)) as [->|Hij].
  - rewrite Hat.
    assert (g <$> L = f <$> L) as ->; [|lia].
    apply list_fmap_ext. intros k x Hx. apply Hother.
    + right. by eapply list_elem_of_lookup_2.
    + intros ->. apply Hi. by eapply list_elem_of_lookup_2.
  - apply elem_of_cons in Hj as [?|Hj]; [done|].
    rewrite IH; [|done|].
    + rewrite (Hother i); [lia|by left|done].
    + intros k Hk. apply Hother. by right.
Qed.

Lemma edge_visits_sum (h : gmap addr Node) (l : list addr) (size : Z) :
  ascending h l →
  (∀ c, c ∈ l → ∃ x, index_of h c = Some x ∧ 0 ≤ x < size) →
  foldr Z.add 0 (edge_visits h l <$> seqZ 0 size) = visits h l.
Proof.
  induction 1 as [|c l Hsorted IH Hall]; intros Hin.
  - cbn [visits foldr]. unfold edge_visits. cbn [child_at].
    induction (seqZ 0 size) as [|i L IHL]; [done|]. cbn. by rewrite IHL.
  - destruct (Hin c ltac:(by left)) as (x & Hx & Hrange).
    assert (child_at h l x = None) as Hnone.
    { destruct (child_at h l x) as [c'|] eqn:Hc'; [|done].
      apply child_at_Some in Hc' as [Hc' Hx'].
      rewrite Forall_forall in Hall.
      destruct (Hall c' Hc') as (y & z & Hy & Hz & Hlt).
      rewrite Hx in Hy. rewrite Hx' in Hz. injection Hy as <-.
      injection Hz as <-. lia. }
    rewrite (sum_point _ (edge_visits h l) _ x (default 0 (n_ <$> h !! c))).
    + rewrite IH; [cbn [visits foldr]; fold (visits h l); lia|].
      intros c' Hc'. apply Hin. by right.
    + apply NoDup_seqZ.
    + apply elem_of_seqZ. lia.
    + intros i _ Hi. unfold edge_visits. cbn [child_at].
      rewrite decide_False; [done|]. rewrite Hx. congruence.
    + unfold edge_visits. cbn [child_at]. rewrite decide_True by done.
      rewrite Hnone. lia.
Qed.

Section training_distribution.
Context `{External}.

Lemma prob_writes_sum h l (m : Z) edges :
  m ≠ 0 →
  ∀ i,
    fsum (prob_writes h l (of_Z m) edges i).*2 =
      Finite (Qc_of_Z (foldr Z.add 0%Z
                         (edge_visits h l <$> seqZ i (Z.of_nat (length edges))))
              / Qc_of_Z m)%Qc.
Proof.
  intros Hm. pose proof (Qc_of_Z_nonzero _ Hm) as Hnz.
  induction edges as [|e edges IH]; intros i.
  - change (Finite (Qc_of_Z 0) = Finite (Qc_of_Z 0 / Qc_of_Z m)%Qc).
    f_equal. rewrite Z2Qc_inj_0. field. done.
  - cbn [prob_writes fmap list_fmap snd fsum foldr length].
    fold (fsum (prob_writes h l (of_Z m) edges (i + 1)).*2).
    rewrite IH, of_Z_div by done. cbn [fadd].
    rewrite (seqZ_cons i) by lia. cbn [fmap list_fmap foldr].
    replace (Z.succ i) with (i + 1) by lia.
    replace (Z.pred (Z.of_nat (S (length edges))))
      with (Z.of_nat (length edges)) by lia.
    f_equal. rewrite Z2Qc_inj_add. field. done.
Qed.

(** X23. In exact arithmetic the [probabilities] of [GetV3TrainingData] add
    up to the visits of the children over [n - 1] of the head.  So the
    policy target is a probability distribution, adding up to 1, when the
    children's visits add up to the head's visits without its own expansion
    visit.  (The head has [n] other than 1, the children are in ascending
    order on edges of the head, and the policy indices of the edges are
    distinct and within the array.) *)
Theorem GetV3TrainingData_distribution (s : State) (this : addr) (nd : Node)
    (l : list addr) (game_result : GameResult) (history : list Position)
    (position : Position) :
  heap s !! this = Some nd →
  chain (heap s) (child_ nd) l →
  ascending (heap s) l →
  (∀ c, c ∈ l → ∃ x, index_of (heap s) c = Some x ∧
                      0 ≤ x < Z.of_nat (length (edges_ nd))) →
  n_ nd ≠ 1 →
  Forall (λ e, 0 ≤ as_nn_index (move_ e) < Z.of_nat kNumProbabilities)
    (edges_ nd) →
  NoDup ((λ e, as_nn_index (move_ e)) <$> edges_ nd) →
  (kNumPlanes ≤ length (EncodePositionForNN history 8))%nat →
  last history = Some position →
  ∃ r,
    GetV3TrainingData this game_result history s = Ok (r, s) ∧
    fsum (probabilities r) =
      Finite (Qc_of_Z (visits (heap s) l) / Qc_of_Z (n_ nd - 1))%Qc ∧
    (visits (heap s) l = n_ nd - 1 → fsum (probabilities r) = fone).
Proof.
  intros Hnd Hl Hasc Hon Hn Hrange Hdup Hplanes Hlast.
  assert (n_ nd - 1 ≠ 0) as Hm by lia.
  eexists. split; [by eapply GetV3TrainingData_value|].
  cbn [probabilities].
  assert (fsum (apply_writes (replicate kNumProbabilities fzero)
                  (prob_writes (heap s) l (of_Z (n_ nd - 1)) (edges_ nd) 0)) =
          Finite (Qc_of_Z (visits (heap s) l) / Qc_of_Z (n_ nd - 1))%Qc)
    as Hsum.
  { rewrite fsum_apply_writes.
    - by rewrite prob_writes_sum, edge_visits_sum.
    - apply Forall_forall. intros w Hw.
      apply list_elem_of_lookup in Hw as [j Hj].
      destruct (lookup_lt_is_Some_2 (edges_ nd) j) as [e He].
      { apply lookup_lt_Some in Hj.
        assert (length (prob_writes (heap s) l (of_Z (n_ nd - 1))
                          (edges_ nd) 0).*1
                = length (edges_ nd)) as Hlen
          by by rewrite prob_writes_fst, length_fmap.
        rewrite length_fmap in Hlen. lia. }
      rewrite (prob_writes_lookup _ _ _ _ _ _ _ He) in Hj.
      injection Hj as <-. cbn [fst].
      rewrite Forall_forall in Hrange. apply Hrange.
      by eapply list_elem_of_lookup_2.
    - by rewrite prob_writes_fst. }
  split; [done|].
  intros Hall. rewrite Hsum, Hall. unfold fone, of_Z. f_equal.
  rewrite Z2Qc_inj_1. field. rewrite <-Z2Qc_inj_0. intros Heq.
  by apply Z2Qc_inj in Heq.
Qed.
End training_distribution.

Lemma GetV3TrainingData_distribution_witness :
  ∃ r,
    GetV3TrainingData (H := ex_external) 1 WHITE_WON [false] ex_family
      = Ok (r, ex_family) ∧
    fsum (probabilities r) = fone.
Proof.
  destruct (GetV3TrainingData_distribution (H := ex_external) ex_family 1
              ex_head [2; 3; 4]%positive WHITE_WON [false] false)
    as (r & Hrun & _ & Hone).
  - reflexivity.
  - exact ex_family_chain.
  - exact ex_family_ascending.
  - intros c Hc. rewrite !elem_of_cons, elem_of_nil in Hc.
    destruct Hc as [->|[->|[->|[]]]]; eexists; (split; [reflexivity|done]).
  - done.
  - repeat (apply List.Forall_cons; [by vm_compute|]). apply List.Forall_nil.
  - cbn. solve_NoDup.
  - cbn. lia.
  - reflexivity.
  - exists r. split; [exact Hrun|]. by apply Hone.
Defined.

(** ** Playing moves from an unexpanded head *)

Section play_moves.
Context `{External}.

(** X24. From a head without edges every sequence of moves can be played:
    each [MakeMove] succeeds, allocates exactly one node and makes it the
    head, again without edges, children and visits.  Nothing is handed to
    the garbage collector, the root stays the same and the history grows by
    one position for each move. *)
Theorem MakeMove_sequence (moves : list Move) :
  ∀ (t : NodeTree) (s : State) (head : addr) (hd : Node),
    current_head_ t = Some head →
    heap s !! head = Some hd →
    edges_ hd = [] →
    child_ hd = None →
    history_ t ≠ [] →
    ∃ t' s' head' hd',
      foldlM MakeMove t moves s = Ok (t', s') ∧
      current_head_ t' = Some head' ∧
      heap s' !! head' = Some hd' ∧
      edges_ hd' = [] ∧ child_ hd' = None ∧
      (moves ≠ [] → heap s !! head' = None ∧ n_ hd' = 0) ∧
      gamebegin_node_ t' = gamebegin_node_ t ∧
      length (history_ t') = (length (history_ t) + length moves)%nat ∧
      size (heap s') = (size (heap s) + length moves)%nat ∧
      subtrees_to_gc_ s' = subtrees_to_gc_ s.
Proof.
  induction moves as [|move moves IH]; intros t s head hd Hhead Hhd He Hc Hhist.
  - exists t, s, head, hd. cbn [foldlM length].
    rewrite !Nat.add_0_r. by repeat split.
  - assert (is_Some (last (history_ t))) as [position Hlast].
    { apply last_is_Some. by destruct (history_ t). }
    pose proof (MakeMove_fresh_run s t move position head hd Hlast Hhead Hhd
                  He Hc) as Hrun.
    cbv zeta in Hrun.
    set (m := if IsBlackToMove position then Mirror move else move) in *.
    set (c := fresh (dom (heap s))) in *.
    set (t1 := mkNodeTree _ _ _) in Hrun. set (s1 := mkState _ _) in Hrun.
    assert (heap s !! c = None) as Hfresh by apply not_elem_of_dom, is_fresh.
    assert (head ≠ c) as Hhc by congruence.
    destruct (IH t1 s1 c (Node_new (Some head) 0))
      as (t' & s' & head' & hd' & Hrun' & Hhead' & Hhd' & He' & Hc' & Hnew
          & Hroot & Hlen & Hsize & Hgc).
    { done. }
    { subst s1. cbn [heap]. by rewrite lookup_insert_ne, lookup_insert_eq. }
    { done. }
    { done. }
    { subst t1. cbn [history_]. by destruct (history_ t). }
    assert (size (heap s1) = S (size (heap s))) as Hsize1.
    { subst s1. cbn [heap].
      rewrite map_size_insert_Some
        by (rewrite lookup_insert_ne by done; by eexists).
      by rewrite map_size_insert_None. }
    exists t', s', head', hd'. split.
    { cbn [foldlM]. by rewrite (bind_Ok _ _ _ _ _ Hrun). }
    split; [done|]. split; [done|]. split; [done|]. split; [done|].
    split.
    { intros _. destruct moves as [|move' moves'].
      - cbn [foldlM] in Hrun'. injection Hrun' as <- <-.
        cbn [current_head_] in Hhead'. injection Hhead' as <-.
        subst s1. cbn [heap] in Hhd'.
        rewrite lookup_insert_ne, lookup_insert_eq in Hhd' by done.
        injection Hhd' as <-. done.
      - destruct (Hnew ltac:(done)) as [Hnone Hn]. split; [|done].
        subst s1. cbn [heap] in Hnone.
        apply lookup_insert_None in Hnone as [Hnone _].
        by apply lookup_insert_None in Hnone as [Hnone _]. }
    split; [by rewrite Hroot|].
    split.
    { rewrite Hlen. subst t1. cbn [history_ length].
      rewrite length_app. cbn [length]. lia. }
    split; [rewrite Hsize, Hsize1; cbn [length]; lia|].
    by rewrite Hgc.
Qed.
End play_moves.

Lemma MakeMove_sequence_witness :
  ∃ t' s' head' hd',
    foldlM MakeMove (ex_tree 1 [true]) [mkMove 7; mkMove 8; mkMove 9] ex_fresh
      = Ok (t', s') ∧
    current_head_ t' = Some head' ∧
    heap s' !! head' = Some hd' ∧
    edges_ hd' = [] ∧
    length (history_ t') = 4%nat ∧
    size (heap s') = 4%nat.
Proof.
  destruct (MakeMove_sequence (H := ex_external)
              [mkMove 7; mkMove 8; mkMove 9] (ex_tree 1 [true]) ex_fresh 1
              (Node_new None 0))
    as (t' & s' & head' & hd' & Hrun & Hhead & Hhd & He & _ & _ & _ & Hlen
        & Hsize & _).
  - reflexivity.
  - reflexivity.
  - reflexivity.
  - reflexivity.
  - discriminate.
  - by exists t', s', head', hd'.
Defined.

(** ** The value of a terminal node *)

Lemma MakeTerminal_run (s : State) (this : addr) (nd : Node)
    (result : GameResult) :
  heap s !! this = Some nd →
  MakeTerminal this result s =
    Ok ((), mkState
              (<[this := set_q (if decide (result = DRAW) then fzero else fone)
                           (set_is_terminal true nd)]> (heap s))
              (subtrees_to_gc_ s)).
Proof.
  intros Hnd. unfold MakeTerminal. do 2 mstep. by rewrite insert_insert_eq.
Qed.

Lemma FinalizeScoreUpdate_this (s : State) (this : addr) (nd : Node)
    (v : Float) :
  heap s !! this = Some nd →
  parent_ nd ≠ Some this →
  (n_ nd = 0 →
   ∀ pa, parent_ nd = Some pa →
     ∃ p e, heap s !! pa = Some p ∧ 0 ≤ index_ nd ∧
            edges_ p !! Z.to_nat (index_ nd) = Some e) →
  ∃ s',
    FinalizeScoreUpdate this v s = Ok ((), s') ∧
    heap s' !! this = Some (finalized v nd).
Proof.
  intros Hnd Hself Hparent.
  destruct (decide (n_ nd = 0)) as [Hn|Hn];
    [destruct (parent_ nd) as [pa|] eqn:Hpa|].
  - destruct (Hparent Hn pa eq_refl) as (p & e & Hp & Hidx & He).
    eexists. split.
    + eapply FinalizeScoreUpdate_first; eauto. congruence.
    + cbn [heap]. apply lookup_insert_eq.
  - eexists. split.
    + apply FinalizeScoreUpdate_later; [done | by right].
    + cbn [heap]. apply lookup_insert_eq.
  - eexists. split.
    + apply FinalizeScoreUpdate_later; [done | by left].
    + cbn [heap]. apply lookup_insert_eq.
Qed.

Lemma finalized_same (nd : Node) (v : Qc) :
  q_ nd = Finite v →
  n_ nd + 1 ≠ 0 →
  q_ (finalized (Finite v) nd) = Finite v.
Proof.
  intros Hq Hn. rewrite (finalized_q nd v v Hq Hn). f_equal.
  pose proof (Qc_of_Z_nonzero _ Hn) as Hnz. field. done.
Qed.

Lemma backups_same (this : addr) (v : Qc) (k : nat) :
  ∀ (s : State) (nd : Node),
    heap s !! this = Some nd →
    0 < n_ nd →
    q_ nd = Finite v →
    ∃ s' nd',
      backups this (replicate k v) s = Ok ((), s') ∧
      heap s' !! this = Some nd' ∧
      q_ nd' = Finite v ∧
      n_ nd' = n_ nd + Z.of_nat k ∧
      is_terminal_ nd' = is_terminal_ nd.
Proof.
  induction k as [|k IH]; intros s nd Hnd Hn Hq.
  - exists s, nd. cbn. repeat split; try done. lia.
  - assert (n_ nd ≠ 0) as Hn0 by lia.
    pose proof (FinalizeScoreUpdate_later s this nd (Finite v) Hnd
                  (or_introl Hn0)) as Hrun.
    set (s1 := mkState _ _) in *.
    destruct (IH s1 (finalized (Finite v) nd))
      as (s' & nd' & Hrun' & Hnd' & Hq' & Hn' & Ht').
    { subst s1. cbn [heap]. apply lookup_insert_eq. }
    { cbn. lia. }
    { apply finalized_same; [done|lia]. }
    exists s', nd'. split.
    { unfold backups in *. cbn [replicate foldlM].
      by erewrite bind_Ok by exact Hrun. }
    split; [done|]. split; [done|]. split; [cbn in Hn'; lia|done].
Qed.

(** X25. A terminal node keeps its value: after [MakeTerminal(result)], any
    number of backups of the terminal value itself (0 for a draw, 1
    otherwise) leave [q] at exactly that value and the node terminal, while
    [n] counts the backups. *)
Theorem MakeTerminal_value_stable (s : State) (this : addr) (nd : Node)
    (result : GameResult) (k : nat) :
  heap s !! this = Some nd →
  0 ≤ n_ nd →
  parent_ nd ≠ Some this →
  (∀ pa, parent_ nd = Some pa →
     ∃ p e, heap s !! pa = Some p ∧ 0 ≤ index_ nd ∧
            edges_ p !! Z.to_nat (index_ nd) = Some e) →
  let v := Qc_of_Z (if decide (result = DRAW) then 0 else 1) in
  ∃ s' nd',
    (MakeTerminal this result;; backups this (replicate k v)) s
      = Ok ((), s') ∧
    heap s' !! this = Some nd' ∧
    is_terminal_ nd' = true ∧
    q_ nd' = Finite v ∧
    n_ nd' = n_ nd + Z.of_nat k.
Proof.
  intros Hnd Hn Hself Hparent v.
  rewrite (bind_Ok _ _ _ _ _ (MakeTerminal_run s this nd result Hnd)).
  set (nd0 := set_q _ _). set (s0 := mkState _ _).
  assert (heap s0 !! this = Some nd0) as Hnd0 by apply lookup_insert_eq.
  assert (q_ nd0 = Finite v) as Hq0.
  { subst nd0 v. cbn. by destruct (decide (result = DRAW)). }
  destruct k as [|k].
  { exists s0, nd0. repeat split; try done. cbn. lia. }
  destruct (FinalizeScoreUpdate_this s0 this nd0 (Finite v) Hnd0 Hself)
    as (s1 & Hrun1 & Hnd1).
  { intros _ pa Hpa. change (parent_ nd = Some pa) in Hpa.
    destruct (Hparent pa Hpa) as (p & e & Hp & Hidx & He).
    assert (pa ≠ this) as Hne by congruence.
    exists p, e. subst s0. cbn [heap]. by rewrite lookup_insert_ne. }
  destruct (backups_same this v k s1 (finalized (Finite v) nd0))
    as (s' & nd' & Hrun' & Hnd' & Hq' & Hn' & Ht'); [done|cbn; lia| |].
  { apply finalized_same; [done|cbn; lia]. }
  exists s', nd'. split.
  { unfold backups in *. cbn [replicate foldlM].
    by erewrite bind_Ok by exact Hrun1. }
  split; [done|]. split; [by rewrite Ht'|]. split; [done|].
  rewrite Hn'. cbn. lia.
Qed.

Lemma MakeTerminal_value_stable_witness :
  ∃ s' nd',
    (MakeTerminal 2 WHITE_WON;; backups 2 (replicate 3 (Qc_of_Z 1))) ex_visit
      = Ok ((), s') ∧
    heap s' !! 2%positive = Some nd' ∧
    is_terminal_ nd' = true ∧
    q_ nd' = Finite (Qc_of_Z 1) ∧
    n_ nd' = 3.
Proof.
  apply (MakeTerminal_value_stable ex_visit 2
           (set_n_in_flight 1 (Node_new (Some 1%positive) 1)) WHITE_WON 3).
  - reflexivity.
  - done.
  - discriminate.
  - intros pa [= <-]. exists ex_parent. eexists.
    split; [reflexivity|]. split; [done|reflexivity].
Defined.

(** ** Deallocating the tree *)

Lemma GarbageCollect_single (h : gmap addr Node) (p : option addr)
    (l : list addr) :
  owns h p l →
  ∃ s',
    GarbageCollect (mkState h (option_list p)) = Ok ((), s') ∧
    subtrees_to_gc_ s' = [] ∧
    ∀ a, heap s' !! a = if decide (a ∈ l) then None else h !! a.
Proof.
  intros Hown.
  destruct (GarbageCollect_loop_run h (option_list p)
              (match p with Some _ => [l] | None => [] end)
              (length (option_list p)) (mkState h (option_list p)))
    as (s' & Hrun & Hq & Hh); [done| | |done|done|].
  { destruct p; repeat constructor. done. }
  { destruct p; cbn; [rewrite app_nil_r; by eapply owns_NoDup|constructor]. }
  assert (concat (match p with Some _ => [l] | None => [] end) = l) as Hconcat.
  { destruct Hown; cbn; [done|by rewrite app_nil_r]. }
  rewrite Hconcat in Hh. by exists s'.
Qed.

Section deallocate.
Context `{External}.

(** X13. [DeallocateTree] frees nothing itself: it leaves the store of nodes
    as it is, puts the root into the collector's queue and leaves the tree
    without root and head, the history untouched.  The next [GarbageCollect]
    then frees every node of the tree and nothing else. *)
Theorem DeallocateTree_then_collect (s : State) (t : NodeTree)
    (l : list addr) :
  owns (heap s) (gamebegin_node_ t) l →
  subtrees_to_gc_ s = [] →
  ∃ t' s1 s2,
    DeallocateTree t s = Ok (t', s1) ∧
    gamebegin_node_ t' = None ∧ current_head_ t' = None ∧
    history_ t' = history_ t ∧
    heap s1 = heap s ∧
    subtrees_to_gc_ s1 = option_list (gamebegin_node_ t) ∧
    GarbageCollect s1 = Ok ((), s2) ∧
    subtrees_to_gc_ s2 = [] ∧
    (∀ a, a ∈ l → heap s2 !! a = None) ∧
    (∀ a, a ∉ l → heap s2 !! a = heap s !! a).
Proof.
  intros Hown Hq.
  destruct (GarbageCollect_single _ _ _ Hown) as (s2 & Hrun & Hq2 & Hh).
  eexists _, _, s2. split; [apply DeallocateTree_run|].
  rewrite Hq, app_nil_l.
  cbn [gamebegin_node_ current_head_ history_ heap subtrees_to_gc_].
  do 5 (split; [done|]). split; [done|]. split; [done|].
  split; intros a Ha; rewrite Hh;
    [by rewrite decide_True|by rewrite decide_False].
Qed.
End deallocate.

Lemma DeallocateTree_then_collect_witness :
  ∃ t' s1 s2,
    DeallocateTree (ex_tree 3 [false]) ex_family = Ok (t', s1) ∧
    gamebegin_node_ t' = None ∧ current_head_ t' = None ∧
    heap s1 = heap ex_family ∧
    GarbageCollect s1 = Ok ((), s2) ∧
    heap s2 !! 1%positive = None ∧
    heap s2 !! 4%positive = None.
Proof.
  destruct (DeallocateTree_then_collect (H := ex_external) ex_family
              (ex_tree 3 [false]) [1; 2; 3; 4]%positive)
    as (t' & s1 & s2 & Hrun & Hroot & Hhead & _ & Hheap & _ & Hgc & _ & Hgone
        & _).
  - eapply (owns_node _ 1 _ [] [2; 3; 4]%positive);
      [reflexivity|apply owns_null|exact ex_family_owns|solve_NoDup].
  - reflexivity.
  - exists t', s1, s2. repeat split; try done;
      apply Hgone; rewrite !elem_of_cons; auto.
Defined.
